(** * game-random: the study session and its resumable progress

    A shallow embedding of the flashcard application's session logic
    (app.js): the progress store kept in [localStorage], the game
    operations [startGame], [exitGame], [nextQuestion], [prevQuestion],
    the Fisher-Yates [shuffle], the swipe handlers and the CSV parser.
    Around the session: the selection of topics, the theme, the library
    of books with its start and its sync from the sheets, and the opening
    of a book. The endless game of the earlier app.js is embedded in the
    module [Endless].

    Conventions of the embedding:
    - a JavaScript string is the list of its UTF-16 code units;
    - a JavaScript number is an integer [Z] (fractions, NaN and the
      infinities are outside the model);
    - an exception is a [Throw] result; the state reached when it was
      raised is kept, as mutations are not rolled back;
    - the platform's [JSON] object and [String.prototype.toLowerCase] are
      parameters, [Math.random] and [Date.now] are inputs of the
      operations that call them. *)

From Stdlib Require Import ZArith NArith Lia Ascii String DecimalPos DecimalN.
From stdpp Require Import base option list gmap.

Local Open Scope Z_scope.

(** ** Strings *)

Abbreviation jsstring := (list N).

(** The code units of an ASCII literal. *)
Definition lit (s : string) : jsstring :=
  (fun c => N_of_ascii c) <$> list_ascii_of_string s.

(** ** Values *)

Unset Elimination Schemes.
Inductive Value : Type :=
| VUndefined
| VNull
| VBool (b : bool)
| VNum (n : Z)
| VStr (s : jsstring)
| VArr (items : list Value)
| VObj (fields : list (jsstring * Value)).
Set Elimination Schemes.

Inductive Exn : Type := TypeError | SyntaxError.

Inductive Res (A : Type) : Type :=
| Ok (a : A)
| Throw (e : Exn).
Arguments Ok {A} a.
Arguments Throw {A} e.

Section ValueInduction.
Variable P : Value → Prop.
Hypothesis Hundef : P VUndefined.
Hypothesis Hnull : P VNull.
Hypothesis Hbool : ∀ b, P (VBool b).
Hypothesis Hnum : ∀ n, P (VNum n).
Hypothesis Hstr : ∀ s, P (VStr s).
Hypothesis Harr : ∀ items, Forall P items → P (VArr items).
Hypothesis Hobj : ∀ fields, Forall (fun kv => P kv.2) fields → P (VObj fields).

Fixpoint Value_ind (v : Value) : P v :=
  match v with
  | VUndefined => Hundef
  | VNull => Hnull
  | VBool b => Hbool b
  | VNum n => Hnum n
  | VStr s => Hstr s
  | VArr items =>
      Harr items
        ((fix go (l : list Value) : Forall P l :=
            match l with
            | [] => Forall_nil_2 P
            | x :: r => Forall_cons_2 P x r (Value_ind x) (go r)
            end) items)
  | VObj fields =>
      Hobj fields
        ((fix go (l : list (jsstring * Value)) : Forall (fun kv => P kv.2) l :=
            match l with
            | [] => Forall_nil_2 _
            | kv :: r =>
                Forall_cons_2 (fun kv => P kv.2) kv r (Value_ind kv.2) (go r)
            end) fields)
  end.
End ValueInduction.

(** [!v] is [negb (truthy v)]. *)
Definition truthy (v : Value) : bool :=
  match v with
  | VUndefined | VNull => false
  | VBool b => b
  | VNum n => negb (n =? 0)
  | VStr s => negb (bool_decide (s = []))
  | VArr _ | VObj _ => true
  end.

Definition isArray (v : Value) : bool :=
  match v with VArr _ => true | _ => false end.

(** [typeof v === "number"]. *)
Definition typeof_number (v : Value) : bool :=
  match v with VNum _ => true | _ => false end.

(** The first binding of [name] in the fields of an object. *)
Fixpoint field (name : jsstring) (fields : list (jsstring * Value)) : option Value :=
  match fields with
  | [] => None
  | (k, v) :: rest => if bool_decide (k = name) then Some v else field name rest
  end.

(** The property read [v.name], for the names this program reads
    ([playlist], [currentIndex], [originalIndices], [term]), none of which
    a built-in prototype defines: reading from [null] or [undefined] raises
    [TypeError], a missing property reads as [undefined]. *)
Definition get_prop (v : Value) (name : jsstring) : Res Value :=
  match v with
  | VUndefined | VNull => Throw TypeError
  | VObj fields => Ok (default VUndefined (field name fields))
  | _ => Ok VUndefined
  end.

(** What [JSON.parse (JSON.stringify v)] is made of: an [undefined] array
    element is written as [null], a property whose value is [undefined] is
    left out. *)
Fixpoint jsonify (v : Value) : Value :=
  match v with
  | VArr items =>
      VArr (map (fun x => match x with VUndefined => VNull | _ => jsonify x end) items)
  | VObj fields =>
      VObj ((fix members (l : list (jsstring * Value)) : list (jsstring * Value) :=
               match l with
               | [] => []
               | (k, x) :: rest =>
                   match x with
                   | VUndefined => members rest
                   | _ => (k, jsonify x) :: members rest
                   end
               end) fields)
  | _ => v
  end.

(** ** The platform's JSON object

    [JSON_parse] answers [None] where [JSON.parse] raises [SyntaxError].
    The two laws are the ones the program relies on: a serialised value
    parses back, and the empty string is not JSON. The program serialises
    progress records only, whose keys are four distinct names; [RefJSON]
    below is a codec that has both laws. *)
Class JSON := {
  JSON_stringify : Value → jsstring;
  JSON_parse : jsstring → option Value;
  JSON_parse_stringify :
    ∀ v, v ≠ VUndefined → JSON_parse (JSON_stringify v) = Some (jsonify v);
  JSON_parse_empty : JSON_parse [] = None
}.

(** ** Words and books *)

Record Word := { term : jsstring; zhuyin : jsstring }.

Record Book := { book_id : jsstring; book_title : jsstring; words : list Word }.

Definition k_term : jsstring := Eval cbv in lit "term".
Definition k_zhuyin : jsstring := Eval cbv in lit "zhuyin".
Definition k_playlist : jsstring := Eval cbv in lit "playlist".
Definition k_currentIndex : jsstring := Eval cbv in lit "currentIndex".
Definition k_originalIndices : jsstring := Eval cbv in lit "originalIndices".
Definition k_timestamp : jsstring := Eval cbv in lit "timestamp".

(** The object [{ term, zhuyin }]. *)
Definition word_value (w : Word) : Value :=
  VObj [(k_term, VStr (term w)); (k_zhuyin, VStr (zhuyin w))].

(** ** Results that may be an exception *)

Definition try_catch {A} (body : Res A) (handler : Exn → Res A) : Res A :=
  match body with
  | Ok a => Ok a
  | Throw e => handler e
  end.

Definition res_bind {A B} (r : Res A) (k : A → Res B) : Res B :=
  match r with
  | Ok a => k a
  | Throw e => Throw e
  end.

(** ** Storage Manager *)

Definition getStorageKey (bookId : jsstring) : jsstring :=
  lit "guess_game_progress_" ++ bookId.

(** The record [saveProgress] builds: [originalIndices] is [Array.from]
    of the selection, [now] is [Date.now ()]. *)
Definition progress_record (playlist : list Value) (currentIndex : Z)
    (originalIndices : list Value) (now : Z) : Value :=
  VObj [(k_playlist, VArr playlist);
        (k_currentIndex, VNum currentIndex);
        (k_originalIndices, VArr originalIndices);
        (k_timestamp, VNum now)].

Section StorageManager.
Context `{JSON}.

Definition saveProgress (now : Z) (bookId : jsstring) (playlist : list Value)
    (currentIndex : Z) (originalIndices : list Value)
    (ls : gmap jsstring jsstring) : gmap jsstring jsstring :=
  let data := progress_record playlist currentIndex originalIndices now in
  <[getStorageKey bookId := JSON_stringify data]> ls.

(** [null] is [VNull]; [localStorage.getItem] answers [null] for a missing
    key, and [!json] also holds of the empty string. *)
Definition loadProgress (ls : gmap jsstring jsstring) (bookId : jsstring) : Res Value :=
  match ls !! getStorageKey bookId with
  | None => Ok VNull
  | Some json =>
      if negb (truthy (VStr json)) then Ok VNull
      else
        try_catch
          (res_bind
             (match JSON_parse json with
              | Some data => Ok data
              | None => Throw SyntaxError
              end)
             (fun data =>
                res_bind (get_prop data k_playlist) (fun pl =>
                if negb (truthy pl) || negb (isArray pl) then Ok VNull
                else
                  res_bind (get_prop data k_currentIndex) (fun ci =>
                  if negb (typeof_number ci) then Ok VNull else Ok data))))
          (fun _ => Ok VNull)
  end.

Definition clearProgress (ls : gmap jsstring jsstring) (bookId : jsstring)
    : gmap jsstring jsstring :=
  delete (getStorageKey bookId) ls.

End StorageManager.

(** ** Application state *)

Record Game := {
  active : bool;
  playlist : list Value;
  currentIndex : Z
}.

Inductive Screen : Type := HomeScreen | WelcomeScreen | GameScreen.

(** The parts of the page the properties below look at. The style of the
    card, the labels of the buttons and the list of topics are left out. *)
Record Dom := {
  screen : Screen;            (* the element of [dom.screens] that is active *)
  totalCountEl : Z;
  curIndexEl : Z;
  wordDisplay : Value;        (* the value assigned to [textContent] *)
  selectedCountEl : Z;
  startBtnDisabled : bool;
  resumeBtnShown : bool
}.

Record State := {
  activeBook : option Book;
  selectedIndices : list Value;   (* a [Set], in insertion order *)
  game : Game;
  localStorage : gmap jsstring jsstring;
  dom : Dom;
  alerts : list jsstring          (* the notices shown by [alert], oldest first *)
}.

Definition set_game (f : Game → Game) (st : State) : State :=
  {| activeBook := activeBook st; selectedIndices := selectedIndices st;
     game := f (game st); localStorage := localStorage st;
     dom := dom st; alerts := alerts st |}.

Definition set_selectedIndices (sel : list Value) (st : State) : State :=
  {| activeBook := activeBook st; selectedIndices := sel;
     game := game st; localStorage := localStorage st;
     dom := dom st; alerts := alerts st |}.

Definition set_localStorage (f : gmap jsstring jsstring → gmap jsstring jsstring)
    (st : State) : State :=
  {| activeBook := activeBook st; selectedIndices := selectedIndices st;
     game := game st; localStorage := f (localStorage st);
     dom := dom st; alerts := alerts st |}.

Definition set_dom (f : Dom → Dom) (st : State) : State :=
  {| activeBook := activeBook st; selectedIndices := selectedIndices st;
     game := game st; localStorage := localStorage st;
     dom := f (dom st); alerts := alerts st |}.

Definition set_active (b : bool) (g : Game) : Game :=
  {| active := b; playlist := playlist g; currentIndex := currentIndex g |}.

Definition set_playlist (pl : list Value) (g : Game) : Game :=
  {| active := active g; playlist := pl; currentIndex := currentIndex g |}.

Definition set_currentIndex (i : Z) (g : Game) : Game :=
  {| active := active g; playlist := playlist g; currentIndex := i |}.

Definition set_screen (s : Screen) (d : Dom) : Dom :=
  {| screen := s; totalCountEl := totalCountEl d; curIndexEl := curIndexEl d;
     wordDisplay := wordDisplay d; selectedCountEl := selectedCountEl d;
     startBtnDisabled := startBtnDisabled d; resumeBtnShown := resumeBtnShown d |}.

Definition set_totalCountEl (n : Z) (d : Dom) : Dom :=
  {| screen := screen d; totalCountEl := n; curIndexEl := curIndexEl d;
     wordDisplay := wordDisplay d; selectedCountEl := selectedCountEl d;
     startBtnDisabled := startBtnDisabled d; resumeBtnShown := resumeBtnShown d |}.

Definition set_curIndexEl (n : Z) (d : Dom) : Dom :=
  {| screen := screen d; totalCountEl := totalCountEl d; curIndexEl := n;
     wordDisplay := wordDisplay d; selectedCountEl := selectedCountEl d;
     startBtnDisabled := startBtnDisabled d; resumeBtnShown := resumeBtnShown d |}.

Definition set_wordDisplay (v : Value) (d : Dom) : Dom :=
  {| screen := screen d; totalCountEl := totalCountEl d; curIndexEl := curIndexEl d;
     wordDisplay := v; selectedCountEl := selectedCountEl d;
     startBtnDisabled := startBtnDisabled d; resumeBtnShown := resumeBtnShown d |}.

Definition set_selection_ui (count : Z) (d : Dom) : Dom :=
  {| screen := screen d; totalCountEl := totalCountEl d; curIndexEl := curIndexEl d;
     wordDisplay := wordDisplay d; selectedCountEl := count;
     startBtnDisabled := (count =? 0); resumeBtnShown := resumeBtnShown d |}.

Definition set_resumeBtnShown (b : bool) (d : Dom) : Dom :=
  {| screen := screen d; totalCountEl := totalCountEl d; curIndexEl := curIndexEl d;
     wordDisplay := wordDisplay d; selectedCountEl := selectedCountEl d;
     startBtnDisabled := startBtnDisabled d; resumeBtnShown := b |}.

(** ** Statements over the state: a state and exception monad *)

Definition M (A : Type) : Type := State → Res A * State.

Definition ret {A} (a : A) : M A := fun st => (Ok a, st).

Definition bind {A B} (m : M A) (k : A → M B) : M B :=
  fun st =>
    match m st with
    | (Ok a, st') => k a st'
    | (Throw e, st') => (Throw e, st')
    end.

Definition get : M State := fun st => (Ok st, st).

Definition modify (f : State → State) : M unit := fun st => (Ok tt, f st).

Definition lift {A} (r : Res A) : M A := fun st => (r, st).

Notation "'do' x <- m ; k" := (bind m (fun x => k))
  (at level 10, x name, m at level 100, k at level 200).
Notation "'run' m ; k" := (bind m (fun _ => k))
  (at level 10, m at level 100, k at level 200).

(** ** Arrays and sets *)

(** [array[i]] for a number [i]: [undefined] outside the array. *)
Definition array_get (array : list Value) (i : Z) : Value :=
  if 0 <=? i then default VUndefined (array !! Z.to_nat i) else VUndefined.

(** [words[idx]] for an element [idx] of the selection. A number reads the
    element at that index, [undefined] outside the list. Keys that are not
    numbers are outside the model: JavaScript turns them into property
    names, so that the string ["0"] reads the first word and ["length"]
    the length of the list. Such keys can only come from a progress
    record edited by hand; they are read as [undefined] here, and the
    properties of playlists below are stated for selections of numbers. *)
Definition index_words (ws : list Word) (idx : Value) : Value :=
  match idx with
  | VNum n => if 0 <=? n then default VUndefined (word_value <$> ws !! Z.to_nat n)
              else VUndefined
  | _ => VUndefined
  end.

(** SameValueZero on the elements of a freshly parsed array: primitives
    are compared by value, every array and object is an object of its
    own. *)
Definition same_value_zero (a b : Value) : bool :=
  match a, b with
  | VUndefined, VUndefined | VNull, VNull => true
  | VBool x, VBool y => bool_decide (x = y)
  | VNum x, VNum y => bool_decide (x = y)
  | VStr x, VStr y => bool_decide (x = y)
  | _, _ => false
  end.

(** Insertion into a [Set]: an element already present keeps its place. *)
Definition set_add (s : list Value) (v : Value) : list Value :=
  if existsb (same_value_zero v) s then s else s ++ [v].

Definition is_high_surrogate (c : N) : bool := ((55296 <=? c) && (c <=? 56319))%N.
Definition is_low_surrogate (c : N) : bool := ((56320 <=? c) && (c <=? 57343))%N.

(** The iteration of a string: one string per code point. *)
Fixpoint code_points (s : jsstring) : list jsstring :=
  match s with
  | [] => []
  | h :: t =>
      match t with
      | l :: t' =>
          if is_high_surrogate h && is_low_surrogate l
          then [h; l] :: code_points t'
          else [h] :: code_points t
      | [] => [[h]]
      end
  end.

(** [new Set (iterable)]: empty for [undefined] and [null], the elements of
    an array or the code points of a string, [TypeError] for a value that
    is not iterable. *)
Definition new_Set (iterable : Value) : Res (list Value) :=
  match iterable with
  | VUndefined | VNull => Ok []
  | VArr items => Ok (foldl set_add [] items)
  | VStr s => Ok (foldl set_add [] (VStr <$> code_points s))
  | VBool _ | VNum _ | VObj _ => Throw TypeError
  end.

(** ** Fisher-Yates shuffle *)

(** The destructuring swap [[a[i], a[j]] = [a[j], a[i]]]. Both indices are
    inside the array wherever [shuffle] swaps. *)
Definition swap {A} (array : list A) (i j : nat) : list A :=
  match array !! j, array !! i with
  | Some y, Some x => <[j := x]> (<[i := y]> array)
  | _, _ => array
  end.

(** The [while] loop of [shuffle]. [rand k] is the sample behind the
    [k]-th call of [Math.random]; [Math.floor (Math.random () * c)] is the
    sample reduced to [0 .. c - 1]. [calls] counts the calls made so far
    and [currentIndex] is the loop variable before it is decremented. *)
Fixpoint shuffle_loop {A} (rand : nat → nat) (calls currentIndex : nat)
    (array : list A) : list A :=
  match currentIndex with
  | O => array
  | S i =>
      let randomIndex := (rand calls mod S i)%nat in
      shuffle_loop rand (S calls) i (swap array i randomIndex)
  end.

Definition shuffle {A} (rand : nat → nat) (array : list A) : list A :=
  shuffle_loop rand 0 (length array) array.

(** ** Game logic *)

Definition resume_notice : jsstring :=
  [28961; 27861; 35712; 21462; 23384; 27284; 65292;
   23559; 38283; 22987; 26032; 36938; 25138; 12290]%N.

Definition add_alert (message : jsstring) (st : State) : State :=
  {| activeBook := activeBook st; selectedIndices := selectedIndices st;
     game := game st; localStorage := localStorage st;
     dom := dom st; alerts := alerts st ++ [message] |}.

Definition alert (message : jsstring) : M unit := modify (add_alert message).

Definition navigateTo (screenName : Screen) : M unit :=
  modify (set_dom (set_screen screenName)).

(** [state.activeBook] dereferenced: [TypeError] when it is [null]. *)
Definition the_activeBook : M Book :=
  do st <- get;
  match activeBook st with
  | Some book => ret book
  | None => lift (Throw TypeError)
  end.

(** The elements of a value that validation has shown to be an array. *)
Definition array_items (v : Value) : list Value :=
  match v with VArr items => items | _ => [] end.

(** The integer of a value that validation has shown to be a number. *)
Definition number_of (v : Value) : Z :=
  match v with VNum n => n | _ => 0 end.

Definition updateCardUI : M unit :=
  do st <- get;
  let w := array_get (playlist (game st)) (currentIndex (game st)) in
  do t <- lift (get_prop w k_term);
  run modify (set_dom (set_wordDisplay t));
  modify (set_dom (set_curIndexEl (currentIndex (game st) + 1))).

(** [renderTopicList], as far as the state goes: it reads
    [state.activeBook.words] and ends in [updateSelectionUI]. *)
Definition renderTopicList : M unit :=
  do _book <- the_activeBook;
  do st <- get;
  modify (set_dom (set_selection_ui (Z.of_nat (length (selectedIndices st))))).

Section GameLogic.
Context `{JSON}.

Definition saveProgressM (now : Z) (bookId : jsstring) (pl : list Value)
    (ci : Z) (originalIndices : list Value) : M unit :=
  modify (set_localStorage (saveProgress now bookId pl ci originalIndices)).

Definition updateWelcomeUI (bookId : jsstring) : M unit :=
  do st <- get;
  do progress <- lift (loadProgress (localStorage st) bookId);
  do originalIndices <-
    (if truthy progress then lift (get_prop progress k_originalIndices)
     else ret VUndefined);
  run (if truthy progress && truthy originalIndices then
         do sel <- lift (new_Set originalIndices);
         modify (set_selectedIndices sel)
       else modify (set_selectedIndices []));
  run renderTopicList;
  modify (set_dom (set_resumeBtnShown (truthy progress))).

(** The tail of [startGame] under the comment "UI Update". *)
Definition startGame_ui : M unit :=
  do st <- get;
  run modify (set_dom (set_totalCountEl (Z.of_nat (length (playlist (game st))))));
  run navigateTo GameScreen;
  updateCardUI.

(** [startGame (false)]. *)
Definition startGame_new (rand : nat → nat) (now : Z) : M unit :=
  run modify (set_game (set_active true));
  do st <- get;
  if (length (selectedIndices st) =? 0)%nat then ret tt
  else
    do book <- the_activeBook;
    let pool := index_words (words book) <$> selectedIndices st in
    run modify (set_game (set_playlist (shuffle rand pool)));
    run modify (set_game (set_currentIndex (-1)));
    run modify (set_game (set_currentIndex 0));
    run modify (set_localStorage (fun ls => clearProgress ls (book_id book)));
    do st1 <- get;
    run saveProgressM now (book_id book) (playlist (game st1)) 0 (selectedIndices st1);
    startGame_ui.

Definition startGame (rand : nat → nat) (now : Z) (isResume : bool) : M unit :=
  if isResume then
    run modify (set_game (set_active true));
    do book <- the_activeBook;
    do st <- get;
    do progress <- lift (loadProgress (localStorage st) (book_id book));
    if truthy progress then
      do pl <- lift (get_prop progress k_playlist);
      run modify (set_game (set_playlist (array_items pl)));
      do ci <- lift (get_prop progress k_currentIndex);
      run modify (set_game (set_currentIndex (number_of ci)));
      do originalIndices <- lift (get_prop progress k_originalIndices);
      do sel <- lift (new_Set originalIndices);
      run modify (set_selectedIndices sel);
      startGame_ui
    else
      run alert resume_notice;
      startGame_new rand now
  else startGame_new rand now.

Definition exitGame (now : Z) : M unit :=
  run modify (set_game (set_active false));
  do st <- get;
  run (match activeBook st with
       | Some book =>
           run saveProgressM now (book_id book) (playlist (game st))
                 (currentIndex (game st)) (selectedIndices st);
           updateWelcomeUI (book_id book)
       | None => ret tt
       end);
  run navigateTo WelcomeScreen;
  modify (set_dom (set_wordDisplay (VStr (lit "...")))).

Definition nextQuestion (now : Z) : M unit :=
  do st <- get;
  if currentIndex (game st) <? Z.of_nat (length (playlist (game st))) - 1 then
    run modify (set_game (set_currentIndex (currentIndex (game st) + 1)));
    run updateCardUI;
    do book <- the_activeBook;
    do st1 <- get;
    saveProgressM now (book_id book) (playlist (game st1))
      (currentIndex (game st1)) (selectedIndices st1)
  else ret tt.

Definition prevQuestion (now : Z) : M unit :=
  do st <- get;
  if 0 <? currentIndex (game st) then
    run modify (set_game (set_currentIndex (currentIndex (game st) - 1)));
    run updateCardUI;
    do book <- the_activeBook;
    do st1 <- get;
    saveProgressM now (book_id book) (playlist (game st1))
      (currentIndex (game st1)) (selectedIndices st1)
  else ret tt.

End GameLogic.

(** ** Swipe logic *)

(** The variables captured by the handlers of [initSwipeAttributes]. *)
Record Swipe := { startX : Z; currentX : Z; isDragging : bool }.

Definition threshold : Z := 100.

Inductive Direction : Type := ToLeft | ToRight.

Inductive Callback : Type := NextQuestion | PrevQuestion.

(** What a handler does to the card: nothing, [resetCardPosition ()], or
    [animateSwipeAndAction (direction, callback)], which runs the callback
    once after its animation. *)
Inductive CardAction : Type :=
| NoAction
| ResetCardPosition
| AnimateSwipeAndAction (direction : Direction) (callback : Callback).

(** [clientX] is the horizontal position the event reports. *)
Definition onStart (clientX : Z) (g : Game) (sw : Swipe) : Swipe :=
  if negb (active g) then sw
  else {| startX := clientX; currentX := currentX sw; isDragging := true |}.

Definition onMove (clientX : Z) (sw : Swipe) : Swipe :=
  if negb (isDragging sw) then sw
  else {| startX := startX sw; currentX := clientX; isDragging := true |}.

Definition onEnd (g : Game) (sw : Swipe) : Swipe * CardAction :=
  if negb (isDragging sw) then (sw, NoAction)
  else
    let sw' := {| startX := startX sw; currentX := currentX sw; isDragging := false |} in
    let dx := currentX sw - startX sw in
    if threshold <? Z.abs dx then
      if 0 <? dx then
        if currentIndex g <? Z.of_nat (length (playlist g)) - 1
        then (sw', AnimateSwipeAndAction ToRight NextQuestion)
        else (sw', ResetCardPosition)
      else
        if 0 <? currentIndex g
        then (sw', AnimateSwipeAndAction ToLeft PrevQuestion)
        else (sw', ResetCardPosition)
    else (sw', ResetCardPosition).

(** ** CSV Fetcher *)

(** [csvText.split (/\r?\n/)]: a line feed ends a line, and takes a
    carriage return just before it along. *)
Fixpoint split_lines (s : jsstring) : list jsstring :=
  match s with
  | [] => [[]]
  | c :: r =>
      if bool_decide (c = 10%N) then [] :: split_lines r
      else
        match r with
        | c' :: r' =>
            if bool_decide (c = 13%N) && bool_decide (c' = 10%N)
            then [] :: split_lines r'
            else match split_lines r with
                 | l :: ls => (c :: l) :: ls
                 | [] => [[c]]
                 end
        | [] => [[c]]
        end
  end.

(** [line.split (",")]. *)
Fixpoint split_commas (s : jsstring) : list jsstring :=
  match s with
  | [] => [[]]
  | c :: r =>
      if bool_decide (c = 44%N) then [] :: split_commas r
      else match split_commas r with
           | l :: ls => (c :: l) :: ls
           | [] => [[c]]
           end
  end.

(** White space and line terminators, the code units [trim] removes. *)
Definition is_space (c : N) : bool :=
  bool_decide (c ∈ [9; 10; 11; 12; 13; 32; 160; 5760; 8192; 8193; 8194; 8195;
                    8196; 8197; 8198; 8199; 8200; 8201; 8202; 8232; 8233;
                    8239; 8287; 12288; 65279]%N).

Fixpoint trim_start (s : jsstring) : jsstring :=
  match s with
  | [] => []
  | c :: r => if is_space c then trim_start r else s
  end.

Definition trim (s : jsstring) : jsstring :=
  reverse (trim_start (reverse (trim_start s))).

Fixpoint starts_with (p s : jsstring) : bool :=
  match p, s with
  | [], _ => true
  | _ :: _, [] => false
  | a :: p', b :: s' => bool_decide (a = b) && starts_with p' s'
  end.

(** [s.includes (p)]. *)
Fixpoint includes (s p : jsstring) : bool :=
  starts_with p s ||
  match s with
  | [] => false
  | _ :: r => includes r p
  end.

Record Metadata := { title : option jsstring }.

Record ParseResult := { parsed_words : list Word; metadata : Metadata }.

Section CSVFetcher.
Variable toLowerCase : jsstring → jsstring.

(** The test on the first row that keeps a header from becoming the
    title. *)
Definition not_header (term : jsstring) : bool :=
  let lower := toLowerCase term in
  negb (bool_decide (lower = lit "term"))
  && negb (bool_decide (lower = lit "word"))
  && negb (includes lower [38988; 30446]%N)
  && negb (includes lower (lit "content")).

(** The body of the [forEach] callback, on the accumulated [data] and
    [metadata]. *)
Definition parse_row (line : jsstring) (index : nat)
    (acc : list Word * Metadata) : list Word * Metadata :=
  let parts := split_commas line in
  let term := trim (default [] (parts !! 0%nat)) in
  let zhuyin := match parts !! 1%nat with
                | Some p => trim p
                | None => []
                end in
  if bool_decide (term = []) then acc
  else if (index =? 0)%nat then
    if not_header term then (acc.1, {| title := Some term |}) else acc
  else (acc.1 ++ [{| term := term; zhuyin := zhuyin |}], acc.2).

Fixpoint forEach_rows (lines : list jsstring) (index : nat)
    (acc : list Word * Metadata) : list Word * Metadata :=
  match lines with
  | [] => acc
  | line :: rest => forEach_rows rest (S index) (parse_row line index acc)
  end.

Definition parse (csvText : jsstring) : ParseResult :=
  let lines := filter (fun line => trim line ≠ []) (split_lines csvText) in
  let '(data, metadata) := forEach_rows lines 0 ([], {| title := None |}) in
  {| parsed_words := data; metadata := metadata |}.

End CSVFetcher.

(** * Definitions used to state the properties *)

(** ** The progress store *)

(** An array element as [JSON.stringify] writes it. *)
Definition json_elem (x : Value) : Value :=
  match x with VUndefined => VNull | _ => jsonify x end.

(** A valid record in the words of the design: a record whose [playlist]
    field is an array and whose [currentIndex] field is a number. *)
Definition valid_progress (data : Value) : bool :=
  match data with
  | VObj fields =>
      match field k_playlist fields, field k_currentIndex fields with
      | Some (VArr _), Some (VNum _) => true
      | _, _ => false
      end
  | _ => false
  end.

Definition is_word (v : Value) : Prop := ∃ w, v = word_value w.

(** ** Navigation *)

Definition len (st : State) : Z := Z.of_nat (length (playlist (game st))).

(** ** The shuffle *)

(** The loop of [shuffle] on the list of the scaled samples it consumes. *)
Fixpoint shuffle_with {A} (cs : list nat) (c : nat) (array : list A) : list A :=
  match c, cs with
  | S i, r :: cs' => shuffle_with cs' i (swap array i (r mod S i)%nat)
  | _, _ => array
  end.

(** The loop in the words of the design: for [i] from [length - 1] down to
    [1], swap element [i] with the element at [choice i], an index in
    [0 .. i]. *)
Fixpoint fisher_yates_from {A} (choice : nat → nat) (i : nat) (array : list A)
    : list A :=
  match i with
  | O => array
  | S i' => fisher_yates_from choice i' (swap array i (choice i))
  end.

Definition fisher_yates {A} (choice : nat → nat) (array : list A) : list A :=
  fisher_yates_from choice (length array - 1) array.

(** The choice vectors of a shuffle of [n] elements: the first choice is
    below [n], the next below [n - 1], and so on. *)
Fixpoint choice_vectors (n : nat) : list (list nat) :=
  match n with
  | O => [[]]
  | S i => r ← seq 0 (S i); cons r <$> choice_vectors i
  end.

Fixpoint valid_choices (n : nat) (cs : list nat) : Prop :=
  match n, cs with
  | O, [] => True
  | S i, r :: cs' => (r < S i)%nat ∧ valid_choices i cs'
  | _, _ => False
  end.

(** A random source that answers the samples [cs] in turn. *)
Definition stream (cs : list nat) : nat → nat := fun k => default 0%nat (cs !! k).

(** ** Session states *)

(** Two states that differ in the page only. *)
Definition same_but_dom (st st' : State) : Prop := st' = set_dom (fun _ => dom st') st.

Section SessionStates.
Context `{JSON}.

(** The state in which a new game leaves the session, up to the page. *)
Definition new_game_state (rand : nat → nat) (now : Z) (book : Book) (st : State)
    (d : Dom) : State :=
  let pl := shuffle rand (index_words (words book) <$> selectedIndices st) in
  {| activeBook := activeBook st;
     selectedIndices := selectedIndices st;
     game := {| active := true; playlist := pl; currentIndex := 0 |};
     localStorage :=
       saveProgress now (book_id book) pl 0 (selectedIndices st)
         (clearProgress (localStorage st) (book_id book));
     dom := d;
     alerts := alerts st |}.

(** The state after the assignments of the resume branch, up to the
    selection and the page. *)
Definition resumed_state (st : State) (pl : list Value) (n : Z)
    (sel : list Value) (d : Dom) : State :=
  {| activeBook := activeBook st;
     selectedIndices := sel;
     game := {| active := true; playlist := pl; currentIndex := n |};
     localStorage := localStorage st;
     dom := d;
     alerts := alerts st |}.

(** The state in which [exitGame] leaves an open book. *)
Definition exited_state (now : Z) (book : Book) (st : State) : State :=
  let sel := foldl set_add [] (json_elem <$> selectedIndices st) in
  {| activeBook := activeBook st;
     selectedIndices := sel;
     game := set_active false (game st);
     localStorage :=
       saveProgress now (book_id book) (playlist (game st))
         (currentIndex (game st)) (selectedIndices st) (localStorage st);
     dom := set_wordDisplay (VStr (lit "..."))
              (set_screen WelcomeScreen
                 (set_resumeBtnShown true
                    (set_selection_ui (Z.of_nat (length sel)) (dom st))));
     alerts := alerts st |}.

(** The state after the cursor has moved to [i] and the move was saved. *)
Definition moved_state (now : Z) (book : Book) (st : State) (i : Z) : State :=
  {| activeBook := activeBook st;
     selectedIndices := selectedIndices st;
     game := set_currentIndex i (game st);
     localStorage :=
       saveProgress now (book_id book) (playlist (game st)) i
         (selectedIndices st) (localStorage st);
     dom := set_curIndexEl (i + 1)
              (set_wordDisplay
                 (match get_prop (array_get (playlist (game st)) i) k_term with
                  | Ok t => t
                  | Throw _ => VUndefined
                  end)
                 (dom st));
     alerts := alerts st |}.

End SessionStates.

(** The stored progress of the active book is a record whose cursor and
    playlist are those of the game in memory. *)
Definition in_sync `{JSON} (st : State) : Prop :=
  ∃ book data,
    activeBook st = Some book
    ∧ loadProgress (localStorage st) (book_id book) = Ok data
    ∧ get_prop data k_currentIndex = Ok (VNum (currentIndex (game st)))
    ∧ get_prop data k_playlist = Ok (VArr (playlist (game st))).

(** ** The rows of a sheet *)

(** The first field of a row, trimmed. *)
Definition first_field (line : jsstring) : jsstring :=
  trim (default [] (split_commas line !! 0%nat)).

(** The second field of a row, trimmed; empty when the row has no comma. *)
Definition second_field (line : jsstring) : jsstring :=
  match split_commas line !! 1%nat with
  | Some p => trim p
  | None => []
  end.

(** The word a row after the first stands for: none when its first field
    is empty. *)
Definition row_word (line : jsstring) : option Word :=
  if bool_decide (first_field line = []) then None
  else Some {| term := first_field line; zhuyin := second_field line |}.

(** ** What an operation may touch in the storage *)

(** The storage [ls'] differs from [ls] at most under the progress key of
    the book [bookId]. *)
Definition only_progress_of (bookId : jsstring)
    (ls ls' : gmap jsstring jsstring) : Prop :=
  ∀ k, k ≠ getStorageKey bookId → ls' !! k = ls !! k.

(** From [st] to [st'] the open book is the same, and the storage has
    changed at most under the progress key of that book; with no book
    open the storage has not changed at all. *)
Definition storage_frame (st st' : State) : Prop :=
  activeBook st' = activeBook st
  ∧ match activeBook st with
    | Some book => only_progress_of (book_id book) (localStorage st) (localStorage st')
    | None => localStorage st' = localStorage st
    end.

(** ** Selections of numbers *)

(** [Set.prototype.add] on a set of numbers. *)
Definition add_index (s : list Z) (i : Z) : list Z :=
  if bool_decide (i ∈ s) then s else s ++ [i].

(** ** Sessions *)

(** A session as a start builds it: a book is open, the playlist holds
    words and the cursor is inside it. *)
Definition session_ok (book : Book) (st : State) : Prop :=
  activeBook st = Some book
  ∧ Forall is_word (playlist (game st))
  ∧ 0 ≤ currentIndex (game st) < len st.

(** The function [animateSwipeAndAction] hands to [setTimeout]: it runs
    the callback and then restyles the card, which is not part of the
    model. *)
Definition animateSwipeAndAction_timeout `{JSON} (now : Z) (callback : Callback)
    : M unit :=
  match callback with
  | NextQuestion => nextQuestion now
  | PrevQuestion => prevQuestion now
  end.

(** Timers that fire one after the other, each with the time at which it
    fires. An exception in one of them does not keep the later ones from
    firing. *)
Fixpoint fire_timeouts `{JSON} (timers : list (Z * Callback)) (st : State)
    : list (Res unit) * State :=
  match timers with
  | [] => ([], st)
  | (now, callback) :: rest =>
      let '(r, st1) := animateSwipeAndAction_timeout now callback st in
      let '(rs, st2) := fire_timeouts rest st1 in
      (r :: rs, st2)
  end.

(** ** Selecting topics *)

(** [set.has (v)]. *)
Definition set_has (s : list Value) (v : Value) : bool :=
  existsb (same_value_zero v) s.

(** [set.delete (v)]. *)
Definition set_delete (s : list Value) (v : Value) : list Value :=
  filter (fun x => same_value_zero v x = false) s.

(** [updateSelectionUI]: the count and the start button are written, then
    [state.activeBook.words] is read for the label of the select-all
    button, which is not part of the page of the model. *)
Definition updateSelectionUI : M unit :=
  do st <- get;
  run modify (set_dom (set_selection_ui (Z.of_nat (length (selectedIndices st)))));
  do _book <- the_activeBook;
  ret tt.

(** [toggleSelection (index, el)], without the class of the element. *)
Definition toggleSelection (index : Z) : M unit :=
  do st <- get;
  run (if set_has (selectedIndices st) (VNum index)
       then modify (set_selectedIndices (set_delete (selectedIndices st) (VNum index)))
       else modify (set_selectedIndices (set_add (selectedIndices st) (VNum index))));
  updateSelectionUI.

(** The click handler of the select-all button. *)
Definition selectAll_click : M unit :=
  do book <- the_activeBook;
  let total := length (words book) in
  do st <- get;
  run (if (length (selectedIndices st) =? total)%nat
       then modify (set_selectedIndices [])
       else modify (set_selectedIndices
                      (foldl set_add (selectedIndices st)
                         (VNum <$> seqZ 0 (Z.of_nat total)))));
  renderTopicList.

(** The selection of numbers [s] after a click on topic [i]. *)
Definition toggle_index (s : list Z) (i : Z) : list Z :=
  if bool_decide (i ∈ s) then filter (fun j => j ≠ i) s else s ++ [i].

(** ** Gestures *)

(** A gesture on the card: the pointer goes down at [x0], moves through
    the positions [moves] and is released, the game staying as it is
    meanwhile. *)
Definition gesture (g : Game) (x0 : Z) (moves : list Z) (sw : Swipe)
    : Swipe * CardAction :=
  onEnd g (foldl (fun s x => onMove x s) (onStart x0 g sw) moves).

(** ** Rows and fields *)

(** [parts.join (sep)] for a separator of one code unit. *)
Fixpoint join_with (sep : N) (parts : list jsstring) : jsstring :=
  match parts with
  | [] => []
  | [p] => p
  | p :: rest => p ++ sep :: join_with sep rest
  end.

(** * The library and the theme *)

(** ** The application around the session

    The state of the session together with the rest of [state] and of
    the page that the library and the theme use. The title shown on the
    welcome screen and the grid of books are left out. *)
Record App := {
  session : State;
  library : Value;               (* [state.library] *)
  viewMode : jsstring;
  theme : jsstring;              (* [state.theme] *)
  dataTheme : option jsstring;   (* the attribute [data-theme] of the document *)
  themeIcon : option jsstring    (* the text of the icon of the theme toggles *)
}.

Definition set_session (f : State → State) (app : App) : App :=
  {| session := f (session app); library := library app;
     viewMode := viewMode app; theme := theme app;
     dataTheme := dataTheme app; themeIcon := themeIcon app |}.

Definition set_library (lib : Value) (app : App) : App :=
  {| session := session app; library := lib;
     viewMode := viewMode app; theme := theme app;
     dataTheme := dataTheme app; themeIcon := themeIcon app |}.

Definition set_viewMode (mode : jsstring) (app : App) : App :=
  {| session := session app; library := library app;
     viewMode := mode; theme := theme app;
     dataTheme := dataTheme app; themeIcon := themeIcon app |}.

Definition set_theme (t : jsstring) (app : App) : App :=
  {| session := session app; library := library app;
     viewMode := viewMode app; theme := t;
     dataTheme := dataTheme app; themeIcon := themeIcon app |}.

Definition board : jsstring := Eval cbv in lit "board".

Definition set_activeBook (book : option Book) (st : State) : State :=
  {| activeBook := book; selectedIndices := selectedIndices st;
     game := game st; localStorage := localStorage st;
     dom := dom st; alerts := alerts st |}.

(** ** The theme *)

Definition k_theme : jsstring := Eval cbv in lit "theme".

(** [localStorage.getItem ("theme") || "light"], the theme of a freshly
    loaded page. *)
Definition stored_theme (ls : gmap jsstring jsstring) : jsstring :=
  match ls !! k_theme with
  | Some t => if truthy (VStr t) then t else lit "light"
  | None => lit "light"
  end.

Definition applyTheme (t : jsstring) (app : App) : App :=
  let iconName := if bool_decide (t = lit "light") then lit "dark_mode"
                  else lit "light_mode" in
  {| session := set_localStorage (fun ls => <[k_theme := t]> ls) (session app);
     library := library app; viewMode := viewMode app; theme := theme app;
     dataTheme := Some t; themeIcon := Some iconName |}.

Definition toggleTheme (app : App) : App :=
  let t := if bool_decide (theme app = lit "light") then lit "dark"
           else lit "light" in
  applyTheme t (set_theme t app).

(** ** The books of data.js *)

(** An entry of [defaultLibrary] is a local book with its words or a
    sheet with its url. *)
Inductive Source : Type :=
| Local (ws : list Word)
| Csv (url : jsstring).

Record DefaultBook := { d_id : jsstring; d_title : jsstring; d_source : Source }.

Definition k_id : jsstring := Eval cbv in lit "id".
Definition k_title : jsstring := Eval cbv in lit "title".
Definition k_sourceType : jsstring := Eval cbv in lit "sourceType".
Definition k_url : jsstring := Eval cbv in lit "url".
Definition k_count : jsstring := Eval cbv in lit "count".
Definition k_library : jsstring := Eval cbv in lit "library".

(** [book.sourceType]. *)
Definition sourceType_of (s : Source) : jsstring :=
  match s with Local _ => lit "local" | Csv _ => lit "csv" end.

(** [book.url], which a local book does not have. *)
Definition url_of (s : Source) : Value :=
  match s with Local _ => VUndefined | Csv url => VStr url end.

Definition extractMeta (book : DefaultBook) : Value :=
  let url := url_of (d_source book) in
  VObj [(k_id, VStr (d_id book));
        (k_title, VStr (d_title book));
        (k_sourceType, VStr (sourceType_of (d_source book)));
        (k_url, if truthy url then url else VNull);
        (k_count, VNum (match d_source book with
                        | Local ws => Z.of_nat (length ws)
                        | Csv _ => 0
                        end))].

(** ** Library Manager *)

(** [v === s] for a string [s]. *)
Definition strict_eq_string (v : Value) (s : jsstring) : bool :=
  match v with VStr x => bool_decide (x = s) | _ => false end.

(** [items.findIndex ((b) => b.id === id)], counting from [i]; [None] is
    the answer [-1]. The callback raises [TypeError] on an element that
    is [null]. [items.find] with the same callback answers the element at
    this index. Like [playlist] and the others, [id], [title],
    [sourceType], [url] and [count] are names no built-in prototype
    defines. *)
Fixpoint find_by_id (items : list Value) (id : jsstring) (i : nat)
    : Res (option nat) :=
  match items with
  | [] => Ok None
  | b :: rest =>
      match get_prop b k_id with
      | Throw e => Throw e
      | Ok v => if strict_eq_string v id then Ok (Some i)
                else find_by_id rest id (S i)
      end
  end.

(** The fields of an object after the assignment [obj.name = v]. *)
Fixpoint set_field (name : jsstring) (v : Value) (fields : list (jsstring * Value))
    : list (jsstring * Value) :=
  match fields with
  | [] => [(name, v)]
  | (k, x) :: rest =>
      if bool_decide (k = name) then (k, v) :: rest
      else (k, x) :: set_field name v rest
  end.

(** [obj.name = v] on an object; the program assigns to elements of the
    library that [find_by_id] has found, which are objects. *)
Definition set_prop (name : jsstring) (v : Value) (obj : Value) : Value :=
  match obj with
  | VObj fields => VObj (set_field name v fields)
  | _ => obj
  end.

(** The callback of [defaultLibrary.forEach] in [init], on the library as
    it stands: a stored value that is not an array has no [findIndex]. *)
Definition merge_default (defBook : DefaultBook) (lib : Value) : Res unit * Value :=
  match lib with
  | VArr items =>
      match find_by_id items (d_id defBook) 0 with
      | Throw e => (Throw e, lib)
      | Ok None => (Ok tt, VArr (items ++ [extractMeta defBook]))
      | Ok (Some existingIdx) =>
          (Ok tt,
           VArr (alter (fun b =>
                          set_prop k_sourceType (VStr (sourceType_of (d_source defBook)))
                            (set_prop k_url (url_of (d_source defBook)) b))
                   existingIdx items))
      end
  | _ => (Throw TypeError, lib)
  end.

(** [defaultLibrary.forEach] with that callback: the library is changed
    in place, so what was merged before an exception stays. *)
Fixpoint merge_defaults (defaults : list DefaultBook) (lib : Value)
    : Res unit * Value :=
  match defaults with
  | [] => (Ok tt, lib)
  | defBook :: rest =>
      match merge_default defBook lib with
      | (Ok _, lib') => merge_defaults rest lib'
      | (Throw e, lib') => (Throw e, lib')
      end
  end.

(** The notice of a sheet that cannot be read. *)
Definition csv_notice : jsstring :=
  [28961; 27861; 35712; 21462; 32; 67; 83; 86; 32; 36899; 32080; 65292; 35531;
   27298; 26597; 32178; 22336; 25110; 32178; 36335; 29376; 24907; 12290]%N.

(** The text of a title; a title that is not a string (a library edited
    by hand) is kept as the empty string, nothing in the model reads it. *)
Definition title_text (v : Value) : jsstring :=
  match v with VStr s => s | _ => [] end.

(** [meta.name] on an entry that [find_by_id] has found, which is an
    object. *)
Definition meta_prop (meta : Value) (name : jsstring) : Value :=
  match get_prop meta name with Ok v => v | Throw _ => VUndefined end.

Section LibraryManager.
Context `{JSON}.
Variable toLowerCase : jsstring → jsstring.
Variable defaultLibrary : list DefaultBook.

Definition LibraryManager_save (app : App) : App :=
  set_session
    (set_localStorage (fun ls => <[k_library := JSON_stringify (library app)]> ls))
    app.

(** [LibraryManager.init], up to the call of [syncAll], whose fetches
    complete later, each in a [loadBook]. [JSON.parse] is not guarded. *)
Definition LibraryManager_init (app : App) : Res unit * App :=
  match localStorage (session app) !! k_library with
  | Some stored =>
      if truthy (VStr stored) then
        match JSON_parse stored with
        | None => (Throw SyntaxError, app)
        | Some lib =>
            match merge_defaults defaultLibrary lib with
            | (Ok _, lib') => (Ok tt, LibraryManager_save (set_library lib' app))
            | (Throw e, lib') => (Throw e, set_library lib' app)
            end
        end
      else
        (Ok tt, LibraryManager_save
                  (set_library (VArr (extractMeta <$> defaultLibrary)) app))
  | None =>
      (Ok tt, LibraryManager_save
                (set_library (VArr (extractMeta <$> defaultLibrary)) app))
  end.

(** The local default with this id, if there is one, with its words. *)
Definition local_default (bookId : jsstring) : option (DefaultBook * list Word) :=
  list_find (fun d => d_id d = bookId ∧ sourceType_of (d_source d) = lit "local")
    defaultLibrary
  ≫= fun '(_, d) => match d_source d with
                    | Local ws => Some (d, ws)
                    | Csv _ => None
                    end.

(** [meta.count !== n]. *)
Definition count_differs (meta : Value) (n : Z) : bool :=
  match meta_prop meta k_count with
  | VNum m => negb (bool_decide (m = n))
  | _ => true
  end.

(** [meta.title !== t]. *)
Definition title_differs (meta : Value) (t : jsstring) : bool :=
  negb (strict_eq_string (meta_prop meta k_title) t).

(** [loadBook (bookId)] from the moment its fetch has settled:
    [response] is the text of the sheet, or [None] when the request
    failed or was answered with an error status. Between the call and
    that moment the program changes nothing of the library but the
    counts and titles of entries, so the entry found at the call is the
    entry found here. A result of [None] is the answer [null]. *)
Definition loadBook (response : option jsstring) (bookId : jsstring) (app : App)
    : Res (option Book) * App :=
  match library app with
  | VArr items =>
      match find_by_id items bookId 0 with
      | Throw e => (Throw e, app)
      | Ok None => (Ok None, app)
      | Ok (Some i) =>
          let meta := default VUndefined (items !! i) in
          match local_default bookId with
          | Some (d, ws) =>
              (Ok (Some {| book_id := d_id d;
                           book_title := title_text (meta_prop meta k_title);
                           words := ws |}), app)
          | None =>
              if strict_eq_string (meta_prop meta k_sourceType) (lit "csv") then
                match response with
                | None => (Ok None, set_session (add_alert csv_notice) app)
                | Some text =>
                    let result := parse toLowerCase text in
                    let ws := parsed_words result in
                    let n := Z.of_nat (length ws) in
                    let meta1 := if count_differs meta n
                                 then set_prop k_count (VNum n) meta else meta in
                    let meta2 :=
                      match title (metadata result) with
                      | Some t =>
                          if truthy (VStr t) && title_differs meta1 t
                          then set_prop k_title (VStr t) meta1 else meta1
                      | None => meta1
                      end in
                    let needsSave :=
                      count_differs meta n
                      || match title (metadata result) with
                         | Some t => truthy (VStr t) && title_differs meta1 t
                         | None => false
                         end in
                    let app1 := set_library (VArr (<[i := meta2]> items)) app in
                    (Ok (Some {| book_id := bookId;
                                 book_title := title_text (meta_prop meta2 k_title);
                                 words := ws |}),
                     if needsSave then LibraryManager_save app1 else app1)
                end
              else (Ok None, app)
          end
      end
  | _ => (Throw TypeError, app)
  end.

(** [openBook (bookId)] from the moment the fetch of its [loadBook] has
    settled. *)
Definition openBook (response : option jsstring) (bookId : jsstring) (app : App)
    : Res unit * App :=
  match loadBook response bookId app with
  | (Throw e, app1) => (Throw e, app1)
  | (Ok None, app1) => (Ok tt, app1)
  | (Ok (Some book), app1) =>
      let app2 := set_viewMode board
                    (set_session (set_activeBook (Some book)) app1) in
      let '(r, st) := (run updateWelcomeUI bookId; navigateTo WelcomeScreen)
                        (session app2) in
      (r, set_session (fun _ => st) app2)
  end.

End LibraryManager.

(** ** data.js *)

Definition data_defaultLibrary : list DefaultBook :=
  [ {| d_id := lit "default-sheet-1";
       d_title := [38642; 31471; 38988; 24235]%N ++ lit " (Google Sheets)";
       d_source := Csv (lit "https://docs.google.com/spreadsheets/d/e/2PACX-1vTHO-VI300eSUKXThQYR9x5siY5XPPrMGJBIGYqDaF_6jR1dverW_UIHxiU93sUjpqW8DolsHmj0Dpc/pub?output=csv") |};
    {| d_id := lit "default-sheet-2";
       d_title := [38642; 31471; 38988; 24235]%N ++ lit " 2 (Google Sheets)";
       d_source := Csv (lit "https://docs.google.com/spreadsheets/d/e/2PACX-1vR0NDpEc5xiLEi9a9vECtI__Jn7vPHDelYy68pyfrZf1NpZu3mKw-ECWDs3jTXv0JFVqUMHAgV1chGt/pub?output=csv") |} ].

(** ** Entries of the library *)

Definition is_object (v : Value) : Prop := ∃ fields, v = VObj fields.

(** What merging the defaults [ds] into the stored entries [items] comes
    to, [items'] being the library afterwards. *)
Definition merged (ds : list DefaultBook) (items items' : list Value) : Prop :=
  Forall is_object items'
  ∧ (∀ k b, items !! k = Some b →
       ∃ b', items' !! k = Some b'
         ∧ meta_prop b' k_id = meta_prop b k_id
         ∧ meta_prop b' k_title = meta_prop b k_title
         ∧ meta_prop b' k_count = meta_prop b k_count
         ∧ ((∀ d, d ∈ ds → meta_prop b k_id ≠ VStr (d_id d)) → b' = b))
  ∧ (∀ d, d ∈ ds →
       ∃ k b', items' !! k = Some b'
         ∧ meta_prop b' k_id = VStr (d_id d)
         ∧ meta_prop b' k_sourceType = VStr (sourceType_of (d_source d))
         ∧ (truthy (url_of (d_source d)) = true →
            meta_prop b' k_url = url_of (d_source d)))
  ∧ (∀ k b', (length items ≤ k)%nat → items' !! k = Some b' →
       ∃ d, d ∈ ds ∧ b' = extractMeta d
            ∧ Forall (fun b => meta_prop b k_id ≠ VStr (d_id d)) items).

(** * The endless game of the earlier app.js

    Before progress could be resumed, a game had no playlist: the cards
    seen so far were kept in [history], and every step beyond its end
    drew a fresh word from the selection. The book is open and its words
    are [words book]; [sample] is the sample behind the one call of
    [Math.random], reduced to the range of the draw as in [shuffle]. *)

Module Endless.

Record Game := { active : bool; history : list Value; currentIndex : Z }.

(** [pool.filter ((idx) => words[idx].term !== current)]. The terms of
    words are strings, on which [!==] is inequality of the texts. *)
Fixpoint filter_available (ws : list Word) (current : Value) (pool : list Value)
    : Res (list Value) :=
  match pool with
  | [] => Ok []
  | idx :: rest =>
      res_bind (get_prop (index_words ws idx) k_term) (fun t =>
      res_bind (filter_available ws current rest) (fun kept =>
      Ok (if same_value_zero t current then kept else idx :: kept)))
  end.

Definition getRandomWord (sample : nat) (book : Book) (selectedIndices : list Value)
    (g : Game) : Res Value :=
  let pool := selectedIndices in
  res_bind
    (if (0 <? length (history g))%nat && (1 <? length pool)%nat then
       res_bind (get_prop (array_get (history g) (currentIndex g)) k_term)
         (fun current => filter_available (words book) current pool)
     else Ok pool)
    (fun available =>
       let idx := default VUndefined
                    (available !! (sample mod length available)%nat) in
       Ok (index_words (words book) idx)).

(** [updateCardUI], answering the text it gives to the card. *)
Definition updateCardUI (g : Game) : Res Value :=
  get_prop (array_get (history g) (currentIndex g)) k_term.

Definition nextQuestion (sample : nat) (book : Book) (selectedIndices : list Value)
    (g : Game) : Res Value * Game :=
  if currentIndex g <? Z.of_nat (length (history g)) - 1 then
    let g1 := {| active := active g; history := history g;
                 currentIndex := currentIndex g + 1 |} in
    (updateCardUI g1, g1)
  else
    match getRandomWord sample book selectedIndices g with
    | Throw e => (Throw e, g)
    | Ok word =>
        let g1 := {| active := active g; history := history g ++ [word];
                     currentIndex := currentIndex g + 1 |} in
        (updateCardUI g1, g1)
    end.

End Endless.

(** ** The sync of an entry *)

(** The entry of a sheet after [loadBook] has brought it up to date with
    the parsed [result], and whether that has changed it ([needsSave]). *)
Definition synced_entry (result : ParseResult) (meta : Value) : Value * bool :=
  let n := Z.of_nat (length (parsed_words result)) in
  let meta1 := if count_differs meta n then set_prop k_count (VNum n) meta else meta in
  match title (metadata result) with
  | Some t =>
      if truthy (VStr t) && title_differs meta1 t
      then (set_prop k_title (VStr t) meta1, true)
      else (meta1, count_differs meta n)
  | None => (meta1, count_differs meta n)
  end.

(** * A codec that meets the laws of [JSON]

    It writes the values of the model as JSON text (numbers in decimal,
    strings with the quote and the backslash escaped, no white space) and
    reads back what it writes. *)

Module RefJSON.

Definition is_digit (c : N) : bool := ((48 <=? c) && (c <=? 57))%N.

Definition digit_cons (c : N) (u : Decimal.uint) : Decimal.uint :=
  match (c - 48)%N with
  | 0 => Decimal.D0 u
  | 1 => Decimal.D1 u
  | 2 => Decimal.D2 u
  | 3 => Decimal.D3 u
  | 4 => Decimal.D4 u
  | 5 => Decimal.D5 u
  | 6 => Decimal.D6 u
  | 7 => Decimal.D7 u
  | 8 => Decimal.D8 u
  | _ => Decimal.D9 u
  end%N.

Fixpoint uint_chars (u : Decimal.uint) : jsstring :=
  match u with
  | Decimal.Nil => []
  | Decimal.D0 u => 48%N :: uint_chars u
  | Decimal.D1 u => 49%N :: uint_chars u
  | Decimal.D2 u => 50%N :: uint_chars u
  | Decimal.D3 u => 51%N :: uint_chars u
  | Decimal.D4 u => 52%N :: uint_chars u
  | Decimal.D5 u => 53%N :: uint_chars u
  | Decimal.D6 u => 54%N :: uint_chars u
  | Decimal.D7 u => 55%N :: uint_chars u
  | Decimal.D8 u => 56%N :: uint_chars u
  | Decimal.D9 u => 57%N :: uint_chars u
  end.

(** The longest prefix of digits. *)
Fixpoint read_uint (s : jsstring) : Decimal.uint * jsstring :=
  match s with
  | [] => (Decimal.Nil, [])
  | c :: r =>
      if is_digit c then
        let '(u, rest) := read_uint r in (digit_cons c u, rest)
      else (Decimal.Nil, s)
  end.

Definition print_Z (n : Z) : jsstring :=
  if n <? 0 then 45%N :: uint_chars (N.to_uint (Z.abs_N n))
  else uint_chars (N.to_uint (Z.to_N n)).

(** The characters of a string literal after its opening quote. *)
Fixpoint escape (s : jsstring) : jsstring :=
  match s with
  | [] => [34%N]
  | c :: r =>
      if (c =? 34)%N || (c =? 92)%N
      then 92%N :: c :: escape r
      else c :: escape r
  end.

Fixpoint read_string (s : jsstring) : option (jsstring * jsstring) :=
  match s with
  | [] => None
  | c :: r =>
      if (c =? 34)%N then Some ([], r)
      else if (c =? 92)%N then
        match r with
        | [] => None
        | c' :: r' =>
            match read_string r' with
            | Some (str, rest) => Some (c' :: str, rest)
            | None => None
            end
        end
      else
        match read_string r with
        | Some (str, rest) => Some (c :: str, rest)
        | None => None
        end
  end.

Definition comma (first : bool) : jsstring := if first then [] else [44%N].

Fixpoint print (v : Value) : jsstring :=
  match v with
  | VUndefined | VNull => lit "null"
  | VBool true => lit "true"
  | VBool false => lit "false"
  | VNum n => print_Z n
  | VStr s => 34%N :: escape s
  | VArr items =>
      91%N ::
      (fix elems (first : bool) (l : list Value) : jsstring :=
         match l with
         | [] => [93%N]
         | x :: r => comma first ++ print x ++ elems false r
         end) true items
  | VObj fields =>
      123%N ::
      (fix members (first : bool) (l : list (jsstring * Value)) : jsstring :=
         match l with
         | [] => [125%N]
         | (k, x) :: r =>
             match x with
             | VUndefined => members first r
             | _ => comma first ++ 34%N :: escape k ++ 58%N :: print x
                    ++ members false r
             end
         end) true fields
  end.

Definition expect (word : jsstring) (v : Value) (s : jsstring)
    : option (Value * jsstring) :=
  if starts_with word s then Some (v, drop (length word) s) else None.

Definition read_number (negative : bool) (s : jsstring) : option (Value * jsstring) :=
  match read_uint s with
  | (Decimal.Nil, _) => None
  | (u, rest) =>
      let n := Z.of_N (N.of_uint u) in
      Some (VNum (if negative then - n else n), rest)
  end.

(** [key : value], the opening quote of the key already read. *)
Definition read_member (value : jsstring → option (Value * jsstring))
    (s : jsstring) : option ((jsstring * Value) * jsstring) :=
  match read_string s with
  | Some (k, c :: r) =>
      if (c =? 58)%N then
        match value r with
        | Some (v, rest) => Some ((k, v), rest)
        | None => None
        end
      else None
  | _ => None
  end.

Fixpoint read_value (fuel : nat) (s : jsstring) {struct fuel}
    : option (Value * jsstring) :=
  match fuel with
  | O => None
  | S fuel' =>
      match s with
      | [] => None
      | c :: r =>
          if (c =? 110)%N then expect (lit "ull") VNull r
          else if (c =? 116)%N then expect (lit "rue") (VBool true) r
          else if (c =? 102)%N then expect (lit "alse") (VBool false) r
          else if (c =? 34)%N then
            match read_string r with
            | Some (str, rest) => Some (VStr str, rest)
            | None => None
            end
          else if (c =? 91)%N then
            match read_value fuel' r with
            | Some (v, s1) =>
                match read_elems fuel' s1 with
                | Some (vs, s2) => Some (VArr (v :: vs), s2)
                | None => None
                end
            | None =>
                match r with
                | c' :: r' => if (c' =? 93)%N then Some (VArr [], r') else None
                | [] => None
                end
            end
          else if (c =? 123)%N then
            match r with
            | c' :: r' =>
                if (c' =? 125)%N then Some (VObj [], r')
                else if (c' =? 34)%N then
                  match read_member (read_value fuel') r' with
                  | Some (m, s1) =>
                      match read_members fuel' s1 with
                      | Some (ms, s2) => Some (VObj (m :: ms), s2)
                      | None => None
                      end
                  | None => None
                  end
                else None
            | [] => None
            end
          else if (c =? 45)%N then read_number true r
          else read_number false s
      end
  end
with read_elems (fuel : nat) (s : jsstring) {struct fuel}
    : option (list Value * jsstring) :=
  match fuel with
  | O => None
  | S fuel' =>
      match s with
      | c :: r =>
          if (c =? 93)%N then Some ([], r)
          else if (c =? 44)%N then
            match read_value fuel' r with
            | Some (v, s1) =>
                match read_elems fuel' s1 with
                | Some (vs, s2) => Some (v :: vs, s2)
                | None => None
                end
            | None => None
            end
          else None
      | [] => None
      end
  end
with read_members (fuel : nat) (s : jsstring) {struct fuel}
    : option (list (jsstring * Value) * jsstring) :=
  match fuel with
  | O => None
  | S fuel' =>
      match s with
      | c :: r =>
          if (c =? 125)%N then Some ([], r)
          else if (c =? 44)%N then
            match r with
            | c' :: r' =>
                if (c' =? 34)%N then
                  match read_member (read_value fuel') r' with
                  | Some (m, s1) =>
                      match read_members fuel' s1 with
                      | Some (ms, s2) => Some (m :: ms, s2)
                      | None => None
                      end
                  | None => None
                  end
                else None
            | [] => None
            end
          else None
      | [] => None
      end
  end.

Definition parse_text (s : jsstring) : option Value :=
  match read_value (length s) s with
  | Some (v, []) => Some v
  | _ => None
  end.

Definition print_elems : bool → list Value → jsstring :=
  fix elems (first : bool) (l : list Value) : jsstring :=
    match l with
    | [] => [93%N]
    | x :: r => comma first ++ print x ++ elems false r
    end.

Definition print_members : bool → list (jsstring * Value) → jsstring :=
  fix members (first : bool) (l : list (jsstring * Value)) : jsstring :=
    match l with
    | [] => [125%N]
    | (k, x) :: r =>
        match x with
        | VUndefined => members first r
        | _ => comma first ++ 34%N :: escape k ++ 58%N :: print x
               ++ members false r
        end
    end.

Definition jsonify_members : list (jsstring * Value) → list (jsstring * Value) :=
  fix members (l : list (jsstring * Value)) : list (jsstring * Value) :=
    match l with
    | [] => []
    | (k, x) :: rest =>
        match x with
        | VUndefined => members rest
        | _ => (k, jsonify x) :: members rest
        end
    end.

(** The text that follows a number does not go on with a digit. *)
Definition no_digit (rest : jsstring) : Prop :=
  match rest with
  | [] => True
  | c :: _ => is_digit c = false
  end.

(** Reading back the text of [v], whatever follows it. *)
Definition reads (v : Value) : Prop :=
  ∀ fuel rest,
    no_digit rest → (length (print v ++ rest) ≤ fuel)%nat →
    read_value fuel (print v ++ rest) = Some (json_elem v, rest).

End RefJSON.

(** * A small book *)

Module Examples.

Definition word_a : Word := {| term := lit "a"; zhuyin := lit "x" |}.
Definition word_b : Word := {| term := lit "b"; zhuyin := [] |}.
Definition word_c : Word := {| term := lit "c"; zhuyin := lit "z" |}.

Definition book : Book :=
  {| book_id := lit "b1"; book_title := lit "Book"; words := [word_a; word_b; word_c] |}.

Definition page : Dom :=
  {| screen := WelcomeScreen; totalCountEl := 0; curIndexEl := 0;
     wordDisplay := VStr (lit "..."); selectedCountEl := 0;
     startBtnDisabled := true; resumeBtnShown := false |}.

(** The book has just been opened: nothing selected, nothing stored. *)
Definition opened : State :=
  {| activeBook := Some book; selectedIndices := [];
     game := {| active := false; playlist := []; currentIndex := -1 |};
     localStorage := ∅; dom := page; alerts := [] |}.

(** The first and the last word are selected. *)
Definition selected : State := set_selectedIndices [VNum 0; VNum 2] opened.

(** A session on the three words, at the middle card. *)
Definition playing : State :=
  set_game (fun _ => {| active := true;
                        playlist := word_value <$> [word_c; word_a; word_b];
                        currentIndex := 1 |}) selected.

Definition rand0 : nat → nat := fun _ => 0%nat.

(** The book is open and its stored progress is [record]. *)
Definition stored (record : Value) : State :=
  set_localStorage (fun ls => <[getStorageKey (book_id book) := RefJSON.print record]> ls)
    opened.

(** A record whose cursor is outside its playlist. *)
Definition record_out_of_range : Value :=
  progress_record [word_value word_a; word_value word_b] 7 [VNum 0; VNum 1] 1700.

(** A record whose [originalIndices] is a number. *)
Definition fields_bad_selection : list (jsstring * Value) :=
  [(k_playlist, VArr [word_value word_a]);
   (k_currentIndex, VNum 0);
   (k_originalIndices, VNum 5);
   (k_timestamp, VNum 1700)].

Definition record_bad_selection : Value := VObj fields_bad_selection.

(** A sheet with a title row, a row of two fields, a blank line, a row
    without a first field and a row of one field. *)
Definition sheet : jsstring :=
  lit "Animals,x" ++ [13; 10]%N ++ lit " cat , mao ,c" ++ [10; 10]%N
  ++ lit ",zz" ++ [10]%N ++ lit "dog".

Definition ascii_lower : jsstring → jsstring :=
  fmap (fun c => if ((65 <=? c) && (c <=? 90))%N then (c + 32)%N else c).

End Examples.

(** * A small library *)

Module LibraryExamples.
Import Examples.

(** A local book, as data.js may hold one beside its sheets. *)
Definition builtin : DefaultBook :=
  {| d_id := lit "builtin"; d_title := lit "Built in";
     d_source := Local [word_a; word_b] |}.

(** A freshly loaded page: nothing stored, no book open. *)
Definition fresh : App :=
  {| session := set_activeBook None opened;
     library := VArr []; viewMode := board; theme := lit "light";
     dataTheme := None; themeIcon := None |}.

(** A session whose second card is [null], as a stored playlist may
    hold. *)
Definition broken : State :=
  set_game (fun _ => {| active := true;
                        playlist := [word_value word_a; VNull];
                        currentIndex := 0 |}) opened.

(** The library as an older start has stored it: the first sheet, under
    a title and a count that a sync has given it, and with a stale url. *)
Definition old_meta : Value :=
  VObj [(k_id, VStr (lit "default-sheet-1"));
        (k_title, VStr (lit "Animals"));
        (k_sourceType, VStr (lit "csv"));
        (k_url, VStr (lit "https://old.example/sheet"));
        (k_count, VNum 2)].

Definition returning : App :=
  set_session
    (set_localStorage (fun ls => <[k_library := RefJSON.print (VArr [old_meta])]> ls))
    fresh.

(** The page after its first start. *)
Definition started : App :=
  set_session
    (set_localStorage
       (fun ls => <[k_library :=
                      RefJSON.print (VArr (extractMeta <$> data_defaultLibrary))]> ls))
    (set_library (VArr (extractMeta <$> data_defaultLibrary)) fresh).

End LibraryExamples.

(** * A small endless game *)

Module EndlessExamples.
Import Examples.

(** A second word with the term of [word_a]. *)
Definition word_a' : Word := {| term := lit "a"; zhuyin := lit "y" |}.

(** A book whose sheet repeats a term. *)
Definition twins : Book :=
  {| book_id := lit "b2"; book_title := lit "Twins"; words := [word_a; word_a'] |}.

(** The endless game after its first card, [word_a]. *)
Definition first_card : Endless.Game :=
  {| Endless.active := true; Endless.history := [word_value word_a];
     Endless.currentIndex := 0 |}.

End EndlessExamples.

(** * Properties *)

(** ** The progress store *)

Lemma jsonify_array items : jsonify (VArr items) = VArr (json_elem <$> items).
Proof. reflexivity. Qed.

Lemma json_elem_word v : is_word v → json_elem v = v.
Proof. intros [w ->]. reflexivity. Qed.

Lemma json_elem_words pl : Forall is_word pl → json_elem <$> pl = pl.
Proof.
  induction 1 as [|v pl Hv _ IH]; [done|].
  rewrite fmap_cons, IH, json_elem_word; done.
Qed.

Section StoreProperties.
Context `{JSON}.

Lemma JSON_stringify_nonempty v : v ≠ VUndefined → JSON_stringify v ≠ [].
Proof.
  intros Hv Hs. pose proof (JSON_parse_stringify v Hv) as Hp.
  rewrite Hs, JSON_parse_empty in Hp. discriminate.
Qed.

(** The validation of [loadProgress] is [valid_progress]. *)
Lemma loadProgress_parsed ls bookId json data :
  ls !! getStorageKey bookId = Some json →
  JSON_parse json = Some data →
  loadProgress ls bookId = Ok (if valid_progress data then data else VNull).
Proof.
  intros Hls Hp. unfold loadProgress. rewrite Hls.
  destruct json as [|c json]; [by rewrite JSON_parse_empty in Hp|].
  cbn [truthy negb]. rewrite bool_decide_eq_false_2 by done. cbn [negb].
  rewrite Hp. cbn [res_bind].
  destruct data as [| |b|n|s|items|fields]; try reflexivity.
  cbn [get_prop res_bind valid_progress].
  destruct (field k_playlist fields) as [[| |b|n|s|items|fs]|]; cbn;
    try reflexivity; try (by destruct b); try (by destruct (n =? 0));
    try (by destruct (bool_decide (s = []))).
  destruct (field k_currentIndex fields) as [[| |b|n|s|it|fs]|]; reflexivity.
Qed.

Lemma loadProgress_saveProgress ls now bookId pl ci sel :
  loadProgress (saveProgress now bookId pl ci sel ls) bookId
  = Ok (jsonify (progress_record pl ci sel now)).
Proof.
  rewrite (loadProgress_parsed _ _
             (JSON_stringify (progress_record pl ci sel now))
             (jsonify (progress_record pl ci sel now))).
  - reflexivity.
  - unfold saveProgress. apply lookup_insert_eq.
  - by apply JSON_parse_stringify.
Qed.

Lemma loadProgress_clearProgress ls bookId :
  loadProgress (clearProgress ls bookId) bookId = Ok VNull.
Proof.
  unfold loadProgress, clearProgress. by rewrite lookup_delete_eq.
Qed.

End StoreProperties.

(** ** Navigation *)

Section NavigatorProperties.
Context `{JSON}.

Lemma nextQuestion_at_end now st :
  len st - 1 ≤ currentIndex (game st) → nextQuestion now st = (Ok tt, st).
Proof.
  intros Hle. unfold nextQuestion, bind, get, len in *.
  by rewrite (proj2 (Z.ltb_ge _ _) Hle).
Qed.

Lemma prevQuestion_at_start now st :
  currentIndex (game st) ≤ 0 → prevQuestion now st = (Ok tt, st).
Proof.
  intros Hle. unfold prevQuestion, bind, get.
  by rewrite (proj2 (Z.ltb_ge _ _) Hle).
Qed.

(** Whatever happens after the cursor has moved (the card is redrawn, the
    progress is saved, or an exception stops the call), the game keeps the
    moved cursor and its playlist. *)
Lemma move_then_save_game now i st :
  let m : M unit :=
    run modify (set_game (set_currentIndex i));
    run updateCardUI;
    do book <- the_activeBook;
    do st1 <- get;
    saveProgressM now (book_id book) (playlist (game st1))
      (currentIndex (game st1)) (selectedIndices st1) in
  game (m st).2 = set_currentIndex i (game st).
Proof.
  cbn zeta. unfold bind, modify, updateCardUI, bind, get, lift, the_activeBook,
    bind, get, ret, lift, saveProgressM, modify.
  cbn [set_game game fst snd].
  destruct (get_prop _ _); cbn; [|done].
  destruct (activeBook st); cbn; done.
Qed.

Lemma nextQuestion_game now st :
  game (nextQuestion now st).2 =
    if currentIndex (game st) <? len st - 1
    then set_currentIndex (currentIndex (game st) + 1) (game st)
    else game st.
Proof.
  unfold nextQuestion, len. unfold bind at 1. unfold get at 1.
  destruct (_ <? _); [|done]. apply move_then_save_game.
Qed.

Lemma prevQuestion_game now st :
  game (prevQuestion now st).2 =
    if 0 <? currentIndex (game st)
    then set_currentIndex (currentIndex (game st) - 1) (game st)
    else game st.
Proof.
  unfold prevQuestion. unfold bind at 1. unfold get at 1.
  destruct (_ <? _); [|done]. apply move_then_save_game.
Qed.

(** C4. [nextQuestion] never moves the cursor beyond
    [playlist.length - 1], and from the last index (or past it) it changes
    nothing, saves nothing and raises nothing; [prevQuestion] never moves
    the cursor below [0], and from [0] (or below) it changes nothing. The
    playlist is never touched by either. *)
Theorem navigation_stays_in_bounds now st :
  (currentIndex (game st) ≤ len st - 1 →
     currentIndex (game (nextQuestion now st).2) ≤ len (nextQuestion now st).2 - 1)
  ∧ (len st - 1 ≤ currentIndex (game st) → nextQuestion now st = (Ok tt, st))
  ∧ (0 ≤ currentIndex (game st) → 0 ≤ currentIndex (game (prevQuestion now st).2))
  ∧ (currentIndex (game st) ≤ 0 → prevQuestion now st = (Ok tt, st))
  ∧ playlist (game (nextQuestion now st).2) = playlist (game st)
  ∧ playlist (game (prevQuestion now st).2) = playlist (game st).
Proof.
  unfold len at 2. rewrite nextQuestion_game, prevQuestion_game.
  split_and!.
  - intros Hle. destruct (Z.ltb_spec (currentIndex (game st)) (len st - 1));
      unfold len in *; cbn; lia.
  - apply nextQuestion_at_end.
  - intros Hle. destruct (Z.ltb_spec 0 (currentIndex (game st))); cbn; lia.
  - apply prevQuestion_at_start.
  - by destruct (_ <? _).
  - by destruct (_ <? _).
Qed.

End NavigatorProperties.

(** ** The shuffle *)

Section ShuffleProperties.
Local Open Scope nat_scope.
Context {A : Type}.
Implicit Types (array l p : list A) (cs : list nat).

Lemma swap_same l i : swap l i i = l.
Proof.
  unfold swap. destruct (l !! i) as [x|] eqn:Hi; [|done].
  by rewrite list_insert_insert_eq, list_insert_id.
Qed.

Lemma swap_Permutation l i j : swap l i j ≡ₚ l.
Proof.
  unfold swap. destruct (l !! j) as [y|] eqn:Hj; [|done].
  destruct (l !! i) as [x|] eqn:Hi; [|done].
  by apply Permutation_insert_swap.
Qed.

Lemma length_swap l i j : length (swap l i j) = length l.
Proof. apply Permutation_length, swap_Permutation. Qed.

Lemma swap_lookup_l l i j : i < length l → j < length l → swap l i j !! i = l !! j.
Proof.
  intros Hi Hj. unfold swap.
  destruct (lookup_lt_is_Some_2 l j Hj) as [y Hy].
  destruct (lookup_lt_is_Some_2 l i Hi) as [x Hx]. rewrite Hy, Hx.
  destruct (decide (i = j)) as [->|Hne].
  - rewrite list_lookup_insert_eq by (by rewrite length_insert). congruence.
  - rewrite list_lookup_insert_ne by done. by rewrite list_lookup_insert_eq.
Qed.

Lemma swap_lookup_above l i j k : i < k → j < k → swap l i j !! k = l !! k.
Proof.
  intros Hi Hj. unfold swap.
  destruct (l !! j); [|done]. destruct (l !! i); [|done].
  rewrite !list_lookup_insert_ne by lia. done.
Qed.

Lemma shuffle_loop_with rand calls c array :
  shuffle_loop rand calls c array = shuffle_with (rand <$> seq calls c) c array.
Proof.
  revert calls array. induction c as [|i IH]; intros calls array; [done|].
  cbn. apply IH.
Qed.

Lemma shuffle_with_Permutation cs c array : shuffle_with cs c array ≡ₚ array.
Proof.
  revert cs array. induction c as [|i IH]; intros [|r cs] array; try done.
  cbn. by rewrite IH, swap_Permutation.
Qed.

Lemma shuffle_with_lookup_above cs c array k :
  c ≤ k → shuffle_with cs c array !! k = array !! k.
Proof.
  revert cs array. induction c as [|i IH]; intros [|r cs] array Hk; try done.
  cbn. rewrite IH by lia. apply swap_lookup_above; [lia|].
  pose proof (Nat.mod_upper_bound r (S i)). lia.
Qed.

Lemma shuffle_Permutation rand array : shuffle rand array ≡ₚ array.
Proof. unfold shuffle. rewrite shuffle_loop_with. apply shuffle_with_Permutation. Qed.

Lemma stream_seq cs : stream cs <$> seq 0 (length cs) = cs.
Proof.
  induction cs as [|r cs IH]; [done|].
  cbn [length seq fmap list_fmap]. f_equal.
  rewrite <- fmap_S_seq, <- list_fmap_compose. exact IH.
Qed.

Lemma fisher_yates_from_ext f g i array :
  (∀ k, k ≤ i → f k = g k) →
  fisher_yates_from f i array = fisher_yates_from g i array.
Proof.
  revert array. induction i as [|i IH]; intros array Hfg; [done|].
  cbn. rewrite (Hfg (S i)) by lia. apply IH. intros k Hk. apply Hfg. lia.
Qed.

(** The loop of the code runs once more than the loop of the design: its
    last turn swaps element [0] with itself. *)
Lemma shuffle_loop_fisher_yates rand calls c array :
  shuffle_loop rand calls (S c) array
  = fisher_yates_from (fun i => rand (calls + c - i) mod S i) c array.
Proof.
  revert calls array. induction c as [|c IH]; intros calls array.
  - cbn. apply swap_same.
  - change (shuffle_loop rand calls (S (S c)) array)
      with (shuffle_loop rand (S calls) (S c)
              (swap array (S c) (rand calls mod S (S c)))).
    rewrite IH. cbn [fisher_yates_from].
    replace (calls + S c - S c) with calls by lia.
    apply fisher_yates_from_ext. intros k Hk. f_equal. f_equal. lia.
Qed.

End ShuffleProperties.

Section ChoiceVectors.
Local Open Scope nat_scope.

Lemma valid_choices_length n cs : valid_choices n cs → length cs = n.
Proof.
  revert cs. induction n as [|i IH]; intros [|r cs]; cbn; try done.
  intros [_ Hcs]. f_equal. by apply IH.
Qed.

Lemma elem_of_choice_vectors n cs : cs ∈ choice_vectors n ↔ valid_choices n cs.
Proof.
  revert cs. induction n as [|i IH]; intros cs.
  - cbn [choice_vectors]. rewrite list_elem_of_singleton. by destruct cs.
  - cbn [choice_vectors]. rewrite list_elem_of_bind. split.
    + intros (r & Hcs & Hr). apply list_elem_of_fmap in Hcs as (cs' & -> & Hcs').
      apply elem_of_seq in Hr. cbn. split; [lia|]. by apply IH.
    + destruct cs as [|r cs']; [done|]. intros [Hr Hcs']. exists r. split.
      * apply list_elem_of_fmap. exists cs'. split; [done|]. by apply IH.
      * apply elem_of_seq. lia.
Qed.

Lemma length_bind_const {B C} (f : B → list C) (l : list B) m :
  (∀ x, length (f x) = m) → length (l ≫= f) = length l * m.
Proof.
  intros Hf. induction l as [|x l IH]; [done|].
  change ((x :: l) ≫= f) with (f x ++ (l ≫= f)).
  rewrite length_app, Hf, IH. cbn. lia.
Qed.

Lemma length_choice_vectors n : length (choice_vectors n) = fact n.
Proof.
  induction n as [|i IH]; [done|].
  cbn [choice_vectors].
  rewrite (length_bind_const _ _ (fact i)).
  - rewrite length_seq. reflexivity.
  - intros r. by rewrite length_fmap.
Qed.

Lemma NoDup_choice_vectors n : NoDup (choice_vectors n).
Proof.
  induction n as [|i IH]; [apply NoDup_singleton|].
  cbn [choice_vectors]. apply NoDup_bind.
  - intros r1 r2 cs _ _ H1 H2.
    apply list_elem_of_fmap in H1 as (c1 & -> & _).
    apply list_elem_of_fmap in H2 as (c2 & [= -> _] & _). done.
  - intros r _. apply NoDup_fmap; [|done]. by intros c1 c2 [= ->].
  - apply NoDup_seq.
Qed.

End ChoiceVectors.

Section ShuffleUniform.
Local Open Scope nat_scope.
Context {A : Type}.
Implicit Types (array l p target : list A) (cs : list nat).

Lemma shuffle_with_cons r cs i array :
  shuffle_with (r :: cs) (S i) array = shuffle_with cs i (swap array i (r mod S i)).
Proof. reflexivity. Qed.

(** Every arrangement of the first [c] elements is reached by some choice
    vector. *)
Lemma shuffle_with_reaches c array target :
  c ≤ length array →
  take c target ≡ₚ take c array →
  drop c target = drop c array →
  ∃ cs, valid_choices c cs ∧ shuffle_with cs c array = target.
Proof.
  revert array. induction c as [|i IH]; intros array Hc Htake Hdrop.
  { exists []. split; [done|]. by rewrite !drop_0 in Hdrop. }
  assert (Hlen : length (take (S i) target) = S i).
  { rewrite Htake. by apply length_take_le. }
  assert (Hi : i < length target).
  { rewrite length_take in Hlen. lia. }
  destruct (lookup_lt_is_Some_2 target i Hi) as [x Hx].
  destruct (lookup_lt_is_Some_2 array i) as [y Hy]; [lia|].
  assert (Hin : x ∈ take (S i) array).
  { rewrite <- Htake. apply list_elem_of_lookup. exists i.
    by rewrite lookup_take_lt by lia. }
  apply list_elem_of_lookup in Hin as [j Hj].
  apply lookup_take_Some in Hj as [Hj Hji].
  assert (Hsw : swap array i j = <[j:=y]> (<[i:=x]> array)).
  { unfold swap. by rewrite Hj, Hy. }
  assert (Hxi : swap array i j !! i = Some x).
  { rewrite swap_lookup_l; [done|lia|]. by eapply lookup_lt_Some. }
  destruct (IH (swap array i j)) as (cs & Hcs & Hres).
  - rewrite length_swap. lia.
  - apply (Permutation_app_inv_r [x]).
    rewrite <- (take_S_r target i x Hx), <- (take_S_r _ i x Hxi), Htake.
    rewrite Hsw, !take_insert_lt by lia.
    symmetry. apply Permutation_insert_swap.
    + by rewrite lookup_take_lt by lia.
    + by rewrite lookup_take_lt by lia.
  - rewrite (drop_S target x i Hx), (drop_S _ x i Hxi), Hdrop. f_equal.
    rewrite Hsw, !drop_insert_lt by lia. done.
  - exists (j :: cs). split; [by split|].
    rewrite shuffle_with_cons, Nat.mod_small by done. done.
Qed.

(** On an array without duplicates, the result determines the choices. *)
Lemma shuffle_with_inj c array cs cs' :
  NoDup array → c ≤ length array →
  valid_choices c cs → valid_choices c cs' →
  shuffle_with cs c array = shuffle_with cs' c array → cs = cs'.
Proof.
  revert array cs cs'. induction c as [|i IH];
    intros array [|r cs] [|r' cs'] Hnd Hc; try done.
  intros [Hr Hcs] [Hr' Hcs']. rewrite !shuffle_with_cons.
  rewrite !Nat.mod_small by done. intros Heq.
  assert (r = r') as <-.
  { pose proof (f_equal (.!! i) Heq) as Hi. cbn in Hi.
    rewrite !shuffle_with_lookup_above, !swap_lookup_l in Hi by lia.
    destruct (lookup_lt_is_Some_2 array r) as [x Hx]; [lia|].
    rewrite Hx in Hi. by apply (NoDup_lookup array r r' x). }
  f_equal. apply (IH (swap array i r)); try done.
  - by rewrite swap_Permutation.
  - rewrite length_swap. lia.
Qed.

Lemma shuffle_stream cs array :
  length cs = length array → shuffle (stream cs) array = shuffle_with cs (length array) array.
Proof.
  intros Hlen. unfold shuffle. rewrite shuffle_loop_with, <- Hlen, stream_seq. done.
Qed.

End ShuffleUniform.

Section ShuffleNatural.
Local Open Scope nat_scope.
Context {A B : Type} (f : A → B).

Lemma swap_fmap (l : list A) i j : swap (f <$> l) i j = f <$> swap l i j.
Proof.
  unfold swap. rewrite !list_lookup_fmap.
  destruct (l !! j); [|done]. destruct (l !! i); [|done].
  cbn. by rewrite !list_fmap_insert.
Qed.

Lemma shuffle_loop_fmap rand calls c (l : list A) :
  shuffle_loop rand calls c (f <$> l) = f <$> shuffle_loop rand calls c l.
Proof.
  revert calls l. induction c as [|i IH]; intros calls l; [done|].
  cbn [shuffle_loop]. cbv zeta. by rewrite swap_fmap, IH.
Qed.

Lemma shuffle_fmap rand (l : list A) : shuffle rand (f <$> l) = f <$> shuffle rand l.
Proof. unfold shuffle. rewrite length_fmap. apply shuffle_loop_fmap. Qed.

End ShuffleNatural.

Lemma filter_none {A} (P : A → Prop) `{!∀ x, Decision (P x)} (l : list A) :
  (∀ y, y ∈ l → ¬ P y) → filter P l = [].
Proof.
  induction l as [|a l IH]; intros Hl; [done|].
  rewrite filter_cons_False by (apply Hl; left).
  apply IH. intros y Hy. apply Hl. by right.
Qed.

(** In a list without duplicates, a property that one element alone has
    selects that element. *)
Lemma filter_unique {A} (P : A → Prop) `{!∀ x, Decision (P x)} (l : list A) x :
  NoDup l → x ∈ l → P x → (∀ y, y ∈ l → P y → y = x) → filter P l = [x].
Proof.
  induction l as [|a l IH]; intros Hnd Hx HP Huniq; [by apply elem_of_nil in Hx|].
  apply NoDup_cons in Hnd as [Ha Hnd].
  destruct (decide (P a)) as [HPa|HPa].
  - assert (a = x) as -> by (apply Huniq; [left|done]).
    rewrite filter_cons_True by done. f_equal.
    apply filter_none. intros y Hy HPy.
    assert (y = x) as -> by (apply Huniq; [by right|done]). done.
  - rewrite filter_cons_False by done.
    apply elem_of_cons in Hx as [->|Hx]; [done|].
    apply IH; try done. intros y Hy. apply Huniq. by right.
Qed.

Lemma fmap_lookup_seq {A} (l : list A) : (l !!.) <$> seq 0 (length l) = Some <$> l.
Proof.
  induction l as [|x l IH]; [done|].
  cbn [length seq fmap list_fmap]. f_equal.
  rewrite <- fmap_S_seq, <- list_fmap_compose. exact IH.
Qed.

(** Every rearrangement of the positions is the outcome of exactly one
    choice vector. *)
Lemma shuffle_choice_unique n p :
  p ≡ₚ seq 0 n →
  exists! cs, cs ∈ choice_vectors n ∧ shuffle (stream cs) (seq 0 n) = p.
Proof.
  intros Hp.
  assert (Hlen : length (seq 0 n) = n) by apply length_seq.
  destruct (shuffle_with_reaches n (seq 0 n) p) as (cs & Hcs & Hres).
  - by rewrite Hlen.
  - rewrite !take_ge; [done| |]; rewrite ?Hp, Hlen; done.
  - rewrite !drop_ge; [done| |]; rewrite ?Hp, Hlen; done.
  - exists cs. split.
    + split; [by apply elem_of_choice_vectors|].
      rewrite shuffle_stream, Hlen; [done|].
      rewrite Hlen. by apply valid_choices_length.
    + intros cs' [Hcs' Hres']. apply elem_of_choice_vectors in Hcs'.
      rewrite shuffle_stream, Hlen in Hres'
        by (rewrite Hlen; by apply valid_choices_length).
      apply (shuffle_with_inj n (seq 0 n)); try done.
      * apply NoDup_seq.
      * by rewrite Hlen.
      * congruence.
Qed.

(** C3. [shuffle] is the Fisher-Yates shuffle: it is the loop that, for [i]
    from [length - 1] down to [1], swaps element [i] with the element at an
    index of [0 .. i], the index being the next sample of the random source
    scaled to that range. The output holds at each position the input
    element named by the same shuffle of the positions [0 .. n - 1], and
    the [n!] vectors of choices correspond one to one to the [n!]
    rearrangements of the positions: every permutation is the outcome of
    exactly one vector out of [n!], so uniform independent choices give
    every permutation the probability [1 / n!]. *)
Theorem shuffle_fisher_yates_uniform {A} (rand : nat → nat) (array : list A) :
  let n := length array in
  let choice := fun i => (rand (n - 1 - i) mod S i)%nat in
  shuffle rand array = fisher_yates choice array
  ∧ (∀ i, (choice i ≤ i)%nat)
  ∧ Some <$> shuffle rand array = (array !!.) <$> shuffle rand (seq 0 n)
  ∧ shuffle rand (seq 0 n) ≡ₚ seq 0 n
  ∧ length (choice_vectors n) = fact n
  ∧ NoDup (choice_vectors n)
  ∧ (∀ p, p ≡ₚ seq 0 n →
      exists! cs, cs ∈ choice_vectors n ∧ shuffle (stream cs) (seq 0 n) = p)
  ∧ (∀ p, p ≡ₚ seq 0 n →
      length (filter (fun cs => shuffle (stream cs) (seq 0 n) = p)
                (choice_vectors n)) = 1%nat).
Proof.
  intros n choice. split_and!.
  - unfold shuffle, fisher_yates, choice, n. destruct array as [|x l]; [done|].
    cbn [length]. rewrite shuffle_loop_fisher_yates.
    replace (S (length l) - 1)%nat with (length l) by lia.
    apply fisher_yates_from_ext. intros k _. repeat f_equal; lia.
  - intros i. unfold choice.
    pose proof (Nat.mod_upper_bound (rand (n - 1 - i)%nat) (S i)). lia.
  - unfold n. by rewrite <- (shuffle_fmap (array !!.)), fmap_lookup_seq, shuffle_fmap.
  - apply shuffle_Permutation.
  - apply length_choice_vectors.
  - apply NoDup_choice_vectors.
  - apply shuffle_choice_unique.
  - intros p Hp. destruct (shuffle_choice_unique n p Hp) as (cs & [Hcs Hres] & Hone).
    rewrite (filter_unique _ _ cs); [done|apply NoDup_choice_vectors|done|done|].
    intros cs' Hcs' Hres'. symmetry. by apply Hone.
Qed.

(** With three elements, the arrangement [2; 0; 1] of the positions is the
    outcome of exactly one of the six choice vectors. *)
Lemma shuffle_fisher_yates_uniform_witness :
  length (filter (fun cs => shuffle (stream cs) (seq 0 3) = [2; 0; 1]%nat)
            (choice_vectors 3)) = 1%nat.
Proof.
  apply (proj2 (proj2 (proj2 (proj2 (proj2 (proj2 (proj2
           (shuffle_fisher_yates_uniform (fun _ => 0%nat) [VNull; VNull; VNull])))))))
           [2; 0; 1]%nat).
  change (seq 0 3) with [0; 1; 2]%nat.
  etrans; [apply Permutation_swap|]. apply Permutation_skip, Permutation_swap.
Defined.

(** ** Starting, resuming and leaving a game *)

Arguments shuffle : simpl never.
Arguments index_words : simpl never.
Arguments saveProgress : simpl never.
Arguments clearProgress : simpl never.
Arguments loadProgress : simpl never.
Arguments updateCardUI : simpl never.
Arguments startGame_ui : simpl never.
Arguments add_alert : simpl never.
Arguments alert : simpl never.
Arguments startGame_new : simpl never.
Arguments progress_record : simpl never.
Arguments get_prop : simpl never.

Lemma same_but_dom_refl st : same_but_dom st st.
Proof. by destruct st. Qed.

Lemma same_but_dom_set_dom f st st' : same_but_dom (set_dom f st) st' → same_but_dom st st'.
Proof. unfold same_but_dom. intros ->. by destruct st. Qed.

Lemma updateCardUI_dom st : same_but_dom st (updateCardUI st).2.
Proof.
  unfold updateCardUI, bind, get, lift, modify.
  destruct (get_prop _ _); cbn; by destruct st.
Qed.

(** [updateCardUI] completes when the card under the cursor is a word. *)
Lemma updateCardUI_word st w :
  array_get (playlist (game st)) (currentIndex (game st)) = word_value w →
  (updateCardUI st).1 = Ok tt.
Proof.
  intros Hw. unfold updateCardUI, bind, get, lift, modify. by rewrite Hw.
Qed.

Lemma array_get_word pl i :
  Forall is_word pl → 0 ≤ i < Z.of_nat (length pl) → is_word (array_get pl i).
Proof.
  intros Hpl Hi. unfold array_get. rewrite (proj2 (Z.leb_le 0 i)) by lia.
  destruct (lookup_lt_is_Some_2 pl (Z.to_nat i)) as [v Hv]; [lia|].
  rewrite Hv. cbn. by eapply Forall_lookup_1.
Qed.

Section SessionProperties.
Context `{JSON}.

Lemma startGame_ui_unfold st :
  startGame_ui st
  = updateCardUI
      (set_dom (set_screen GameScreen)
         (set_dom (set_totalCountEl (Z.of_nat (length (playlist (game st))))) st)).
Proof. reflexivity. Qed.

Lemma startGame_ui_dom st : same_but_dom st (startGame_ui st).2.
Proof.
  rewrite startGame_ui_unfold.
  eapply same_but_dom_set_dom, same_but_dom_set_dom, updateCardUI_dom.
Qed.

Lemma startGame_new_empty rand now st :
  selectedIndices st = [] →
  startGame_new rand now st = (Ok tt, set_game (set_active true) st).
Proof.
  intros Hsel. unfold startGame_new, bind, modify, get. cbn. by rewrite Hsel.
Qed.

Lemma startGame_new_nonempty rand now st book :
  activeBook st = Some book → selectedIndices st ≠ [] →
  ∃ d, startGame_new rand now st
       = startGame_ui (new_game_state rand now book st d).
Proof.
  intros Hbook Hsel. exists (dom st).
  assert ((length (selectedIndices st) =? 0)%nat = false) as Hlen
    by (by destruct (selectedIndices st)).
  unfold startGame_new, bind, modify, get, the_activeBook, bind, get, ret,
    saveProgressM, modify. cbn.
  rewrite Hlen. cbn. rewrite Hbook. reflexivity.
Qed.

End SessionProperties.

Section NewGame.
Context `{JSON}.

Lemma new_game_state_dom rand now book st d d' :
  set_dom (fun _ => d') (new_game_state rand now book st d)
  = new_game_state rand now book st d'.
Proof. reflexivity. Qed.

(** A new game over a selection that names words of the book completes. *)
Lemma startGame_new_words rand now st book :
  activeBook st = Some book → selectedIndices st ≠ [] →
  Forall is_word (index_words (words book) <$> selectedIndices st) →
  ∃ d, startGame_new rand now st = (Ok tt, new_game_state rand now book st d).
Proof.
  intros Hbook Hsel Hwords.
  destruct (startGame_new_nonempty rand now st book Hbook Hsel) as [d0 Hrun].
  set (st0 := new_game_state rand now book st d0) in *.
  exists (dom (startGame_ui st0).2). rewrite Hrun.
  rewrite <- (new_game_state_dom rand now book st d0). fold st0.
  pose proof (startGame_ui_dom st0) as Hdom. unfold same_but_dom in Hdom.
  rewrite <- Hdom. apply injective_projections; [|done]. cbn [fst].
  rewrite startGame_ui_unfold.
  assert (Hpl : Forall is_word (playlist (game st0))).
  { cbn. by rewrite shuffle_Permutation. }
  assert (Hlen : 0 ≤ 0 < Z.of_nat (length (playlist (game st0)))).
  { cbn. rewrite shuffle_Permutation, length_fmap.
    destruct (selectedIndices st); [done|]. cbn. lia. }
  destruct (array_get_word _ 0 Hpl Hlen) as [w Hw].
  by apply (updateCardUI_word _ w).
Qed.

Lemma index_words_in_range (ws : list Word) (idxs : list Z) (sel : list Word) :
  Forall2 (fun i w => 0 ≤ i ∧ ws !! Z.to_nat i = Some w) idxs sel →
  index_words ws <$> (VNum <$> idxs) = word_value <$> sel.
Proof.
  induction 1 as [|i w idxs sel [Hi Hw] _ IH]; [done|].
  rewrite !fmap_cons, IH. f_equal.
  unfold index_words. rewrite (proj2 (Z.leb_le 0 i) Hi), Hw. done.
Qed.

Lemma Forall_is_word_values (sel : list Word) : Forall is_word (word_value <$> sel).
Proof. apply Forall_fmap, Forall_forall. intros w _. by exists w. Qed.

(** C10. [startGame (false)] with an empty selection returns at its guard:
    the stored progress, the playlist and the cursor are as before, and
    nothing else changes either, except that [game.active] is [true]
    afterwards, whatever it was. *)
Theorem startGame_new_empty_selection rand now st :
  selectedIndices st = [] →
  let st' := (startGame rand now false st).2 in
  (startGame rand now false st).1 = Ok tt
  ∧ localStorage st' = localStorage st
  ∧ playlist (game st') = playlist (game st)
  ∧ currentIndex (game st') = currentIndex (game st)
  ∧ active (game st') = true
  ∧ st' = set_game (set_active true) st.
Proof.
  intros Hsel. cbn [startGame]. rewrite startGame_new_empty by done. done.
Qed.

(** C2. For a non-empty selection of distinct indices into the word list
    of the active book, [startGame (false)] completes with a playlist that
    is a permutation of the selected words, as long as the selection, and
    with the cursor at [0]. *)
Theorem startGame_new_playlist rand now st book (idxs : list Z) (sel : list Word) :
  activeBook st = Some book →
  selectedIndices st = VNum <$> idxs →
  idxs ≠ [] →
  NoDup idxs →
  Forall2 (fun i w => 0 ≤ i ∧ words book !! Z.to_nat i = Some w) idxs sel →
  let st' := (startGame rand now false st).2 in
  (startGame rand now false st).1 = Ok tt
  ∧ playlist (game st') ≡ₚ word_value <$> sel
  ∧ length (playlist (game st')) = length idxs
  ∧ currentIndex (game st') = 0.
Proof.
  intros Hbook Hsel Hne _ Hidx. cbn [startGame].
  pose proof (index_words_in_range _ _ _ Hidx) as Hpool.
  destruct (startGame_new_words rand now st book) as [d ->]; [done| | |].
  - rewrite Hsel. by destruct idxs.
  - rewrite Hsel, Hpool. apply Forall_is_word_values.
  - cbn. rewrite Hsel, Hpool, shuffle_Permutation. split_and!; try done.
    rewrite length_fmap. symmetry. by eapply Forall2_length.
Qed.

End NewGame.

Section Resume.
Context `{JSON}.

(** What [loadProgress] returns, case by case. *)
Lemma loadProgress_cases ls bookId :
  loadProgress ls bookId
  = Ok (match ls !! getStorageKey bookId with
        | Some json =>
            match JSON_parse json with
            | Some data => if valid_progress data then data else VNull
            | None => VNull
            end
        | None => VNull
        end).
Proof.
  destruct (ls !! getStorageKey bookId) as [json|] eqn:Hls.
  - destruct (JSON_parse json) as [data|] eqn:Hp.
    + by apply (loadProgress_parsed _ _ json).
    + unfold loadProgress. rewrite Hls, Hp. by destruct (negb _).
  - unfold loadProgress. by rewrite Hls.
Qed.

Lemma valid_progress_fields data :
  valid_progress data = true →
  ∃ fields pl n, data = VObj fields
    ∧ field k_playlist fields = Some (VArr pl)
    ∧ field k_currentIndex fields = Some (VNum n).
Proof.
  destruct data as [| | | | | |fields]; try done. cbn.
  destruct (field k_playlist fields) as [[| | | | |pl|]|] eqn:Hpl; try done.
  destruct (field k_currentIndex fields) as [[| | |n| | |]|] eqn:Hci; try done.
  intros _. by exists fields, pl, n.
Qed.

Lemma startGame_resume_record rand now st book fields pl n :
  activeBook st = Some book →
  loadProgress (localStorage st) (book_id book) = Ok (VObj fields) →
  field k_playlist fields = Some (VArr pl) →
  field k_currentIndex fields = Some (VNum n) →
  startGame rand now true st
  = match new_Set (default VUndefined (field k_originalIndices fields)) with
    | Ok sel => startGame_ui (resumed_state st pl n sel (dom st))
    | Throw e => (Throw e, resumed_state st pl n (selectedIndices st) (dom st))
    end.
Proof.
  intros Hbook Hload Hpl Hci.
  unfold startGame, bind, modify, get, the_activeBook, bind, get, ret, lift. cbn.
  rewrite Hbook. cbn. rewrite Hload. cbn. unfold get_prop. cbn.
  rewrite Hpl, Hci. cbn.
  destruct (new_Set _); reflexivity.
Qed.

Lemma startGame_resume_absent rand now st book :
  activeBook st = Some book →
  loadProgress (localStorage st) (book_id book) = Ok VNull →
  startGame rand now true st
  = startGame rand now false (alert resume_notice (set_game (set_active true) st)).2.
Proof.
  intros Hbook Hload.
  unfold startGame, bind, modify, get, the_activeBook, bind, get, ret, lift.
  cbn. rewrite Hbook. cbn. rewrite Hload. reflexivity.
Qed.

(** C7. [loadProgress] never raises. It returns the parsed record exactly
    when a payload is stored under the book's key, the payload parses as
    JSON, its [playlist] is an array and its [currentIndex] is a number; it
    returns [null] for a missing key, for a payload that does not parse and
    for a record that fails one of the two tests. *)
Theorem loadProgress_validates ls bookId :
  loadProgress ls bookId
  = Ok (match ls !! getStorageKey bookId with
        | Some json =>
            match JSON_parse json with
            | Some data => if valid_progress data then data else VNull
            | None => VNull
            end
        | None => VNull
        end)
  ∧ ∀ data, data ≠ VNull →
      (loadProgress ls bookId = Ok data
       ↔ ∃ json, ls !! getStorageKey bookId = Some json
           ∧ JSON_parse json = Some data
           ∧ valid_progress data = true).
Proof.
  split; [apply loadProgress_cases|].
  intros data Hdata. rewrite loadProgress_cases. split.
  - intros [= Heq]. destruct (ls !! _) as [json|]; [|done].
    exists json. split; [done|].
    destruct (JSON_parse json) as [data'|]; [|done].
    destruct (valid_progress data') eqn:Hv; [|done]. by subst.
  - intros (json & -> & -> & ->). done.
Qed.

End Resume.

(** ** The swipe handlers *)



(** ** The CSV parser *)

Section ParseProperties.
Variable toLowerCase : jsstring → jsstring.

Lemma forEach_rows_later lines k data meta :
  forEach_rows toLowerCase lines (S k) (data, meta)
  = (data ++ omap row_word lines, meta).
Proof.
  revert k data. induction lines as [|line rest IH]; intros k data.
  - cbn. by rewrite app_nil_r.
  - cbn [forEach_rows omap list_omap]. unfold parse_row at 1. cbn [Nat.eqb fst snd].
    unfold row_word at 1, first_field, second_field.
    destruct (bool_decide _); rewrite IH; [done|].
    by rewrite <- app_assoc.
Qed.

(** C8, as the code has it. The rows of [parse] are the lines of the text
    that are not blank.
    The first of them is never a word: its first field becomes the title,
    unless that field is empty or is a header (in lower case it is [term]
    or [word], or it contains the two characters of the Chinese word for
    "topic" or [content]). Every later row gives one word, made of its
    first two fields, trimmed: a row without a second field has an empty
    [zhuyin], and a row whose first field is empty is skipped. *)
Theorem parse_rows csvText :
  let rows := filter (fun line => trim line ≠ []) (split_lines csvText) in
  parsed_words (parse toLowerCase csvText) = omap row_word (tail rows)
  ∧ title (metadata (parse toLowerCase csvText))
    = match rows with
      | [] => None
      | row :: _ =>
          if bool_decide (first_field row = []) then None
          else if not_header toLowerCase (first_field row)
               then Some (first_field row) else None
      end
  ∧ (∀ t, not_header toLowerCase t = false ↔
          toLowerCase t = lit "term" ∨ toLowerCase t = lit "word"
          ∨ includes (toLowerCase t) [38988; 30446]%N = true
          ∨ includes (toLowerCase t) (lit "content") = true)
  ∧ (∀ line, split_commas line !! 1%nat = None →
       row_word line = None ∨
       row_word line = Some {| term := first_field line; zhuyin := [] |}).
Proof.
  intros rows. unfold parse. fold rows. split_and!.
  - destruct rows as [|row rest]; [done|].
    cbn [forEach_rows tail]. unfold parse_row. cbn [Nat.eqb fst snd].
    fold (first_field row).
    destruct (bool_decide (first_field row = [])); [|destruct (not_header _ _)];
      by rewrite forEach_rows_later.
  - destruct rows as [|row rest]; [done|].
    cbn [forEach_rows]. unfold parse_row. cbn [Nat.eqb fst snd].
    fold (first_field row).
    destruct (bool_decide (first_field row = [])); [|destruct (not_header _ _)];
      by rewrite forEach_rows_later.
  - intros t. unfold not_header. cbv zeta.
    rewrite !andb_false_iff, !negb_false_iff, !bool_decide_eq_true. tauto.
  - intros line Hnone. unfold row_word, second_field. rewrite Hnone.
    destruct (bool_decide _); auto.
Qed.

End ParseProperties.

(** ** Resuming *)

Section ResumeProperties.
Context `{JSON}.

(** Resuming from a record whose [originalIndices] can be iterated installs
    the playlist, the cursor and the selection of the record. *)
Lemma startGame_resume_restores rand now st book fields pl n sel :
  activeBook st = Some book →
  loadProgress (localStorage st) (book_id book) = Ok (VObj fields) →
  field k_playlist fields = Some (VArr pl) →
  field k_currentIndex fields = Some (VNum n) →
  new_Set (default VUndefined (field k_originalIndices fields)) = Ok sel →
  let st' := (startGame rand now true st).2 in
  playlist (game st') = pl
  ∧ currentIndex (game st') = n
  ∧ selectedIndices st' = sel
  ∧ active (game st') = true
  ∧ localStorage st' = localStorage st.
Proof.
  intros Hbook Hload Hpl Hci Hsel.
  rewrite (startGame_resume_record rand now st book fields pl n) by done.
  rewrite Hsel. cbv zeta.
  pose proof (startGame_ui_dom (resumed_state st pl n sel (dom st))) as Hdom.
  unfold same_but_dom in Hdom. by rewrite Hdom.
Qed.

(** Resuming without a stored record that passes validation shows the
    notice and then behaves as [startGame (false)]. *)
Lemma startGame_resume_falls_back rand now st book :
  activeBook st = Some book →
  loadProgress (localStorage st) (book_id book) = Ok VNull →
  startGame rand now true st
  = startGame rand now false (add_alert resume_notice (set_game (set_active true) st)).
Proof. apply startGame_resume_absent. Qed.

(** C6. A record that passes the validation of [loadProgress] but whose
    [originalIndices] cannot be iterated (a number, a boolean, an object)
    is loaded as valid progress; resuming from it raises [TypeError] after
    the playlist and the cursor have been installed: the selection is not
    restored, no notice is shown, no fresh game is started and the page is
    not changed. *)
Theorem startGame_resume_unchecked_selection rand now st book json fields pl n oi :
  activeBook st = Some book →
  localStorage st !! getStorageKey (book_id book) = Some json →
  JSON_parse json = Some (VObj fields) →
  field k_playlist fields = Some (VArr pl) →
  field k_currentIndex fields = Some (VNum n) →
  field k_originalIndices fields = Some oi →
  new_Set oi = Throw TypeError →
  loadProgress (localStorage st) (book_id book) = Ok (VObj fields)
  ∧ startGame rand now true st
    = (Throw TypeError, resumed_state st pl n (selectedIndices st) (dom st)).
Proof.
  intros Hbook Hls Hparse Hpl Hci Hoi Hset.
  assert (Hload : loadProgress (localStorage st) (book_id book) = Ok (VObj fields)).
  { rewrite (loadProgress_parsed _ _ json (VObj fields)) by done.
    cbn. by rewrite Hpl, Hci. }
  split; [done|].
  rewrite (startGame_resume_record rand now st book fields pl n) by done.
  by rewrite Hoi; cbn; rewrite Hset.
Qed.

(** C9. [loadProgress] does not compare the stored cursor with the stored
    playlist: a record whose [currentIndex] is a number outside
    [0 .. playlist.length - 1] is returned as valid progress, and a resume
    installs its playlist and its cursor as they are, so that
    [0 <= cursor < playlist.length] does not hold in the resumed session. *)
Theorem resume_installs_unchecked_cursor rand now st book json pl n sel t :
  activeBook st = Some book →
  localStorage st !! getStorageKey (book_id book) = Some json →
  JSON_parse json = Some (progress_record pl n sel t) →
  ¬ (0 ≤ n < Z.of_nat (length pl)) →
  let st' := (startGame rand now true st).2 in
  loadProgress (localStorage st) (book_id book) = Ok (progress_record pl n sel t)
  ∧ active (game st') = true
  ∧ playlist (game st') = pl
  ∧ currentIndex (game st') = n
  ∧ ¬ (0 ≤ currentIndex (game st') < len st').
Proof.
  intros Hbook Hls Hparse Hrange.
  assert (Hload : loadProgress (localStorage st) (book_id book)
                  = Ok (progress_record pl n sel t)).
  { by rewrite (loadProgress_parsed _ _ json (progress_record pl n sel t)). }
  destruct (startGame_resume_restores rand now st book _ pl n
              (foldl set_add [] sel) Hbook Hload) as (Hpl & Hci & _ & Hact & _);
    try done.
  cbv zeta. unfold len. rewrite Hpl, Hci. done.
Qed.

End ResumeProperties.

(** ** Stored progress and the game in memory *)

Lemma jsonify_progress_record pl ci sel now :
  jsonify (progress_record pl ci sel now)
  = progress_record (json_elem <$> pl) ci (json_elem <$> sel) now.
Proof. reflexivity. Qed.

Lemma get_prop_record_playlist pl ci sel now :
  get_prop (progress_record pl ci sel now) k_playlist = Ok (VArr pl).
Proof. reflexivity. Qed.

Lemma get_prop_record_currentIndex pl ci sel now :
  get_prop (progress_record pl ci sel now) k_currentIndex = Ok (VNum ci).
Proof. reflexivity. Qed.

Lemma get_prop_record_originalIndices pl ci sel now :
  get_prop (progress_record pl ci sel now) k_originalIndices = Ok (VArr sel).
Proof. reflexivity. Qed.

Lemma truthy_progress_record pl ci sel now :
  truthy (progress_record pl ci sel now) = true.
Proof. reflexivity. Qed.

Section SyncProperties.
Context `{JSON}.

Lemma in_sync_saved st book now sel ls :
  activeBook st = Some book →
  Forall is_word (playlist (game st)) →
  localStorage st
  = saveProgress now (book_id book) (playlist (game st)) (currentIndex (game st)) sel ls →
  in_sync st.
Proof.
  intros Hbook Hpl Hls. exists book, (jsonify (progress_record
    (playlist (game st)) (currentIndex (game st)) sel now)).
  rewrite jsonify_progress_record, json_elem_words by done.
  split_and!; [done| |done|done].
  rewrite Hls, loadProgress_saveProgress, jsonify_progress_record.
  by rewrite json_elem_words.
Qed.

Lemma exitGame_open_book now st book :
  activeBook st = Some book → exitGame now st = (Ok tt, exited_state now book st).
Proof.
  intros Hbook.
  unfold exitGame, bind, modify, get, saveProgressM, modify, updateWelcomeUI,
    bind, get, lift, ret, navigateTo, modify. cbn.
  rewrite Hbook. cbn. rewrite loadProgress_saveProgress, jsonify_progress_record.
  rewrite truthy_progress_record, get_prop_record_originalIndices. cbn.
  unfold renderTopicList, the_activeBook, bind, get, ret, modify. cbn.
  rewrite Hbook. reflexivity.
Qed.

End SyncProperties.

Section SyncAfterOperations.
Context `{JSON}.

Lemma move_then_save_word now i st book :
  activeBook st = Some book →
  is_word (array_get (playlist (game st)) i) →
  (run modify (set_game (set_currentIndex i));
   run updateCardUI;
   do book <- the_activeBook;
   do st1 <- get;
   saveProgressM now (book_id book) (playlist (game st1))
     (currentIndex (game st1)) (selectedIndices st1)) st
  = (Ok tt, moved_state now book st i).
Proof.
  intros Hbook [w Hw]. destruct st as [ab sel g ls d al]. cbn in Hbook, Hw. subst ab.
  unfold bind, modify, updateCardUI, bind, get, lift, modify, the_activeBook,
    bind, get, ret, saveProgressM, modify, moved_state. cbn.
  rewrite Hw. change (get_prop (word_value w) k_term) with (Ok (VStr (term w))).
  reflexivity.
Qed.

Lemma in_sync_moved now book st i :
  activeBook st = Some book → Forall is_word (playlist (game st)) →
  in_sync (moved_state now book st i).
Proof.
  intros Hbook Hpl.
  by apply (in_sync_saved _ book now (selectedIndices st) (localStorage st)).
Qed.

Lemma in_sync_set_active b st : in_sync st → in_sync (set_game (set_active b) st).
Proof. intros (book & data & Hbook & Hload & Hci & Hpl). by exists book, data. Qed.

(** C1. The stored progress of the open book agrees with the game in
    memory, cursor and playlist, after each of the four operations.
    [startGame (false)], on a selection of indices into the book: with a
    non-empty selection it builds an active session (a playlist of words,
    the cursor inside it) and stores it, whatever the state before; with
    an empty selection it stops at its guard and keeps the agreement it
    finds. In an active session, [exitGame] stores the session; a
    [nextQuestion] or [prevQuestion] that moves the cursor stores the
    move; and at the last and at the first card the two change and save
    nothing, so that there too the store agrees after the call if it did
    before. The agreement is thus established by every start and every
    exit and kept by every advance and retreat. *)
Theorem progress_in_sync_after_operations rand now st book :
  activeBook st = Some book →
  (∀ idxs sel,
     selectedIndices st = VNum <$> idxs →
     Forall2 (fun i w => 0 ≤ i ∧ words book !! Z.to_nat i = Some w) idxs sel →
     (idxs ≠ [] →
        session_ok book (startGame rand now false st).2
        ∧ in_sync (startGame rand now false st).2)
     ∧ (in_sync st → in_sync (startGame rand now false st).2))
  ∧ (session_ok book st →
     in_sync (exitGame now st).2
     ∧ (in_sync st →
          in_sync (nextQuestion now st).2 ∧ in_sync (prevQuestion now st).2)
     ∧ (currentIndex (game st) < len st - 1 → in_sync (nextQuestion now st).2)
     ∧ (0 < currentIndex (game st) → in_sync (prevQuestion now st).2)).
Proof.
  intros Hbook. split.
  - intros idxs sel Hsel Hidx. cbn [startGame].
    assert (Hnew : idxs ≠ [] →
              session_ok book (startGame_new rand now st).2
              ∧ in_sync (startGame_new rand now st).2).
    { intros Hne. pose proof (index_words_in_range _ _ _ Hidx) as Hpool.
      destruct (startGame_new_words rand now st book) as [d ->]; [done| | |].
      - rewrite Hsel. by destruct idxs.
      - rewrite Hsel, Hpool. apply Forall_is_word_values.
      - cbn [snd].
        assert (Forall is_word (playlist (game (new_game_state rand now book st d))))
          as Hwords.
        { cbn. rewrite shuffle_Permutation, Hsel, Hpool. apply Forall_is_word_values. }
        split.
        + split_and!; [done|done| |]; unfold len; cbn; [lia|].
          rewrite shuffle_Permutation, Hsel, !length_fmap.
          destruct idxs; [done|]. cbn. lia.
        + by eapply (in_sync_saved _ book now); [done| |reflexivity]. }
    split; [done|]. intros Hsync.
    destruct (decide (idxs = [])) as [->|Hne]; [|by apply Hnew].
    rewrite startGame_new_empty by done. by apply in_sync_set_active.
  - intros (_ & Hpl & Hci).
    assert (Hnext : currentIndex (game st) < len st - 1 → in_sync (nextQuestion now st).2).
    { intros Hlt. unfold nextQuestion, bind at 1, get at 1.
      rewrite (proj2 (Z.ltb_lt _ _)) by (unfold len in Hlt; lia).
      rewrite (move_then_save_word now _ st book Hbook).
      + by apply in_sync_moved.
      + apply array_get_word; [done|]. unfold len in *. lia. }
    assert (Hprev : 0 < currentIndex (game st) → in_sync (prevQuestion now st).2).
    { intros Hlt. unfold prevQuestion, bind at 1, get at 1.
      rewrite (proj2 (Z.ltb_lt _ _)) by lia.
      rewrite (move_then_save_word now _ st book Hbook).
      + by apply in_sync_moved.
      + apply array_get_word; [done|]. unfold len in *. lia. }
    split_and!; [|intros Hsync; split| |]; try done.
    + rewrite (exitGame_open_book now st book Hbook). cbn [snd].
      by eapply (in_sync_saved _ book now).
    + destruct (Z.lt_ge_cases (currentIndex (game st)) (len st - 1)) as [Hlt|Hge];
        [by apply Hnext|].
      by rewrite nextQuestion_at_end.
    + destruct (Z.lt_ge_cases 0 (currentIndex (game st))) as [Hlt|Hge];
        [by apply Hprev|].
      by rewrite prevQuestion_at_start.
Qed.

End SyncAfterOperations.

(** * Further properties of the progress store *)

Lemma getStorageKey_inj bookId bookId' :
  getStorageKey bookId = getStorageKey bookId' → bookId = bookId'.
Proof. unfold getStorageKey. apply app_inv_head. Qed.

Lemma json_elem_numbers (idxs : list Z) : json_elem <$> (VNum <$> idxs) = VNum <$> idxs.
Proof. induction idxs as [|i idxs IH]; [done|]. by rewrite !fmap_cons, IH. Qed.

Section StoreRoundTrips.
Context `{JSON}.

(** X1. What [saveProgress] stores for a book is what [loadProgress]
    answers for it, whatever was stored before: the record of the saved
    playlist, cursor, selection and time, as JSON carries it ([undefined]
    array elements read back as [null]). For a playlist of words and a
    selection of numbers, which is what every session saves, the record
    read back is the record saved. A second save replaces the first. *)
Theorem saveProgress_then_loadProgress now bookId pl ci sel ls :
  loadProgress (saveProgress now bookId pl ci sel ls) bookId
  = Ok (progress_record (json_elem <$> pl) ci (json_elem <$> sel) now)
  ∧ (Forall is_word pl → (∃ idxs : list Z, sel = VNum <$> idxs) →
     loadProgress (saveProgress now bookId pl ci sel ls) bookId
     = Ok (progress_record pl ci sel now))
  ∧ (∀ now' pl' ci' sel',
       saveProgress now bookId pl ci sel (saveProgress now' bookId pl' ci' sel' ls)
       = saveProgress now bookId pl ci sel ls).
Proof.
  split_and!.
  - by rewrite loadProgress_saveProgress, jsonify_progress_record.
  - intros Hpl [idxs ->].
    by rewrite loadProgress_saveProgress, jsonify_progress_record,
      json_elem_words, json_elem_numbers.
  - intros. unfold saveProgress. apply insert_insert_eq.
Qed.

(** X2. After [clearProgress], [loadProgress] answers [null] for the
    book; clearing erases what a save has stored, and clearing a book
    without stored progress changes nothing. *)
Theorem clearProgress_then_loadProgress now bookId pl ci sel ls :
  loadProgress (clearProgress ls bookId) bookId = Ok VNull
  ∧ clearProgress (saveProgress now bookId pl ci sel ls) bookId
    = clearProgress ls bookId
  ∧ (ls !! getStorageKey bookId = None → clearProgress ls bookId = ls).
Proof.
  split_and!.
  - apply loadProgress_clearProgress.
  - unfold clearProgress, saveProgress. apply delete_insert_eq.
  - unfold clearProgress. apply delete_id.
Qed.

Lemma loadProgress_ext ls ls' bookId :
  ls' !! getStorageKey bookId = ls !! getStorageKey bookId →
  loadProgress ls' bookId = loadProgress ls bookId.
Proof. intros Hk. unfold loadProgress. by rewrite Hk. Qed.

(** X3. The progress of one book is out of reach of the saves and
    clears of another: books with different ids have different keys, and
    [saveProgress] and [clearProgress] on one id leave what
    [loadProgress] answers for the other as it was. *)
Theorem progress_of_other_books_kept now bookId bookId' pl ci sel ls :
  bookId ≠ bookId' →
  getStorageKey bookId ≠ getStorageKey bookId'
  ∧ loadProgress (saveProgress now bookId pl ci sel ls) bookId'
    = loadProgress ls bookId'
  ∧ loadProgress (clearProgress ls bookId) bookId' = loadProgress ls bookId'.
Proof.
  intros Hne.
  assert (getStorageKey bookId ≠ getStorageKey bookId') as Hk
    by (intros Hk; by apply Hne, getStorageKey_inj).
  split_and!; [done| |]; apply loadProgress_ext.
  - unfold saveProgress. by apply lookup_insert_ne.
  - unfold clearProgress. by apply lookup_delete_ne.
Qed.

End StoreRoundTrips.

(** * What the game operations touch in the storage *)

Lemma only_progress_of_refl bookId ls : only_progress_of bookId ls ls.
Proof. by intros k _. Qed.

Lemma only_progress_of_trans bookId ls1 ls2 ls3 :
  only_progress_of bookId ls1 ls2 → only_progress_of bookId ls2 ls3 →
  only_progress_of bookId ls1 ls3.
Proof. intros H12 H23 k Hk. by rewrite H23, H12. Qed.

Lemma storage_frame_same st st' :
  activeBook st' = activeBook st → localStorage st' = localStorage st →
  storage_frame st st'.
Proof.
  intros Hb Hls. split; [done|]. rewrite Hls.
  destruct (activeBook st); [apply only_progress_of_refl|done].
Qed.

Lemma storage_frame_trans st1 st2 st3 :
  storage_frame st1 st2 → storage_frame st2 st3 → storage_frame st1 st3.
Proof.
  intros [Hb12 H12] [Hb23 H23]. split; [congruence|].
  rewrite Hb12 in H23. destruct (activeBook st1).
  - by eapply only_progress_of_trans.
  - congruence.
Qed.

Lemma storage_frame_same_but_dom st st' : same_but_dom st st' → storage_frame st st'.
Proof. unfold same_but_dom. intros ->. by apply storage_frame_same. Qed.

Section StorageFrame.
Context `{JSON}.

Lemma only_progress_of_save now bookId pl ci sel ls :
  only_progress_of bookId ls (saveProgress now bookId pl ci sel ls).
Proof. intros k Hk. unfold saveProgress. by apply lookup_insert_ne. Qed.

Lemma only_progress_of_clear bookId ls :
  only_progress_of bookId ls (clearProgress ls bookId).
Proof. intros k Hk. unfold clearProgress. by apply lookup_delete_ne. Qed.

Lemma storage_frame_saved st st' book now pl ci sel :
  activeBook st = Some book → activeBook st' = activeBook st →
  localStorage st' = saveProgress now (book_id book) pl ci sel (localStorage st) →
  storage_frame st st'.
Proof.
  intros Hbook Hb Hls. split; [done|]. rewrite Hbook, Hls.
  apply only_progress_of_save.
Qed.

Lemma move_then_save_frame now i st :
  let m : M unit :=
    run modify (set_game (set_currentIndex i));
    run updateCardUI;
    do book <- the_activeBook;
    do st1 <- get;
    saveProgressM now (book_id book) (playlist (game st1))
      (currentIndex (game st1)) (selectedIndices st1) in
  storage_frame st (m st).2.
Proof.
  cbn zeta. unfold bind, modify, updateCardUI, bind, get, lift, the_activeBook,
    bind, get, ret, lift, saveProgressM, modify.
  cbn [set_game game fst snd].
  destruct (get_prop _ _); cbn; [|by apply storage_frame_same].
  destruct (activeBook st) as [book|] eqn:Hbook; cbn.
  - by eapply storage_frame_saved.
  - by apply storage_frame_same.
Qed.

Lemma startGame_new_frame rand now st : storage_frame st (startGame_new rand now st).2.
Proof.
  destruct (decide (selectedIndices st = [])) as [Hsel|Hsel].
  - rewrite startGame_new_empty by done. by apply storage_frame_same.
  - destruct (activeBook st) as [book|] eqn:Hbook.
    + destruct (startGame_new_nonempty rand now st book Hbook Hsel) as [d ->].
      eapply storage_frame_trans; [|apply storage_frame_same_but_dom, startGame_ui_dom].
      split; [done|]. rewrite Hbook. cbn.
      eapply only_progress_of_trans;
        [apply only_progress_of_clear|apply only_progress_of_save].
    + assert ((length (selectedIndices st) =? 0)%nat = false) as Hlen
        by (by destruct (selectedIndices st)).
      unfold startGame_new, bind, modify, get, the_activeBook, bind, get, ret, lift.
      cbn. rewrite Hlen. cbn. rewrite Hbook. cbn. by apply storage_frame_same.
Qed.

Lemma loadProgress_null_or_valid ls bookId :
  loadProgress ls bookId = Ok VNull
  ∨ ∃ fields pl n, loadProgress ls bookId = Ok (VObj fields)
      ∧ field k_playlist fields = Some (VArr pl)
      ∧ field k_currentIndex fields = Some (VNum n).
Proof.
  rewrite loadProgress_cases.
  destruct (ls !! getStorageKey bookId) as [json|]; [|by left].
  destruct (JSON_parse json) as [data|]; [|by left].
  destruct (valid_progress data) eqn:Hv; [|by left].
  destruct (valid_progress_fields data Hv) as (fields & pl & n & -> & Hpl & Hci).
  right. by exists fields, pl, n.
Qed.

Lemma startGame_frame rand now isResume st :
  storage_frame st (startGame rand now isResume st).2.
Proof.
  destruct isResume; [|apply startGame_new_frame].
  destruct (activeBook st) as [book|] eqn:Hbook.
  - destruct (loadProgress_null_or_valid (localStorage st) (book_id book))
      as [Hnull|(fields & pl & n & Hload & Hpl & Hci)].
    + rewrite (startGame_resume_absent rand now st book Hbook Hnull).
      eapply storage_frame_trans; [|apply startGame_new_frame].
      by apply storage_frame_same.
    + rewrite (startGame_resume_record rand now st book fields pl n) by done.
      destruct (new_Set _) as [sel|e].
      * eapply storage_frame_trans;
          [|apply storage_frame_same_but_dom, startGame_ui_dom].
        by apply storage_frame_same.
      * by apply storage_frame_same.
  - unfold startGame, bind, modify, get, the_activeBook, bind, get, ret, lift.
    cbn. rewrite Hbook. cbn. by apply storage_frame_same.
Qed.

Lemma exitGame_closed_book now st :
  activeBook st = None →
  exitGame now st
  = (Ok tt, set_dom (set_wordDisplay (VStr (lit "...")))
              (set_dom (set_screen WelcomeScreen) (set_game (set_active false) st))).
Proof.
  intros Hbook. unfold exitGame, bind, modify, get, ret, navigateTo, modify. cbn.
  rewrite Hbook. reflexivity.
Qed.

Lemma nextQuestion_frame now st : storage_frame st (nextQuestion now st).2.
Proof.
  unfold nextQuestion. unfold bind at 1. unfold get at 1.
  destruct (_ <? _); [apply move_then_save_frame|by apply storage_frame_same].
Qed.

Lemma prevQuestion_frame now st : storage_frame st (prevQuestion now st).2.
Proof.
  unfold prevQuestion. unfold bind at 1. unfold get at 1.
  destruct (_ <? _); [apply move_then_save_frame|by apply storage_frame_same].
Qed.

Lemma exitGame_frame now st : storage_frame st (exitGame now st).2.
Proof.
  destruct (activeBook st) as [book|] eqn:Hbook.
  - rewrite (exitGame_open_book now st book Hbook).
    by eapply storage_frame_saved.
  - rewrite exitGame_closed_book by done. by apply storage_frame_same.
Qed.

(** X4. The game operations write to the storage under one key only, the
    progress key of the open book: from the state before to the state
    after [startGame], [nextQuestion], [prevQuestion] and [exitGame]
    (also when the call ends in an exception) every other entry, the
    progress of the other books among them, is as it was, and with no
    book open the storage is not written at all. The open book is never
    replaced. *)
Theorem game_operations_storage_frame rand now isResume st :
  storage_frame st (startGame rand now isResume st).2
  ∧ storage_frame st (nextQuestion now st).2
  ∧ storage_frame st (prevQuestion now st).2
  ∧ storage_frame st (exitGame now st).2.
Proof.
  split_and!.
  - apply startGame_frame.
  - apply nextQuestion_frame.
  - apply prevQuestion_frame.
  - apply exitGame_frame.
Qed.

End StorageFrame.

(** * Sessions across operations *)

Lemma existsb_same_value_zero_numbers i (s : list Z) :
  existsb (same_value_zero (VNum i)) (VNum <$> s) = bool_decide (i ∈ s).
Proof.
  induction s as [|j s IH]; [done|].
  rewrite fmap_cons. cbn [existsb same_value_zero]. rewrite IH, <- bool_decide_or.
  apply bool_decide_ext. by rewrite elem_of_cons.
Qed.

Lemma set_add_numbers s i : set_add (VNum <$> s) (VNum i) = VNum <$> add_index s i.
Proof.
  unfold set_add, add_index. rewrite existsb_same_value_zero_numbers.
  destruct (bool_decide _); [done|]. by rewrite fmap_app.
Qed.

Lemma foldl_set_add_numbers s l :
  foldl set_add (VNum <$> s) (VNum <$> l) = VNum <$> foldl add_index s l.
Proof.
  revert s. induction l as [|i l IH]; intros s; [done|].
  rewrite fmap_cons. cbn [foldl]. by rewrite set_add_numbers, IH.
Qed.

Lemma foldl_add_index_fresh s l : NoDup (s ++ l) → foldl add_index s l = s ++ l.
Proof.
  revert s. induction l as [|i l IH]; intros s Hnd; [by rewrite app_nil_r|].
  cbn [foldl]. unfold add_index.
  assert (i ∉ s) as Hi.
  { apply NoDup_app in Hnd as (_ & Hdis & _). intros Hin.
    apply (Hdis i Hin). by left. }
  rewrite bool_decide_eq_false_2 by done.
  rewrite IH; rewrite <- app_assoc; done.
Qed.

Lemma new_Set_numbers idxs :
  NoDup idxs → foldl set_add [] (VNum <$> idxs) = VNum <$> idxs.
Proof.
  intros Hnd. change (@nil Value) with (VNum <$> @nil Z).
  by rewrite foldl_set_add_numbers, foldl_add_index_fresh.
Qed.

Lemma updateCardUI_word_state st w :
  array_get (playlist (game st)) (currentIndex (game st)) = word_value w →
  updateCardUI st
  = (Ok tt, set_dom (set_curIndexEl (currentIndex (game st) + 1))
              (set_dom (set_wordDisplay (VStr (term w))) st)).
Proof.
  intros Hw. unfold updateCardUI, bind, get, lift, modify. by rewrite Hw.
Qed.

Section SessionRoundTrips.
Context `{JSON}.

Lemma loadProgress_saved_session ls now bookId pl ci idxs :
  Forall is_word pl →
  loadProgress (saveProgress now bookId pl ci (VNum <$> idxs) ls) bookId
  = Ok (progress_record pl ci (VNum <$> idxs) now).
Proof.
  intros Hpl.
  by rewrite loadProgress_saveProgress, jsonify_progress_record,
    json_elem_words, json_elem_numbers.
Qed.

(** Resuming from a record of words with a cursor inside them and a
    selection of distinct numbers. *)
Lemma startGame_resume_saved rand now' st book pl c idxs t :
  activeBook st = Some book →
  loadProgress (localStorage st) (book_id book)
  = Ok (progress_record pl c (VNum <$> idxs) t) →
  Forall is_word pl → 0 ≤ c < Z.of_nat (length pl) → NoDup idxs →
  ∃ w, array_get pl c = word_value w
    ∧ startGame rand now' true st
      = (Ok tt,
         resumed_state st pl c (VNum <$> idxs)
           (set_curIndexEl (c + 1)
              (set_wordDisplay (VStr (term w))
                 (set_screen GameScreen
                    (set_totalCountEl (Z.of_nat (length pl)) (dom st)))))).
Proof.
  intros Hbook Hload Hpl Hc Hnd.
  destruct (array_get_word pl c Hpl Hc) as [w Hw]. exists w. split; [done|].
  unfold progress_record in Hload.
  erewrite (startGame_resume_record rand now' st book _ pl c);
    [|done|exact Hload|reflexivity|reflexivity].
  change (default VUndefined (field k_originalIndices _)) with (VArr (VNum <$> idxs)).
  cbn [new_Set]. rewrite new_Set_numbers by done.
  rewrite startGame_ui_unfold. by rewrite (updateCardUI_word_state _ w).
Qed.

(** X5. A session that was saved is restored by [startGame (true)]: if
    the storage holds, for the open book, what [saveProgress] wrote for a
    playlist of words, a cursor inside it and a selection of distinct
    indices, then resuming completes, installs that playlist, cursor and
    selection, shows the game screen with the card under the cursor, and
    writes nothing and shows no notice. What the state held in memory
    before does not matter, so this is also what a reload of the page
    followed by a resume comes to. *)
Theorem resume_restores_saved_session rand now now' st book pl c idxs ls :
  activeBook st = Some book →
  localStorage st = saveProgress now (book_id book) pl c (VNum <$> idxs) ls →
  Forall is_word pl → 0 ≤ c < Z.of_nat (length pl) → NoDup idxs →
  ∃ w d, array_get pl c = word_value w
    ∧ startGame rand now' true st
      = (Ok tt, resumed_state st pl c (VNum <$> idxs) d)
    ∧ screen d = GameScreen
    ∧ wordDisplay d = VStr (term w)
    ∧ curIndexEl d = c + 1
    ∧ totalCountEl d = Z.of_nat (length pl).
Proof.
  intros Hbook Hls Hpl Hc Hnd.
  destruct (startGame_resume_saved rand now' st book pl c idxs now)
    as (w & Hw & Hrun); try done.
  { rewrite Hls. by apply loadProgress_saved_session. }
  exists w. eexists. split; [done|]. split; [exact Hrun|]. done.
Qed.

(** X6. Leaving a session and coming back: after [exitGame] the game is
    inactive and the welcome screen offers the resume button; a
    [startGame (true)] that follows completes and puts the game back as
    it was (the same playlist and cursor, active again) with the
    selection it had, without a notice and without writing to the
    storage. *)
Theorem exitGame_then_resume rand now now' st book idxs :
  session_ok book st →
  selectedIndices st = VNum <$> idxs → NoDup idxs →
  let st1 := (exitGame now st).2 in
  let r := startGame rand now' true st1 in
  active (game st1) = false
  ∧ screen (dom st1) = WelcomeScreen
  ∧ resumeBtnShown (dom st1) = true
  ∧ r.1 = Ok tt
  ∧ game r.2 = set_active true (game st)
  ∧ selectedIndices r.2 = selectedIndices st
  ∧ screen (dom r.2) = GameScreen
  ∧ localStorage r.2 = localStorage st1
  ∧ alerts r.2 = alerts st.
Proof.
  intros (Hbook & Hpl & Hc) Hsel Hnd. cbv zeta.
  rewrite (exitGame_open_book now st book Hbook). cbn [snd].
  destruct (startGame_resume_saved rand now' (exited_state now book st) book
              (playlist (game st)) (currentIndex (game st)) idxs now)
    as (w & Hw & ->).
  - done.
  - cbn [localStorage exited_state]. rewrite Hsel.
    by apply loadProgress_saved_session.
  - done.
  - done.
  - done.
  - by split_and!.
Qed.

(** X7. Resuming when no valid progress is stored for the open book: the
    notice is shown, and the call goes on as a new game. With a selection
    of indices into the book it completes with a fresh playlist saved at
    cursor 0; with an empty selection it stops at the guard of the new
    game, leaving the game flagged active with the notice shown and
    nothing else changed. *)
Theorem resume_without_progress rand now st book :
  activeBook st = Some book →
  loadProgress (localStorage st) (book_id book) = Ok VNull →
  (selectedIndices st = [] →
     startGame rand now true st
     = (Ok tt, add_alert resume_notice (set_game (set_active true) st)))
  ∧ (∀ idxs sel,
       selectedIndices st = VNum <$> idxs → idxs ≠ [] →
       Forall2 (fun i w => 0 ≤ i ∧ words book !! Z.to_nat i = Some w) idxs sel →
       ∃ d, startGame rand now true st
            = (Ok tt, new_game_state rand now book (add_alert resume_notice st) d)
         ∧ playlist (game (startGame rand now true st).2) ≡ₚ word_value <$> sel
         ∧ loadProgress (localStorage (startGame rand now true st).2) (book_id book)
           = Ok (progress_record (playlist (game (startGame rand now true st).2)) 0
                   (selectedIndices st) now)).
Proof.
  intros Hbook Hload.
  rewrite (startGame_resume_absent rand now st book Hbook Hload).
  cbn [startGame]. split.
  - intros Hsel. by rewrite startGame_new_empty.
  - intros idxs sel Hsel Hne Hidx.
    pose proof (index_words_in_range _ _ _ Hidx) as Hpool.
    set (st0 := (alert resume_notice (set_game (set_active true) st)).2).
    assert (selectedIndices st0 = VNum <$> idxs) as Hsel0 by exact Hsel.
    assert (activeBook st0 = Some book) as Hbook0 by exact Hbook.
    destruct (startGame_new_words rand now st0 book) as [d Hrun].
    + done.
    + rewrite Hsel0. by destruct idxs.
    + rewrite Hsel0, Hpool. apply Forall_is_word_values.
    + exists d. rewrite Hrun. split_and!.
      * done.
      * cbn [snd new_game_state game playlist].
        by rewrite shuffle_Permutation, Hsel0, Hpool.
      * cbn [snd new_game_state localStorage game playlist].
        rewrite Hsel, Hsel0. apply loadProgress_saved_session.
        rewrite shuffle_Permutation, Hpool. apply Forall_is_word_values.
Qed.

End SessionRoundTrips.

(** * Moving through a session *)

Section Moves.
Context `{JSON}.

Lemma nextQuestion_word now st book :
  session_ok book st → currentIndex (game st) < len st - 1 →
  nextQuestion now st = (Ok tt, moved_state now book st (currentIndex (game st) + 1)).
Proof.
  intros (Hbook & Hpl & Hc) Hlt. unfold len in *.
  unfold nextQuestion. unfold bind at 1. unfold get at 1.
  rewrite (proj2 (Z.ltb_lt _ _)) by lia.
  apply move_then_save_word; [done|]. apply array_get_word; [done|lia].
Qed.

Lemma prevQuestion_word now st book :
  session_ok book st → 0 < currentIndex (game st) →
  prevQuestion now st = (Ok tt, moved_state now book st (currentIndex (game st) - 1)).
Proof.
  intros (Hbook & Hpl & Hc) Hlt. unfold len in *.
  unfold prevQuestion. unfold bind at 1. unfold get at 1.
  rewrite (proj2 (Z.ltb_lt _ _)) by lia.
  apply move_then_save_word; [done|]. apply array_get_word; [done|lia].
Qed.

Lemma session_ok_moved now book st i :
  session_ok book st → 0 ≤ i < len st → session_ok book (moved_state now book st i).
Proof.
  intros (Hbook & Hpl & Hc) Hi. unfold session_ok, len in *.
  cbn [moved_state activeBook game set_currentIndex playlist currentIndex].
  split_and!; (done || lia).
Qed.

(** X8. In a session of words a step forward followed by a step back
    (and a step back followed by a step forward) returns to the card it
    started from: both calls complete, the game and the selection are as
    before, and the stored progress agrees with the game again. *)
Theorem nextQuestion_prevQuestion_inverse now now' st book :
  session_ok book st →
  (currentIndex (game st) < len st - 1 →
     let r := prevQuestion now' (nextQuestion now st).2 in
     (nextQuestion now st).1 = Ok tt ∧ r.1 = Ok tt
     ∧ game r.2 = game st ∧ selectedIndices r.2 = selectedIndices st
     ∧ in_sync r.2)
  ∧ (0 < currentIndex (game st) →
     let r := nextQuestion now' (prevQuestion now st).2 in
     (prevQuestion now st).1 = Ok tt ∧ r.1 = Ok tt
     ∧ game r.2 = game st ∧ selectedIndices r.2 = selectedIndices st
     ∧ in_sync r.2).
Proof.
  intros Hok. pose proof Hok as (Hbook & Hpl & Hc). split; intros Hlt; cbv zeta.
  - rewrite (nextQuestion_word now st book) by done. cbn [fst snd].
    set (st1 := moved_state now book st (currentIndex (game st) + 1)).
    assert (session_ok book st1) as Hok1 by (apply session_ok_moved; [done|lia]).
    rewrite (prevQuestion_word now' st1 book) by (done || (cbn; lia)).
    cbn [fst snd]. split_and!; [done..| | |].
    + cbn. destruct (game st) as [a pl c]. cbn. unfold set_currentIndex. cbn.
      f_equal. lia.
    + done.
    + apply in_sync_moved; [done|]. by destruct Hok1 as (_ & ? & _).
  - rewrite (prevQuestion_word now st book) by done. cbn [fst snd].
    set (st1 := moved_state now book st (currentIndex (game st) - 1)).
    assert (session_ok book st1) as Hok1 by (apply session_ok_moved; [done|lia]).
    rewrite (nextQuestion_word now' st1 book) by (done || (unfold len in *; cbn; lia)).
    cbn [fst snd]. split_and!; [done..| | |].
    + cbn. destruct (game st) as [a pl c]. cbn. unfold set_currentIndex. cbn.
      f_equal. lia.
    + done.
    + apply in_sync_moved; [done|]. by destruct Hok1 as (_ & ? & _).
Qed.

Lemma move_then_save_throw now i st e :
  get_prop (array_get (playlist (game st)) i) k_term = Throw e →
  (run modify (set_game (set_currentIndex i));
   run updateCardUI;
   do book <- the_activeBook;
   do st1 <- get;
   saveProgressM now (book_id book) (playlist (game st1))
     (currentIndex (game st1)) (selectedIndices st1)) st
  = (Throw e, set_game (set_currentIndex i) st).
Proof.
  intros He. destruct st as [ab sel g ls d al]. cbn in He.
  unfold bind, modify, updateCardUI, bind, get, lift. cbn. by rewrite He.
Qed.

(** X9. A card that is [null] or missing stops a move half way: when
    the element the cursor would move to has no [term] to read (it is
    [null], as a stored playlist may hold, or lies outside the playlist),
    [nextQuestion] and [prevQuestion] end in that exception with the
    cursor already moved; the card on the page, the storage and
    everything else are as before, so the stored cursor is one step
    behind the game. *)
Theorem move_to_unreadable_card now st e :
  (currentIndex (game st) < len st - 1 →
   get_prop (array_get (playlist (game st)) (currentIndex (game st) + 1)) k_term
   = Throw e →
   nextQuestion now st
   = (Throw e, set_game (set_currentIndex (currentIndex (game st) + 1)) st))
  ∧ (0 < currentIndex (game st) →
     get_prop (array_get (playlist (game st)) (currentIndex (game st) - 1)) k_term
     = Throw e →
     prevQuestion now st
     = (Throw e, set_game (set_currentIndex (currentIndex (game st) - 1)) st)).
Proof.
  split; intros Hlt He.
  - unfold nextQuestion. unfold bind at 1. unfold get at 1. unfold len in Hlt.
    rewrite (proj2 (Z.ltb_lt _ _)) by lia. by apply move_then_save_throw.
  - unfold prevQuestion. unfold bind at 1. unfold get at 1.
    rewrite (proj2 (Z.ltb_lt _ _)) by lia. by apply move_then_save_throw.
Qed.

(** X10. [exitGame] completes in every state. It turns the game
    inactive and keeps its playlist and cursor in memory, shows the
    welcome screen and blanks the card. With a book open it stores the
    session under the book's key, so that the resume button is shown,
    re-reads the selection from what it stored and enables the start
    button exactly when that selection is not empty; with no book open
    it touches neither the storage nor the selection. *)
Theorem exitGame_effects now st :
  let st' := (exitGame now st).2 in
  (exitGame now st).1 = Ok tt
  ∧ game st' = set_active false (game st)
  ∧ screen (dom st') = WelcomeScreen
  ∧ wordDisplay (dom st') = VStr (lit "...")
  ∧ alerts st' = alerts st
  ∧ match activeBook st with
    | Some book =>
        loadProgress (localStorage st') (book_id book)
        = Ok (progress_record (json_elem <$> playlist (game st))
                (currentIndex (game st)) (json_elem <$> selectedIndices st) now)
        ∧ selectedIndices st' = foldl set_add [] (json_elem <$> selectedIndices st)
        ∧ resumeBtnShown (dom st') = true
        ∧ selectedCountEl (dom st') = Z.of_nat (length (selectedIndices st'))
        ∧ startBtnDisabled (dom st') = bool_decide (selectedIndices st' = [])
    | None =>
        localStorage st' = localStorage st
        ∧ selectedIndices st' = selectedIndices st
        ∧ resumeBtnShown (dom st') = resumeBtnShown (dom st)
    end.
Proof.
  cbv zeta. destruct (activeBook st) as [book|] eqn:Hbook.
  - rewrite (exitGame_open_book now st book Hbook). cbn [fst snd].
    split_and!; try done.
    + cbn [localStorage exited_state].
      by rewrite loadProgress_saveProgress, jsonify_progress_record.
    + cbn. by destruct (foldl set_add [] (json_elem <$> selectedIndices st)).
  - rewrite exitGame_closed_book by done. by split_and!.
Qed.

Lemma timeout_step now callback st book :
  session_ok book st →
  ∃ st', animateSwipeAndAction_timeout now callback st = (Ok tt, st')
    ∧ session_ok book st'
    ∧ playlist (game st') = playlist (game st)
    ∧ selectedIndices st' = selectedIndices st
    ∧ Z.abs (currentIndex (game st') - currentIndex (game st)) ≤ 1
    ∧ (in_sync st → in_sync st').
Proof.
  intros Hok. pose proof Hok as (Hbook & Hpl & Hc).
  destruct callback; cbn [animateSwipeAndAction_timeout].
  - destruct (Z.lt_ge_cases (currentIndex (game st)) (len st - 1)) as [Hlt|Hge].
    + rewrite (nextQuestion_word now st book) by done. eexists. split; [done|].
      split_and!; [apply session_ok_moved; [done|lia]|done|done|cbn; lia|].
      intros _. by apply in_sync_moved.
    + rewrite nextQuestion_at_end by done. exists st.
      split_and!; try done. lia.
  - destruct (Z.lt_ge_cases 0 (currentIndex (game st))) as [Hlt|Hge].
    + rewrite (prevQuestion_word now st book) by done. eexists. split; [done|].
      split_and!; [apply session_ok_moved; [done|lia]|done|done|cbn; lia|].
      intros _. by apply in_sync_moved.
    + rewrite prevQuestion_at_start by done. exists st.
      split_and!; try done. lia.
Qed.

(** X11. However many swipe callbacks are waiting on their timers, and
    in whatever order of [nextQuestion] and [prevQuestion], firing them
    on a session of words keeps it one: every call completes, the book,
    the playlist and the selection stay, the cursor stays inside the
    playlist and moves by at most one card per timer, and stored
    progress that agreed with the game before agrees with it after. *)
Theorem fire_timeouts_keeps_session timers st book :
  session_ok book st →
  let r := fire_timeouts timers st in
  Forall (fun x => x = Ok tt) r.1
  ∧ session_ok book r.2
  ∧ playlist (game r.2) = playlist (game st)
  ∧ selectedIndices r.2 = selectedIndices st
  ∧ Z.abs (currentIndex (game r.2) - currentIndex (game st))
    ≤ Z.of_nat (length timers)
  ∧ (in_sync st → in_sync r.2).
Proof.
  cbv zeta. revert st. induction timers as [|[now callback] timers IH]; intros st Hok.
  - cbn. split_and!; try done. lia.
  - cbn [fire_timeouts].
    destruct (timeout_step now callback st book Hok)
      as (st1 & -> & Hok1 & Hpl1 & Hsel1 & Hc1 & Hsync1).
    specialize (IH st1 Hok1). destruct (fire_timeouts timers st1) as [rs st2].
    cbn [fst snd] in *. destruct IH as (Hrs & Hok2 & Hpl2 & Hsel2 & Hc2 & Hsync2).
    split_and!; [by constructor|done|congruence|congruence| |tauto].
    rewrite length_cons. lia.
Qed.

End Moves.

(** * Selecting topics *)

Lemma set_has_numbers s i : set_has (VNum <$> s) (VNum i) = bool_decide (i ∈ s).
Proof. apply existsb_same_value_zero_numbers. Qed.

Lemma set_delete_numbers s i :
  set_delete (VNum <$> s) (VNum i) = VNum <$> filter (fun j => j ≠ i) s.
Proof.
  unfold set_delete. induction s as [|j s IH]; [done|].
  rewrite fmap_cons, !filter_cons, IH. cbn [same_value_zero].
  destruct (decide (i = j)) as [->|Hne].
  - rewrite bool_decide_eq_true_2 by done.
    rewrite decide_False by done. by rewrite decide_False by (intros ?; done).
  - rewrite bool_decide_eq_false_2 by done.
    rewrite decide_True by done. by rewrite decide_True by (intros ->; done).
Qed.

Lemma add_index_NoDup s i : NoDup s → NoDup (add_index s i).
Proof.
  intros Hnd. unfold add_index. case_bool_decide as Hi; [done|].
  apply NoDup_app. split_and!; [done| |apply NoDup_singleton].
  intros x Hx ->%list_elem_of_singleton. done.
Qed.

Lemma elem_of_add_index s i x : x ∈ add_index s i ↔ x ∈ s ∨ x = i.
Proof.
  unfold add_index. case_bool_decide as Hi.
  - split; [by left|]. by intros [?| ->].
  - by rewrite elem_of_app, list_elem_of_singleton.
Qed.

Lemma foldl_add_index_NoDup s l : NoDup s → NoDup (foldl add_index s l).
Proof.
  revert s. induction l as [|i l IH]; intros s Hnd; [done|].
  cbn [foldl]. by apply IH, add_index_NoDup.
Qed.

Lemma elem_of_foldl_add_index s l x : x ∈ foldl add_index s l ↔ x ∈ s ∨ x ∈ l.
Proof.
  revert s. induction l as [|i l IH]; intros s; cbn [foldl].
  - rewrite elem_of_nil. tauto.
  - rewrite IH, elem_of_add_index, elem_of_cons. tauto.
Qed.

Lemma foldl_add_index_prefix s l : s `prefix_of` foldl add_index s l.
Proof.
  revert s. induction l as [|i l IH]; intros s; cbn [foldl]; [done|].
  etrans; [|apply IH]. unfold add_index. case_bool_decide; [done|].
  by apply prefix_app_r.
Qed.

Lemma toggle_index_NoDup s i : NoDup s → NoDup (toggle_index s i).
Proof.
  intros Hnd. unfold toggle_index. case_bool_decide as Hi.
  - by apply NoDup_filter.
  - apply NoDup_app. split_and!; [done| |apply NoDup_singleton].
    intros x Hx ->%list_elem_of_singleton. done.
Qed.

Lemma elem_of_toggle_index s i x :
  x ∈ toggle_index s i ↔ (x = i ∧ i ∉ s) ∨ (x ≠ i ∧ x ∈ s).
Proof.
  unfold toggle_index. case_bool_decide as Hi.
  - rewrite list_elem_of_filter. split; [tauto|]. intros [[-> ?]|?]; tauto.
  - rewrite elem_of_app, list_elem_of_singleton. split.
    + intros [Hx| ->]; [right|left]; [|done]. split; [|done]. by intros ->.
    + intros [[-> _]|[_ ?]]; tauto.
Qed.

Lemma filter_other_indices (s : list Z) i : i ∉ s → filter (fun j => j ≠ i) s = s.
Proof.
  induction s as [|j s IH]; [done|]. intros [? ?]%not_elem_of_cons.
  rewrite filter_cons, decide_True by done. f_equal. by apply IH.
Qed.

Lemma toggleSelection_numbers i st book idxs :
  activeBook st = Some book →
  selectedIndices st = VNum <$> idxs →
  toggleSelection i st
  = (Ok tt,
     set_dom (set_selection_ui (Z.of_nat (length (toggle_index idxs i))))
       (set_selectedIndices (VNum <$> toggle_index idxs i) st)).
Proof.
  intros Hbook Hsel. unfold toggleSelection. unfold bind at 1. unfold get at 1.
  rewrite Hsel, set_has_numbers, set_delete_numbers, set_add_numbers.
  unfold toggle_index, add_index. destruct st as [ab sel g ls d al].
  cbn in Hbook. subst ab.
  case_bool_decide; unfold bind, modify, updateSelectionUI, bind, get, modify,
    the_activeBook, bind, get, ret; cbn; by rewrite length_fmap.
Qed.

(** X12. A click on topic [i] flips its membership in the selection
    and nothing else: with a book open and a selection of distinct
    numbers, [toggleSelection (i)] completes; afterwards the selection is
    again one of distinct numbers, [i] is selected exactly if it was not
    before, every other index is selected exactly if it was, the counter
    shows the size of the selection and the start button is disabled
    exactly when the selection is empty. The game and the storage are
    not touched: a selection is stored only by the game operations. *)
Theorem toggleSelection_flips i st book idxs :
  activeBook st = Some book →
  selectedIndices st = VNum <$> idxs → NoDup idxs →
  ∃ idxs',
    (toggleSelection i st).1 = Ok tt
    ∧ selectedIndices (toggleSelection i st).2 = VNum <$> idxs'
    ∧ NoDup idxs'
    ∧ (i ∈ idxs' ↔ i ∉ idxs)
    ∧ (∀ j, j ≠ i → j ∈ idxs' ↔ j ∈ idxs)
    ∧ selectedCountEl (dom (toggleSelection i st).2) = Z.of_nat (length idxs')
    ∧ startBtnDisabled (dom (toggleSelection i st).2) = bool_decide (idxs' = [])
    ∧ game (toggleSelection i st).2 = game st
    ∧ localStorage (toggleSelection i st).2 = localStorage st.
Proof.
  intros Hbook Hsel Hnd. exists (toggle_index idxs i).
  rewrite (toggleSelection_numbers i st book idxs) by done. cbn [fst snd].
  split_and!; try done.
  - by apply toggle_index_NoDup.
  - rewrite elem_of_toggle_index. tauto.
  - intros j Hj. rewrite elem_of_toggle_index. tauto.
  - cbn. by destruct (toggle_index idxs i).
Qed.

(** X13. Two clicks on the same topic give back the selection: the
    same indices are selected as before the first click (an index that
    was selected moves to the end of the insertion order, an index that
    was not leaves no trace), and the counter and the start button are as
    the first selection has them. *)
Theorem toggleSelection_twice i st book idxs :
  activeBook st = Some book →
  selectedIndices st = VNum <$> idxs → NoDup idxs →
  let st2 := (toggleSelection i (toggleSelection i st).2).2 in
  ∃ idxs2,
    selectedIndices st2 = VNum <$> idxs2
    ∧ idxs2 ≡ₚ idxs
    ∧ (i ∉ idxs → idxs2 = idxs)
    ∧ selectedCountEl (dom st2) = Z.of_nat (length idxs)
    ∧ startBtnDisabled (dom st2) = bool_decide (idxs = []).
Proof.
  intros Hbook Hsel Hnd. cbv zeta.
  rewrite (toggleSelection_numbers i st book idxs) by done. cbn [snd].
  erewrite (toggleSelection_numbers i _ book (toggle_index idxs i)); [|done|done].
  cbn [snd]. exists (toggle_index (toggle_index idxs i) i).
  assert (toggle_index (toggle_index idxs i) i ≡ₚ idxs) as Hperm.
  { apply NoDup_Permutation; [by do 2 apply toggle_index_NoDup|done|].
    intros x. rewrite !elem_of_toggle_index.
    destruct (decide (x = i)) as [->|]; destruct (decide (i ∈ idxs)); tauto. }
  split_and!; [done|done| | |].
  - intros Hi. unfold toggle_index at 2. rewrite bool_decide_eq_false_2 by done.
    unfold toggle_index.
    rewrite bool_decide_eq_true_2 by (rewrite elem_of_app, list_elem_of_singleton; tauto).
    rewrite filter_app, filter_cons.
    destruct (decide (i ≠ i)) as [Hii|_]; [done|].
    rewrite filter_nil, app_nil_r.
    by apply filter_other_indices.
  - cbn. by rewrite Hperm.
  - cbn. rewrite Hperm. by destruct idxs.
Qed.

Lemma selectAll_click_numbers st book idxs :
  activeBook st = Some book →
  selectedIndices st = VNum <$> idxs →
  let total := length (words book) in
  let idxs' := if (length idxs =? total)%nat then []
               else foldl add_index idxs (seqZ 0 (Z.of_nat total)) in
  selectAll_click st
  = (Ok tt,
     set_dom (set_selection_ui (Z.of_nat (length idxs')))
       (set_selectedIndices (VNum <$> idxs') st)).
Proof.
  intros Hbook Hsel. cbv zeta. destruct st as [ab sel g ls d al].
  cbn in Hbook, Hsel. subst ab sel.
  unfold selectAll_click, bind, the_activeBook, bind, get, ret, modify,
    renderTopicList, bind, the_activeBook, bind, get, ret, modify. cbn.
  rewrite length_fmap, foldl_set_add_numbers.
  destruct (length idxs =? length (words book))%nat; cbn; by rewrite ?length_fmap.
Qed.

(** X14. The select-all button. With a book of [total] words open: if
    the selection has exactly [total] elements the click empties it and
    disables the start button (the test is on the size alone); otherwise
    the click adds the missing indices after the ones already selected,
    so that for a selection of distinct indices into the book the
    selection becomes all of [0 .. total - 1], the counter shows [total]
    and the start button is enabled. A second click then empties the
    selection. *)
Theorem selectAll_click_toggles st book idxs :
  activeBook st = Some book →
  selectedIndices st = VNum <$> idxs →
  let total := length (words book) in
  let st' := (selectAll_click st).2 in
  (selectAll_click st).1 = Ok tt
  ∧ game st' = game st ∧ localStorage st' = localStorage st
  ∧ (length idxs = total →
     selectedIndices st' = [] ∧ startBtnDisabled (dom st') = true)
  ∧ (length idxs ≠ total → NoDup idxs →
     Forall (fun i => 0 ≤ i < Z.of_nat total) idxs →
     ∃ idxs',
       selectedIndices st' = VNum <$> idxs'
       ∧ idxs `prefix_of` idxs'
       ∧ idxs' ≡ₚ seqZ 0 (Z.of_nat total)
       ∧ selectedCountEl (dom st') = Z.of_nat total
       ∧ startBtnDisabled (dom st') = false
       ∧ selectedIndices (selectAll_click st').2 = []).
Proof.
  intros Hbook Hsel. cbv zeta.
  rewrite (selectAll_click_numbers st book idxs Hbook Hsel). cbn [fst snd].
  split_and!; [done..| |].
  - intros Hlen. by rewrite (proj2 (Nat.eqb_eq _ _) Hlen).
  - intros Hlen Hnd Hrange. rewrite (proj2 (Nat.eqb_neq _ _) Hlen).
    set (idxs' := foldl add_index idxs (seqZ 0 (Z.of_nat (length (words book))))).
    assert (idxs' ≡ₚ seqZ 0 (Z.of_nat (length (words book)))) as Hperm.
    { apply NoDup_Permutation;
        [by apply foldl_add_index_NoDup|apply NoDup_seqZ|].
      intros x. unfold idxs'. rewrite elem_of_foldl_add_index.
      split; [|tauto]. intros [Hx|Hx]; [|done].
      rewrite elem_of_seqZ. rewrite Forall_forall in Hrange.
      specialize (Hrange x Hx). lia. }
    assert (length idxs' = length (words book)) as Hlen'.
    { rewrite Hperm, length_seqZ. lia. }
    exists idxs'. split_and!.
    + done.
    + apply foldl_add_index_prefix.
    + done.
    + cbn. by rewrite Hlen'.
    + cbn. rewrite Hlen'. apply Z.eqb_neq. intros H0.
      apply Hlen. destruct idxs as [|j idxs0]; [cbn; lia|].
      apply Forall_cons in Hrange as [? _]. lia.
    + erewrite (selectAll_click_numbers _ book idxs'); [|done|done].
      cbv zeta. by rewrite (proj2 (Nat.eqb_eq _ _) Hlen').
Qed.

(** * Gestures *)

Lemma foldl_onMove sw moves :
  isDragging sw = true →
  foldl (fun s x => onMove x s) sw moves
  = {| startX := startX sw; currentX := default (currentX sw) (last moves);
       isDragging := true |}.
Proof.
  revert sw. induction moves as [|x moves IH]; intros sw Hdrag.
  - destruct sw; cbn in *. by subst.
  - cbn [foldl]. rewrite IH by (unfold onMove; by rewrite Hdrag).
    unfold onMove. rewrite Hdrag, last_cons. cbn. by destruct (last moves).
Qed.

Lemma foldl_onMove_idle sw moves :
  isDragging sw = false → foldl (fun s x => onMove x s) sw moves = sw.
Proof.
  intros Hdrag. induction moves as [|x moves IH]; [done|].
  cbn [foldl]. unfold onMove at 2. by rewrite Hdrag.
Qed.

(** X15. A gesture as a whole. While the game is not active the card
    ignores it: nothing is recorded and nothing is done. In an active
    game only the position of the press and the last position of the
    pointer count, whatever the path between them: the release is judged
    as [onEnd] judges that pair, it ends the drag, and a displacement of
    at most the threshold puts the card back. A press that is released
    without any movement is judged by the position at which the previous
    gesture ended, since [currentX] is written by movements only. *)
Theorem gesture_decision g x0 moves sw :
  isDragging sw = false →
  (active g = false → gesture g x0 moves sw = (sw, NoAction))
  ∧ (active g = true →
     let x := default (currentX sw) (last moves) in
     gesture g x0 moves sw
     = onEnd g {| startX := x0; currentX := x; isDragging := true |}
     ∧ (gesture g x0 moves sw).1
       = {| startX := x0; currentX := x; isDragging := false |}
     ∧ (Z.abs (x - x0) ≤ threshold → (gesture g x0 moves sw).2 = ResetCardPosition)
     ∧ (moves = [] → threshold < currentX sw - x0 →
        currentIndex g < Z.of_nat (length (playlist g)) - 1 →
        (gesture g x0 moves sw).2 = AnimateSwipeAndAction ToRight NextQuestion)).
Proof.
  intros Hidle. unfold gesture, onStart. split; intros Hact; rewrite Hact; cbn [negb].
  - rewrite foldl_onMove_idle by done. unfold onEnd. by rewrite Hidle.
  - cbv zeta. rewrite foldl_onMove by done. cbn [startX currentX].
    split_and!; [done| | |].
    + unfold onEnd. cbn [isDragging negb startX currentX].
      by repeat destruct (_ <? _).
    + intros Hdx. unfold onEnd. cbn [isDragging negb startX currentX].
      by rewrite (proj2 (Z.ltb_ge _ _) Hdx).
    + intros -> Hdx Hci. unfold onEnd, threshold in *.
      cbn [isDragging negb startX currentX last default].
      rewrite (proj2 (Z.ltb_lt 100 (Z.abs (currentX sw - x0)))) by lia.
      rewrite (proj2 (Z.ltb_lt 0 (currentX sw - x0))) by lia.
      by rewrite (proj2 (Z.ltb_lt _ _) Hci).
Qed.

Section SwipeMoves.
Context `{JSON}.

(** X16. A swipe moves the session by one card. In an active session
    of words, a gesture whose last position lies more than the threshold
    to the right of the press asks for [nextQuestion] when the card is
    not the last, and the timer it sets then moves the cursor one card
    forward and saves it; more than the threshold to the left, and not
    on the first card, it is [prevQuestion] and one card back. In both
    cases the call completes and the stored progress agrees with the
    game. *)
Theorem swipe_moves_one_card now st book x0 moves x sw :
  session_ok book st → active (game st) = true →
  isDragging sw = false → last moves = Some x →
  let act := (gesture (game st) x0 moves sw).2 in
  (threshold < x - x0 → currentIndex (game st) < len st - 1 →
     act = AnimateSwipeAndAction ToRight NextQuestion
     ∧ animateSwipeAndAction_timeout now NextQuestion st
       = (Ok tt, moved_state now book st (currentIndex (game st) + 1))
     ∧ in_sync (moved_state now book st (currentIndex (game st) + 1)))
  ∧ (x - x0 < - threshold → 0 < currentIndex (game st) →
     act = AnimateSwipeAndAction ToLeft PrevQuestion
     ∧ animateSwipeAndAction_timeout now PrevQuestion st
       = (Ok tt, moved_state now book st (currentIndex (game st) - 1))
     ∧ in_sync (moved_state now book st (currentIndex (game st) - 1))).
Proof.
  intros Hok Hact Hidle Hlast. pose proof Hok as (Hbook & Hpl & Hc).
  cbv zeta. unfold gesture, onStart. rewrite Hact. cbn [negb].
  rewrite foldl_onMove by done. rewrite Hlast.
  unfold onEnd, threshold, len in *.
  cbn [isDragging negb startX currentX default from_option]. unfold id.
  split; intros Hdx Hci.
  - rewrite (proj2 (Z.ltb_lt 100 (Z.abs (x - x0)))) by lia.
    rewrite (proj2 (Z.ltb_lt 0 (x - x0))) by lia.
    rewrite (proj2 (Z.ltb_lt _ _) Hci). split_and!; [done| |].
    + by apply nextQuestion_word.
    + by apply in_sync_moved.
  - rewrite (proj2 (Z.ltb_lt 100 (Z.abs (x - x0)))) by lia.
    rewrite (proj2 (Z.ltb_ge 0 (x - x0))) by lia.
    rewrite (proj2 (Z.ltb_lt _ _) Hci). split_and!; [done| |].
    + by apply prevQuestion_word.
    + by apply in_sync_moved.
Qed.

End SwipeMoves.

(** * Rows and fields of a sheet *)

Lemma split_commas_not_nil s : split_commas s ≠ [].
Proof.
  destruct s as [|c r]; [done|]. cbn.
  destruct (bool_decide _); [done|]. by destruct (split_commas r).
Qed.

Lemma split_lines_not_nil s : split_lines s ≠ [].
Proof.
  destruct s as [|c r]; [done|]. cbn.
  destruct (bool_decide (c = 10%N)); [done|].
  destruct r as [|c' r']; [done|].
  destruct (_ && _); [done|]. by destruct (split_lines (c' :: r')).
Qed.

Lemma split_commas_fields s :
  join_with 44 (split_commas s) = s
  ∧ Forall (fun p => (44%N ∉ p) ∧ p ⊆ s) (split_commas s)
  ∧ length (split_commas s) = S (length (filter (fun c => c = 44%N) s)).
Proof.
  induction s as [|c r (IHj & IHf & IHl)].
  - split_and!; [done| |done]. constructor; [|done].
    split; [apply not_elem_of_nil|done].
  - assert (Forall (fun p => (44%N ∉ p) ∧ p ⊆ (c :: r)) (split_commas r)) as IHf'.
    { eapply Forall_impl; [exact IHf|]. intros l [? Hsub]. split; [done|].
      intros x Hx. right. by apply Hsub. }
    cbn [split_commas]. case_bool_decide as Hc.
    + subst c. split_and!.
      * pose proof (split_commas_not_nil r).
        cbn [join_with]. destruct (split_commas r); [done|]. by rewrite <- IHj.
      * constructor; [|done]. split; [apply not_elem_of_nil|].
        intros x Hx. by apply elem_of_nil in Hx.
      * rewrite filter_cons, decide_True by done. cbn. by rewrite IHl.
    + pose proof (split_commas_not_nil r).
      destruct (split_commas r) as [|l ls]; [done|]. split_and!.
      * rewrite <- IHj. cbn [join_with]. by destruct ls.
      * apply Forall_cons in IHf' as [[Hl Hsub] Hls]. constructor; [|done].
        split.
        -- rewrite not_elem_of_cons. split; [congruence|done].
        -- intros x [->|Hx]%elem_of_cons; [by left|by apply Hsub].
      * rewrite filter_cons, decide_False by done. done.
Qed.

(** X17. [split (",")] cuts a line at its commas and loses nothing:
    joining the fields with commas gives the line back, no field
    contains a comma, and there is one field more than there are commas
    (so at least one, also for the empty line). *)
Theorem split_commas_join s :
  join_with 44 (split_commas s) = s
  ∧ Forall (fun p => 44%N ∉ p) (split_commas s)
  ∧ length (split_commas s) = S (length (filter (fun c => c = 44%N) s)).
Proof.
  destruct (split_commas_fields s) as (Hj & Hf & Hl). split_and!; [done| |done].
  eapply Forall_impl; [exact Hf|]. by intros p [? _].
Qed.

Lemma split_lines_lines s :
  Forall (fun l => (10%N ∉ l) ∧ l ⊆ s) (split_lines s)
  ∧ (13%N ∉ s → join_with 10 (split_lines s) = s).
Proof.
  induction s as [s IH] using (induction_ltof1 _ (@length N)). unfold ltof in IH.
  destruct s as [|c r].
  - split; [|done]. constructor; [|done]. split; [apply not_elem_of_nil|done].
  - assert (Hr : (length r < length (c :: r))%nat) by (cbn; lia).
    destruct (IH r Hr) as [IHf IHj].
    assert (Forall (fun l => (10%N ∉ l) ∧ l ⊆ (c :: r)) (split_lines r)) as IHf'.
    { eapply Forall_impl; [exact IHf|]. intros l [? Hsub]. split; [done|].
      intros x Hx. right. by apply Hsub. }
    cbn [split_lines]. case_bool_decide as Hc.
    + subst c. split.
      * constructor; [|done]. split; [apply not_elem_of_nil|].
        intros x Hx. by apply elem_of_nil in Hx.
      * intros Hcr. apply not_elem_of_cons in Hcr as [_ Hcr].
        pose proof (split_lines_not_nil r). cbn [join_with].
        destruct (split_lines r); [done|]. by rewrite <- IHj.
    + destruct r as [|c' r'].
      * split; [|done]. constructor; [|done]. split; [|done].
        rewrite not_elem_of_cons. split; [congruence|apply not_elem_of_nil].
      * destruct (bool_decide (c = 13%N) && bool_decide (c' = 10%N)) eqn:Hcrlf.
        -- apply andb_true_iff in Hcrlf as [Hc13%bool_decide_eq_true _]. split.
           ++ constructor.
              ** split; [apply not_elem_of_nil|].
                 intros x Hx. by apply elem_of_nil in Hx.
              ** assert (Hr' : (length r' < length (c :: c' :: r'))%nat) by (cbn; lia).
                 destruct (IH r' Hr') as [IHf2 _].
                 eapply Forall_impl; [exact IHf2|]. intros l [? Hsub].
                 split; [done|]. intros x Hx. do 2 right. by apply Hsub.
           ++ intros Hcr. exfalso. apply Hcr. subst c. by left.
        -- pose proof (split_lines_not_nil (c' :: r')).
           destruct (split_lines (c' :: r')) as [|l ls]; [done|]. split.
           ++ apply Forall_cons in IHf' as [[Hl Hsub] Hls]. constructor; [|done].
              split.
              ** rewrite not_elem_of_cons. split; [congruence|done].
              ** intros x [->|Hx]%elem_of_cons; [by left|by apply Hsub].
           ++ intros Hcr. apply not_elem_of_cons in Hcr as [_ Hcr].
              rewrite <- (IHj Hcr). cbn [join_with]. by destruct ls.
Qed.

(** X18. The lines of [split (/\r?\n/)]: there is always at least one,
    none contains a line feed, and every code unit of a line is one of
    the text. In a text without carriage returns nothing is lost:
    joining the lines with line feeds gives the text back. *)
Theorem split_lines_join s :
  split_lines s ≠ []
  ∧ Forall (fun l => (10%N ∉ l) ∧ l ⊆ s) (split_lines s)
  ∧ (13%N ∉ s → join_with 10 (split_lines s) = s).
Proof. split; [apply split_lines_not_nil|apply split_lines_lines]. Qed.

(** ** Trimming *)

Lemma trim_start_suffix s : ∃ p, s = p ++ trim_start s.
Proof.
  induction s as [|c r [p IH]]; [by exists []|]. cbn.
  destruct (is_space c); [|by exists []]. exists (c :: p). cbn. by rewrite <- IH.
Qed.

Lemma trim_start_clean s :
  match trim_start s with c :: _ => is_space c = false | [] => True end.
Proof.
  induction s as [|c r IH]; [done|]. cbn. by destruct (is_space c) eqn:Hc.
Qed.

Lemma trim_start_id s :
  match s with c :: _ => is_space c = false | [] => True end → trim_start s = s.
Proof. destruct s as [|c r]; [done|]. cbn. by intros ->. Qed.

Lemma trim_prefix_suffix s : ∃ p q, trim_start s = trim s ++ q ∧ s = p ++ trim s ++ q.
Proof.
  destruct (trim_start_suffix s) as [p Hp].
  destruct (trim_start_suffix (reverse (trim_start s))) as [q Hq].
  exists p, (reverse q).
  assert (trim_start s = trim s ++ reverse q) as Hu.
  { unfold trim. rewrite <- reverse_app, <- Hq. by rewrite reverse_involutive. }
  split; [done|]. by rewrite <- Hu.
Qed.

Lemma trim_subseteq s : trim s ⊆ s.
Proof.
  destruct (trim_prefix_suffix s) as (p & q & _ & Hs). intros x Hx.
  rewrite Hs, !elem_of_app. tauto.
Qed.

Lemma trim_idemp s : trim (trim s) = trim s.
Proof.
  destruct (trim_prefix_suffix s) as (p & q & Hu & _).
  assert (trim_start (trim s) = trim s) as Hts.
  { apply trim_start_id. pose proof (trim_start_clean s) as Hc.
    rewrite Hu in Hc. by destruct (trim s). }
  unfold trim at 1. rewrite Hts. unfold trim.
  rewrite reverse_involutive. f_equal. apply trim_start_id, trim_start_clean.
Qed.

Lemma trim_blank s : Forall (fun c => is_space c = true) s → trim s = [].
Proof.
  intros Hs. unfold trim. assert (trim_start s = []) as ->.
  { induction Hs as [|c r Hc _ IH]; [done|]. cbn. by rewrite Hc. }
  done.
Qed.

Lemma length_omap_le {A B} (f : A → option B) l : (length (omap f l) ≤ length l)%nat.
Proof.
  induction l as [|x l IH]; [done|]. cbn. destruct (f x); cbn; lia.
Qed.

Section ParsedWords.
Variable toLowerCase : jsstring → jsstring.

Lemma parse_unfold csvText :
  let rows := filter (fun line => trim line ≠ []) (split_lines csvText) in
  parsed_words (parse toLowerCase csvText) = omap row_word (tail rows)
  ∧ title (metadata (parse toLowerCase csvText))
    = match rows with
      | [] => None
      | row :: _ =>
          if bool_decide (first_field row = []) then None
          else if not_header toLowerCase (first_field row)
               then Some (first_field row) else None
      end.
Proof.
  intros rows. unfold parse. fold rows.
  destruct rows as [|row rest]; [done|].
  cbn [forEach_rows tail]. unfold parse_row. cbn [Nat.eqb fst snd].
  fold (first_field row).
  destruct (bool_decide (first_field row = [])); [|destruct (not_header _ _)];
    by rewrite forEach_rows_later.
Qed.

Lemma field_clean line p :
  10%N ∉ line → p ∈ split_commas line →
  trim (trim p) = trim p ∧ (44%N ∉ trim p) ∧ 10%N ∉ trim p.
Proof.
  intros Hlf Hp. destruct (split_commas_fields line) as (_ & Hf & _).
  rewrite Forall_forall in Hf. destruct (Hf p Hp) as [Hcomma Hsub].
  split_and!; [apply trim_idemp| |].
  - intros Hin. by apply Hcomma, trim_subseteq.
  - intros Hin. by apply Hlf, Hsub, trim_subseteq.
Qed.

Lemma row_word_clean line w :
  10%N ∉ line → row_word line = Some w →
  term w ≠ []
  ∧ trim (term w) = term w ∧ trim (zhuyin w) = zhuyin w
  ∧ (44%N ∉ term w) ∧ (10%N ∉ term w) ∧ (44%N ∉ zhuyin w) ∧ 10%N ∉ zhuyin w.
Proof.
  intros Hlf. unfold row_word. case_bool_decide as Hne; [done|].
  intros [= <-]. cbn [term zhuyin]. unfold first_field, second_field in *.
  pose proof (split_commas_not_nil line) as Hnil.
  destruct (split_commas line) as [|p0 ps] eqn:Hparts; [done|]. cbn in Hne |- *.
  destruct (field_clean line p0 Hlf) as (? & ? & ?); [rewrite Hparts; by left|].
  destruct ps as [|p1 ps]; cbn.
  - split_and!; try done; apply not_elem_of_nil.
  - destruct (field_clean line p1 Hlf) as (? & ? & ?);
      [rewrite Hparts; right; by left|].
    by split_and!.
Qed.

(** X19. What [parse] gives is clean. Every word has a term that is
    not empty; its term and its zhuyin carry no white space at either
    end, no comma and no line feed. A title, when there is one, is not
    empty, is trimmed and is not a header. There are fewer words than
    rows that are not blank, and a text of white space alone gives no
    word and no title. *)
Theorem parse_words_clean csvText :
  let result := parse toLowerCase csvText in
  let rows := filter (fun line => trim line ≠ []) (split_lines csvText) in
  Forall (fun w =>
            term w ≠ []
            ∧ trim (term w) = term w ∧ trim (zhuyin w) = zhuyin w
            ∧ (44%N ∉ term w) ∧ (10%N ∉ term w)
            ∧ (44%N ∉ zhuyin w) ∧ 10%N ∉ zhuyin w)
    (parsed_words result)
  ∧ (∀ t, title (metadata result) = Some t →
       t ≠ [] ∧ trim t = t ∧ not_header toLowerCase t = true)
  ∧ (length (parsed_words result) ≤ length rows - 1)%nat
  ∧ (Forall (fun c => is_space c = true) csvText →
     parsed_words result = [] ∧ title (metadata result) = None).
Proof.
  cbv zeta. destruct (parse_unfold csvText) as [-> ->].
  set (rows := filter (fun line => trim line ≠ []) (split_lines csvText)).
  assert (Forall (fun l => 10%N ∉ l) rows) as Hrows.
  { apply Forall_forall. intros l [_ Hl]%list_elem_of_filter.
    destruct (split_lines_lines csvText) as [Hf _].
    rewrite Forall_forall in Hf. by destruct (Hf l Hl). }
  split_and!.
  - apply Forall_forall. intros w Hw.
    apply list_elem_of_omap in Hw as (line & Hline & Hw).
    apply (row_word_clean line); [|done].
    rewrite Forall_forall in Hrows. apply Hrows.
    destruct rows; [by apply elem_of_nil in Hline|by right].
  - destruct rows as [|row rest]; [done|]. intros t.
    case_bool_decide as Hne; [done|].
    destruct (not_header toLowerCase (first_field row)) eqn:Hh; [|done].
    intros [= <-]. split_and!; [done| |done].
    unfold first_field. apply trim_idemp.
  - etrans; [apply length_omap_le|]. destruct rows; cbn; lia.
  - intros Hblank. assert (rows = []) as ->; [|done].
    unfold rows. apply filter_none.
    intros l Hl Hne. apply Hne, trim_blank.
    destruct (split_lines_lines csvText) as [Hf _].
    rewrite Forall_forall in Hf. destruct (Hf l Hl) as [_ Hsub].
    rewrite Forall_forall in Hblank |- *. intros c Hc. by apply Hblank, Hsub.
Qed.

End ParsedWords.

(** * The theme *)

Lemma getStorageKey_not_theme bookId : getStorageKey bookId ≠ k_theme.
Proof. unfold getStorageKey. cbn. discriminate. Qed.

Lemma getStorageKey_not_library bookId : getStorageKey bookId ≠ k_library.
Proof. unfold getStorageKey. cbn. discriminate. Qed.

Lemma stored_theme_insert t ls :
  stored_theme (<[k_theme := t]> ls) = if bool_decide (t = []) then lit "light" else t.
Proof.
  unfold stored_theme. rewrite lookup_insert_eq. cbn [truthy].
  by destruct (bool_decide (t = [])).
Qed.

Lemma toggleTheme_from_light app :
  theme app = lit "light" →
  toggleTheme app = applyTheme (lit "dark") (set_theme (lit "dark") app).
Proof. intros Ht. unfold toggleTheme. by rewrite bool_decide_eq_true_2. Qed.

Lemma toggleTheme_from_other app :
  theme app ≠ lit "light" →
  toggleTheme app = applyTheme (lit "light") (set_theme (lit "light") app).
Proof. intros Ht. unfold toggleTheme. by rewrite bool_decide_eq_false_2. Qed.

Lemma applyTheme_twice t t' app :
  applyTheme t (set_theme t (applyTheme t' (set_theme t' (applyTheme t (set_theme t app)))))
  = applyTheme t (set_theme t app).
Proof.
  unfold applyTheme, set_theme, set_localStorage. cbn. by rewrite !insert_insert_eq.
Qed.

Lemma loadProgress_applyTheme `{JSON} t app bookId :
  loadProgress (localStorage (session (applyTheme t app))) bookId
  = loadProgress (localStorage (session app)) bookId.
Proof.
  apply loadProgress_ext. cbn.
  apply lookup_insert_ne, not_eq_sym, getStorageKey_not_theme.
Qed.

(** X20. [toggleTheme] switches between the two themes and keeps the
    page, the state and the storage in step: afterwards the theme is
    [dark] if it was [light] and [light] in every other case, the
    attribute of the document and the stored theme are that theme (so a
    reload starts with it), the icon names the other theme, and from
    then on two toggles bring everything back. Nothing of the session
    changes but the storage, and there only the entry of the theme: the
    stored progress of every book is as before. *)
Theorem toggleTheme_effects `{JSON} app :
  let app' := toggleTheme app in
  (theme app' = lit "dark" ∧ theme app = lit "light"
   ∨ theme app' = lit "light" ∧ theme app ≠ lit "light")
  ∧ dataTheme app' = Some (theme app')
  ∧ stored_theme (localStorage (session app')) = theme app'
  ∧ themeIcon app'
    = Some (if bool_decide (theme app' = lit "light") then lit "dark_mode"
            else lit "light_mode")
  ∧ toggleTheme (toggleTheme app') = app'
  ∧ session app'
    = set_localStorage (fun ls => <[k_theme := theme app']> ls) (session app)
  ∧ library app' = library app
  ∧ ∀ bookId, loadProgress (localStorage (session app')) bookId
              = loadProgress (localStorage (session app)) bookId.
Proof.
  cbv zeta. destruct (decide (theme app = lit "light")) as [Ht|Ht].
  - rewrite (toggleTheme_from_light app Ht).
    split_and!; [by left|done|apply stored_theme_insert|done| |done|done|].
    + rewrite (toggleTheme_from_other (applyTheme _ _))
        by (intros Heq; cbn in Heq; discriminate).
      rewrite toggleTheme_from_light by done. apply applyTheme_twice.
    + intros bookId. by rewrite loadProgress_applyTheme.
  - rewrite (toggleTheme_from_other app Ht).
    split_and!; [by right|done|apply stored_theme_insert|done| |done|done|].
    + rewrite (toggleTheme_from_light (applyTheme _ _)) by done.
      rewrite toggleTheme_from_other by (intros Heq; cbn in Heq; discriminate).
      apply applyTheme_twice.
    + intros bookId. by rewrite loadProgress_applyTheme.
Qed.

(** * The library *)

Lemma strict_eq_string_true v s : strict_eq_string v s = true ↔ v = VStr s.
Proof.
  destruct v; cbn; try (split; [done|discriminate]).
  rewrite bool_decide_eq_true. split; [by intros ->|by intros [= ->]].
Qed.

Lemma field_set_field_eq name v fields : field name (set_field name v fields) = Some v.
Proof.
  induction fields as [|[k x] rest IH]; cbn.
  - by rewrite bool_decide_eq_true_2.
  - case_bool_decide as Hk; cbn; [by rewrite bool_decide_eq_true_2|].
    by rewrite bool_decide_eq_false_2.
Qed.

Lemma field_set_field_ne name name' v fields :
  name' ≠ name → field name' (set_field name v fields) = field name' fields.
Proof.
  intros Hne. induction fields as [|[k x] rest IH]; cbn.
  - by rewrite bool_decide_eq_false_2.
  - case_bool_decide as Hk; cbn.
    + subst k. by rewrite !bool_decide_eq_false_2 by done.
    + by rewrite IH.
Qed.

Lemma meta_prop_object fields name :
  meta_prop (VObj fields) name = default VUndefined (field name fields).
Proof. reflexivity. Qed.

Lemma meta_prop_set_prop_eq name v b :
  is_object b → meta_prop (set_prop name v b) name = v.
Proof.
  intros [fields ->]. cbn [set_prop]. by rewrite meta_prop_object, field_set_field_eq.
Qed.

Lemma meta_prop_set_prop_ne name name' v b :
  name' ≠ name → meta_prop (set_prop name v b) name' = meta_prop b name'.
Proof.
  intros Hne. destruct b; try done. cbn [set_prop].
  by rewrite !meta_prop_object, field_set_field_ne.
Qed.

Lemma is_object_set_prop name v b : is_object b → is_object (set_prop name v b).
Proof. intros [fields ->]. by eexists. Qed.

Lemma meta_prop_id_object b id : meta_prop b k_id = VStr id → is_object b.
Proof. destruct b; try done. intros _. by eexists. Qed.

Lemma meta_prop_get b name v : get_prop b name = Ok v → meta_prop b name = v.
Proof. unfold meta_prop. by intros ->. Qed.

Lemma find_by_id_Some items id i j :
  find_by_id items id i = Ok (Some j) →
  ∃ k b, j = (i + k)%nat ∧ items !! k = Some b ∧ meta_prop b k_id = VStr id
    ∧ ∀ k' b', (k' < k)%nat → items !! k' = Some b' → meta_prop b' k_id ≠ VStr id.
Proof.
  revert i. induction items as [|b rest IH]; intros i; cbn [find_by_id]; [done|].
  destruct (get_prop b k_id) as [v|e] eqn:Hv; [|done].
  apply meta_prop_get in Hv.
  destruct (strict_eq_string v id) eqn:Heq.
  - intros [= <-]. apply strict_eq_string_true in Heq. subst v.
    exists 0%nat, b. split_and!; [lia|done|done|]. intros; lia.
  - intros Hrest. destruct (IH _ Hrest) as (k & b0 & Hj & Hk & Hid & Hbefore).
    exists (S k), b0. split_and!; [lia|done|done|].
    intros [|k'] b' Hlt; cbn.
    + intros [= <-]. rewrite Hv. intros ->. 
      assert (strict_eq_string (VStr id) id = true) by by apply strict_eq_string_true.
      congruence.
    + apply Hbefore. lia.
Qed.

Lemma find_by_id_None items id i :
  find_by_id items id i = Ok None →
  Forall (fun b => meta_prop b k_id ≠ VStr id) items.
Proof.
  revert i. induction items as [|b rest IH]; intros i; cbn [find_by_id]; [done|].
  destruct (get_prop b k_id) as [v|e] eqn:Hv; [|done].
  apply meta_prop_get in Hv.
  destruct (strict_eq_string v id) eqn:Heq; [done|].
  intros Hrest%IH. constructor; [|done].
  rewrite Hv. intros ->.
  assert (strict_eq_string (VStr id) id = true) by by apply strict_eq_string_true.
  congruence.
Qed.

Lemma find_by_id_objects items id i :
  Forall is_object items → ∃ r, find_by_id items id i = Ok r.
Proof.
  intros Hobj. revert i.
  induction Hobj as [|b rest [fields ->] _ IH]; intros i; cbn [find_by_id].
  - by eexists.
  - destruct (get_prop (VObj fields) k_id) as [v|e] eqn:Hv; [|done].
    destruct (strict_eq_string v id); [by eexists|apply IH].
Qed.

Lemma meta_prop_extractMeta d :
  meta_prop (extractMeta d) k_id = VStr (d_id d)
  ∧ meta_prop (extractMeta d) k_title = VStr (d_title d)
  ∧ meta_prop (extractMeta d) k_sourceType = VStr (sourceType_of (d_source d))
  ∧ (truthy (url_of (d_source d)) = true →
     meta_prop (extractMeta d) k_url = url_of (d_source d)).
Proof.
  split_and!; try reflexivity. intros Hurl.
  change (meta_prop (extractMeta d) k_url)
    with (if truthy (url_of (d_source d)) then url_of (d_source d) else VNull).
  by rewrite Hurl.
Qed.

Lemma merged_nil items : Forall is_object items → merged [] items items.
Proof.
  intros Hobj. split_and!; [done| | |].
  - intros k b Hk. by exists b.
  - intros d Hd. by apply elem_of_nil in Hd.
  - intros k b' Hle Hk. apply lookup_lt_Some in Hk. lia.
Qed.

Lemma merged_step d items :
  Forall is_object items →
  ∃ items', merge_default d (VArr items) = (Ok tt, VArr items')
    ∧ merged [d] items items'.
Proof.
  intros Hobj. unfold merge_default.
  destruct (find_by_id_objects items (d_id d) 0 Hobj) as [[j|] Hfind]; rewrite Hfind.
  - apply find_by_id_Some in Hfind as (k & b & -> & Hk & Hid & _). cbn [Nat.add].
    eexists. split; [done|].
    set (f := fun b => set_prop k_sourceType (VStr (sourceType_of (d_source d)))
                         (set_prop k_url (url_of (d_source d)) b)).
    assert (Hf : ∀ x name, name ≠ k_url → name ≠ k_sourceType →
                   meta_prop (f x) name = meta_prop x name).
    { intros x name Hu Hs. unfold f.
      by rewrite !meta_prop_set_prop_ne. }
    split_and!.
    + apply Forall_alter; [done|]. intros x Hx Hox. unfold f.
      by do 2 apply is_object_set_prop.
    + intros k0 b0 Hk0. destruct (decide (k0 = k)) as [->|Hne].
      * exists (f b0). rewrite list_lookup_alter, Hk0, decide_True by done.
        split_and!; [done|by apply Hf..|].
        intros Hno. exfalso. apply (Hno d); [by left|]. congruence.
      * exists b0. rewrite list_lookup_alter_ne by done. by split_and!.
    + intros d0 ->%list_elem_of_singleton. exists k, (f b).
      rewrite list_lookup_alter, Hk, decide_True by done. split_and!; [done| | |].
      * by rewrite Hf.
      * unfold f. apply meta_prop_set_prop_eq, is_object_set_prop.
        by eapply meta_prop_id_object.
      * intros _. unfold f. rewrite meta_prop_set_prop_ne by done.
        apply meta_prop_set_prop_eq. by eapply meta_prop_id_object.
    + intros k0 b' Hle Hk0. apply lookup_lt_Some in Hk0.
      rewrite length_alter in Hk0. lia.
  - apply find_by_id_None in Hfind. eexists. split; [done|]. split_and!.
    + apply Forall_app. split; [done|]. constructor; [by eexists|done].
    + intros k b Hk. exists b. rewrite lookup_app_l by (by eapply lookup_lt_Some).
      by split_and!.
    + intros d0 ->%list_elem_of_singleton. exists (length items), (extractMeta d).
      rewrite list_lookup_middle by done.
      destruct (meta_prop_extractMeta d) as (? & ? & ? & ?). by split_and!.
    + intros k b' Hle Hk. exists d.
      assert (k = length items) as ->.
      { apply lookup_lt_Some in Hk. rewrite length_app in Hk. cbn in Hk. lia. }
      rewrite list_lookup_middle in Hk by done. injection Hk as <-.
      split_and!; [by left|done|done].
Qed.

Lemma merged_cons d ds items items1 items' :
  d_id d ∉ d_id <$> ds →
  merged [d] items items1 → merged ds items1 items' →
  merged (d :: ds) items items'.
Proof.
  intros Hfresh (Hobj1 & Hkeep1 & Hhas1 & Hnew1) (Hobj & Hkeep & Hhas & Hnew).
  assert (Hother : ∀ b, meta_prop b k_id = VStr (d_id d) →
            ∀ d', d' ∈ ds → meta_prop b k_id ≠ VStr (d_id d')).
  { intros b Hb d' Hd' Heq. apply Hfresh. rewrite Hb in Heq. injection Heq as ->.
    apply list_elem_of_fmap. by exists d'. }
  split_and!; [done| | |].
  - intros k b Hk.
    destruct (Hkeep1 k b Hk) as (b1 & Hk1 & Hid1 & Ht1 & Hc1 & Hsame1).
    destruct (Hkeep k b1 Hk1) as (b' & Hk' & Hid & Ht & Hc & Hsame).
    exists b'. split_and!; [done|congruence..|].
    intros Hno. rewrite Hsame, Hsame1; [done| |].
    + intros d0 ->%list_elem_of_singleton. apply Hno. by left.
    + intros d0 Hd0. rewrite Hid1. apply Hno. by right.
  - intros d0 [->|Hd0]%elem_of_cons; [|by apply Hhas].
    destruct (Hhas1 d) as (k & b1 & Hk1 & Hid1 & Hs1 & Hu1); [by left|].
    destruct (Hkeep k b1 Hk1) as (b' & Hk' & _ & _ & _ & Hsame).
    assert (b' = b1) as -> by (by apply Hsame, Hother).
    by exists k, b1.
  - intros k b' Hle Hk'.
    destruct (decide (k < length items1)%nat) as [Hlt|Hge].
    + destruct (lookup_lt_is_Some_2 items1 k Hlt) as [b1 Hk1].
      destruct (Hnew1 k b1 Hle Hk1) as (d0 & ->%list_elem_of_singleton & -> & Hall).
      destruct (Hkeep k _ Hk1) as (b'' & Hk'' & _ & _ & _ & Hsame).
      rewrite Hk' in Hk''. injection Hk'' as <-.
      exists d. split_and!; [by left| |done].
      apply Hsame, Hother. apply meta_prop_extractMeta.
    + destruct (Hnew k b') as (d0 & Hd0 & -> & Hall); [lia|done|].
      exists d0. split_and!; [by right|done|].
      apply Forall_lookup. intros j b Hj.
      destruct (Hkeep1 j b Hj) as (b1 & Hj1 & Hid1 & _).
      rewrite <- Hid1. rewrite Forall_lookup in Hall. by apply (Hall j).
Qed.

Lemma merge_defaults_objects ds items :
  Forall is_object items → NoDup (d_id <$> ds) →
  ∃ items', merge_defaults ds (VArr items) = (Ok tt, VArr items')
    ∧ merged ds items items'.
Proof.
  revert items. induction ds as [|d ds IH]; intros items Hobj Hnd.
  - exists items. split; [done|by apply merged_nil].
  - rewrite fmap_cons in Hnd. apply NoDup_cons in Hnd as [Hfresh Hnd].
    destruct (merged_step d items Hobj) as (items1 & Hrun1 & Hm1).
    destruct (IH items1) as (items' & Hrun & Hm); [by destruct Hm1|done|].
    exists items'. cbn [merge_defaults]. rewrite Hrun1. split; [done|].
    by eapply merged_cons.
Qed.

Lemma jsonify_extractMeta d : json_elem (extractMeta d) = extractMeta d.
Proof.
  unfold extractMeta. destruct (d_source d) as [ws|url]; cbn; [done|].
  by destruct (bool_decide (url = [])).
Qed.

Lemma jsonify_metas ds :
  jsonify (VArr (extractMeta <$> ds)) = VArr (extractMeta <$> ds).
Proof.
  rewrite jsonify_array. f_equal.
  induction ds as [|d ds IH]; [done|]. by rewrite !fmap_cons, jsonify_extractMeta, IH.
Qed.

Section LibraryInit.
Context `{JSON}.
Variable defaultLibrary : list DefaultBook.

Lemma loadProgress_LibraryManager_save app bookId :
  loadProgress (localStorage (session (LibraryManager_save app))) bookId
  = loadProgress (localStorage (session app)) bookId.
Proof.
  apply loadProgress_ext. cbn.
  apply lookup_insert_ne, not_eq_sym, getStorageKey_not_library.
Qed.

Lemma LibraryManager_init_fresh app :
  (localStorage (session app) !! k_library = None
   ∨ localStorage (session app) !! k_library = Some []) →
  LibraryManager_init defaultLibrary app
  = (Ok tt, LibraryManager_save
              (set_library (VArr (extractMeta <$> defaultLibrary)) app)).
Proof. unfold LibraryManager_init. by intros [-> | ->]. Qed.

(** X21. The first start. With no library stored (or an empty string
    stored) [LibraryManager.init] completes, makes the library the metas
    of the books of data.js, in their order, and stores it, so that what
    is stored parses back to the library itself. Nothing else of the
    application changes, and the stored progress of every book is as
    before. *)
Theorem LibraryManager_init_first_run app :
  (localStorage (session app) !! k_library = None
   ∨ localStorage (session app) !! k_library = Some []) →
  let metas := VArr (extractMeta <$> defaultLibrary) in
  let r := LibraryManager_init defaultLibrary app in
  r.1 = Ok tt
  ∧ library r.2 = metas
  ∧ (∃ stored, localStorage (session r.2) !! k_library = Some stored
               ∧ JSON_parse stored = Some metas)
  ∧ r.2 = LibraryManager_save (set_library metas app)
  ∧ ∀ bookId, loadProgress (localStorage (session r.2)) bookId
              = loadProgress (localStorage (session app)) bookId.
Proof.
  intros Hnone. cbv zeta. rewrite LibraryManager_init_fresh by done. cbn [fst snd].
  split_and!; [done|done| |done|].
  - eexists. split; [apply lookup_insert_eq|]. cbn [library set_library].
    by rewrite JSON_parse_stringify, jsonify_metas.
  - intros bookId. by rewrite loadProgress_LibraryManager_save.
Qed.

(** X22. A later start. When the stored library parses to an array of
    objects and the books of data.js have distinct ids,
    [LibraryManager.init] completes and stores the merged library:
    every stored entry stays where it is with its id, its title and its
    count (an entry that is none of the defaults stays as a whole);
    every book of data.js is in the library, with the source type and
    the url of data.js; and what comes after the stored entries are the
    metas of the defaults that no stored entry had the id of. *)
Theorem LibraryManager_init_merges app stored items :
  localStorage (session app) !! k_library = Some stored →
  JSON_parse stored = Some (VArr items) →
  Forall is_object items →
  NoDup (d_id <$> defaultLibrary) →
  ∃ items',
    LibraryManager_init defaultLibrary app
    = (Ok tt, LibraryManager_save (set_library (VArr items') app))
    ∧ merged defaultLibrary items items'.
Proof.
  intros Hls Hparse Hobj Hnd.
  destruct (merge_defaults_objects defaultLibrary items Hobj Hnd)
    as (items' & Hrun & Hm).
  exists items'. split; [|done].
  unfold LibraryManager_init. rewrite Hls.
  destruct stored as [|c stored]; [by rewrite JSON_parse_empty in Hparse|].
  cbn [truthy]. rewrite bool_decide_eq_false_2 by done. cbn [negb].
  by rewrite Hparse, Hrun.
Qed.

Lemma merge_defaults_not_array d ds lib :
  isArray lib = false → merge_defaults (d :: ds) lib = (Throw TypeError, lib).
Proof. intros Harr. cbn. by destruct lib. Qed.

(** X23. A stored library that is damaged stops the start, again at
    every reload. If the stored text is not JSON, [LibraryManager.init]
    raises [SyntaxError] and changes nothing. If it is JSON but not an
    array (and data.js is not empty), or an array whose first element is
    [null], the call raises [TypeError] with the parsed value already
    installed as the library. In each case the storage is as before, so
    that the same exception is raised on any later start that finds this
    storage. *)
Theorem LibraryManager_init_damaged app stored :
  localStorage (session app) !! k_library = Some stored → stored ≠ [] →
  (JSON_parse stored = None →
     LibraryManager_init defaultLibrary app = (Throw SyntaxError, app))
  ∧ (∀ lib, JSON_parse stored = Some lib → defaultLibrary ≠ [] →
       isArray lib = false ∨ (∃ rest, lib = VArr (VNull :: rest)) →
       LibraryManager_init defaultLibrary app = (Throw TypeError, set_library lib app))
  ∧ (∀ e app', (LibraryManager_init defaultLibrary app).1 = Throw e →
       localStorage (session (LibraryManager_init defaultLibrary app).2)
       = localStorage (session app)
       ∧ (localStorage (session app') = localStorage (session app) →
          (LibraryManager_init defaultLibrary app').1 = Throw e)).
Proof.
  intros Hls Hne.
  assert (truthy (VStr stored) = true) as Htrue.
  { cbn. by rewrite bool_decide_eq_false_2. }
  split_and!.
  - intros Hparse. unfold LibraryManager_init. by rewrite Hls, Htrue, Hparse.
  - intros lib Hparse Hds Hbad. unfold LibraryManager_init.
    rewrite Hls, Htrue, Hparse.
    destruct defaultLibrary as [|d ds]; [done|].
    destruct Hbad as [Harr|[rest ->]].
    + by rewrite merge_defaults_not_array.
    + reflexivity.
  - intros e app'. unfold LibraryManager_init. rewrite Hls, Htrue.
    destruct (JSON_parse stored) as [lib|] eqn:Hparse.
    + destruct (merge_defaults defaultLibrary lib) as [[[]|e'] lib'] eqn:Hrun;
        cbn [fst snd]; [done|].
      intros [= ->]. split; [done|]. intros ->. by rewrite Hls, Htrue, Hparse, Hrun.
    + cbn [fst snd]. intros [= <-]. split; [done|]. intros ->.
      by rewrite Hls, Htrue, Hparse.
Qed.

End LibraryInit.

(** ** Loading a book *)

Lemma count_differs_false meta n :
  count_differs meta n = false ↔ meta_prop meta k_count = VNum n.
Proof.
  unfold count_differs. destruct (meta_prop meta k_count); try (split; [done|discriminate]).
  rewrite negb_false_iff, bool_decide_eq_true. split; [by intros ->|by intros [= ->]].
Qed.

Lemma title_differs_false meta t :
  title_differs meta t = false ↔ meta_prop meta k_title = VStr t.
Proof. unfold title_differs. by rewrite negb_false_iff, strict_eq_string_true. Qed.

Lemma find_by_id_insert items id i0 k b b' :
  find_by_id items id i0 = Ok (Some (i0 + k)%nat) →
  items !! k = Some b → meta_prop b' k_id = VStr id →
  find_by_id (<[k := b']> items) id i0 = Ok (Some (i0 + k)%nat).
Proof.
  revert i0 k. induction items as [|x rest IH]; intros i0 k; [done|].
  cbn [find_by_id]. destruct k as [|k]; cbn.
  - intros _ _ Hid. pose proof (meta_prop_id_object _ _ Hid) as [fields ->].
    unfold meta_prop in Hid.
    destruct (get_prop (VObj fields) k_id) as [v|e]; [|done]. subst v.
    by rewrite (proj2 (strict_eq_string_true _ _) eq_refl), Nat.add_0_r.
  - destruct (get_prop x k_id) as [v|e]; [|done].
    destruct (strict_eq_string v id).
    + intros [= Heq]. lia.
    + intros Hfind Hk Hid. replace (i0 + S k)%nat with (S i0 + k)%nat in * by lia.
      by apply IH.
Qed.

Lemma set_library_id app : set_library (library app) app = app.
Proof. by destruct app. Qed.

Section LoadBook.
Context `{JSON}.
Variable toLowerCase : jsstring → jsstring.
Variable defaultLibrary : list DefaultBook.

Lemma local_default_Some bookId d ws :
  local_default defaultLibrary bookId = Some (d, ws) →
  d ∈ defaultLibrary ∧ d_id d = bookId ∧ d_source d = Local ws.
Proof.
  unfold local_default.
  destruct (list_find _ defaultLibrary) as [[j d0]|] eqn:Hfind; [|done].
  apply list_find_Some in Hfind as (Hj & [Hid _] & _). cbn.
  destruct (d_source d0) as [ws0|url] eqn:Hsrc; [|done].
  intros [= <- <-]. split_and!; [|done|done]. by eapply list_elem_of_lookup_2.
Qed.

(** X24. Without a response, because the request failed or was answered
    with an error status, [loadBook] changes neither the library nor the
    storage, and what it answers is settled by the entry of the library
    with the id asked for. For an id without an entry it answers [null]
    and changes nothing. For a local book of data.js it answers the book
    of the words of data.js, under the title of the entry, and changes
    nothing. For a sheet it shows the notice and answers [null], and
    that is the only notice it ever shows. For an entry that is neither,
    it answers [null] and changes nothing. *)
Theorem loadBook_offline app bookId :
  let r := loadBook toLowerCase defaultLibrary None bookId app in
  library r.2 = library app
  ∧ localStorage (session r.2) = localStorage (session app)
  ∧ (r.2 = app ∨ r.1 = Ok None ∧ r.2 = set_session (add_alert csv_notice) app)
  ∧ (∀ book, r.1 = Ok (Some book) →
       r.2 = app ∧ book_id book = bookId
       ∧ ∃ d, d ∈ defaultLibrary ∧ d_id d = bookId ∧ d_source d = Local (words book))
  ∧ (∀ items, library app = VArr items → find_by_id items bookId 0 = Ok None →
       r = (Ok None, app))
  ∧ (∀ items i meta,
       library app = VArr items → find_by_id items bookId 0 = Ok (Some i) →
       items !! i = Some meta →
       (∀ d ws, local_default defaultLibrary bookId = Some (d, ws) →
          r = (Ok (Some {| book_id := bookId;
                           book_title := title_text (meta_prop meta k_title);
                           words := ws |}), app))
       ∧ (local_default defaultLibrary bookId = None →
          meta_prop meta k_sourceType = VStr (lit "csv") →
          r = (Ok None, set_session (add_alert csv_notice) app))
       ∧ (local_default defaultLibrary bookId = None →
          meta_prop meta k_sourceType ≠ VStr (lit "csv") →
          r = (Ok None, app))).
Proof.
  cbv zeta. split_and!.
  - unfold loadBook.
    destruct (library app) as [| | | | |items|] eqn:Hlib; try done.
    destruct (find_by_id items bookId 0) as [[i|]|e]; try done.
    destruct (local_default defaultLibrary bookId) as [[d ws]|]; [done|].
    by destruct (strict_eq_string _ _).
  - unfold loadBook.
    destruct (library app) as [| | | | |items|] eqn:Hlib; try done.
    destruct (find_by_id items bookId 0) as [[i|]|e]; try done.
    destruct (local_default defaultLibrary bookId) as [[d ws]|]; [done|].
    by destruct (strict_eq_string _ _).
  - unfold loadBook.
    destruct (library app) as [| | | | |items|] eqn:Hlib; try by left.
    destruct (find_by_id items bookId 0) as [[i|]|e]; try by left.
    destruct (local_default defaultLibrary bookId) as [[d ws]|]; [by left|].
    destruct (strict_eq_string _ _); [by right|by left].
  - unfold loadBook.
    destruct (library app) as [| | | | |items|] eqn:Hlib; try done.
    destruct (find_by_id items bookId 0) as [[i|]|e]; try done.
    destruct (local_default defaultLibrary bookId) as [[d ws]|] eqn:Hlocal.
    + apply local_default_Some in Hlocal as (Hd & Hid & Hsrc). cbn [fst snd].
      intros book [= <-]. cbn. split_and!; [done|done|]. by exists d.
    + by destruct (strict_eq_string _ _).
  - intros items Hlib Hfind. unfold loadBook. by rewrite Hlib, Hfind.
  - intros items i meta Hlib Hfind Hi. unfold loadBook. rewrite Hlib, Hfind, Hi.
    cbn [default from_option]. unfold id. split_and!.
    + intros d ws Hlocal. rewrite Hlocal.
      apply local_default_Some in Hlocal as (_ & -> & _). done.
    + intros Hlocal Hcsv. rewrite Hlocal, Hcsv.
      by rewrite (proj2 (strict_eq_string_true _ _) eq_refl).
    + intros Hlocal Hcsv. rewrite Hlocal.
      destruct (strict_eq_string _ _) eqn:Heq; [|done].
      by apply strict_eq_string_true in Heq.
Qed.

Lemma loadBook_csv_unfold app bookId text items i meta :
  library app = VArr items →
  find_by_id items bookId 0 = Ok (Some i) →
  items !! i = Some meta →
  local_default defaultLibrary bookId = None →
  meta_prop meta k_sourceType = VStr (lit "csv") →
  let result := parse toLowerCase text in
  let n := Z.of_nat (length (parsed_words result)) in
  let meta1 := if count_differs meta n then set_prop k_count (VNum n) meta else meta in
  let changes := match title (metadata result) with
                 | Some t => truthy (VStr t) && title_differs meta1 t
                 | None => false
                 end in
  let meta2 := match title (metadata result) with
               | Some t => if truthy (VStr t) && title_differs meta1 t
                           then set_prop k_title (VStr t) meta1 else meta1
               | None => meta1
               end in
  let app1 := set_library (VArr (<[i := meta2]> items)) app in
  loadBook toLowerCase defaultLibrary (Some text) bookId app
  = (Ok (Some {| book_id := bookId;
                 book_title := title_text (meta_prop meta2 k_title);
                 words := parsed_words result |}),
     if count_differs meta n || changes then LibraryManager_save app1 else app1).
Proof.
  intros Hlib Hfind Hi Hlocal Hcsv. cbv zeta. unfold loadBook.
  rewrite Hlib, Hfind, Hlocal, Hi. cbn [default from_option]. unfold id.
  rewrite Hcsv. rewrite (proj2 (strict_eq_string_true _ _) eq_refl).
  reflexivity.
Qed.

(** X25. With the text of its sheet, [loadBook] answers the book of the
    words parsed from it and brings the entry of the library up to
    date: its count becomes the number of words and its title the title
    of the sheet, if the sheet has one; nothing else of the entry and no
    other entry changes. The library is stored exactly when the entry
    has changed; otherwise nothing at all is written. Loading the same
    text once more changes nothing and answers the same book. *)
Theorem loadBook_syncs app bookId text items i meta :
  library app = VArr items →
  find_by_id items bookId 0 = Ok (Some i) →
  items !! i = Some meta →
  local_default defaultLibrary bookId = None →
  meta_prop meta k_sourceType = VStr (lit "csv") →
  let result := parse toLowerCase text in
  let r := loadBook toLowerCase defaultLibrary (Some text) bookId app in
  ∃ meta',
    (∃ t, r.1 = Ok (Some {| book_id := bookId; book_title := t;
                            words := parsed_words result |}))
    ∧ library r.2 = VArr (<[i := meta']> items)
    ∧ meta_prop meta' k_count = VNum (Z.of_nat (length (parsed_words result)))
    ∧ meta_prop meta' k_title
      = match title (metadata result) with
        | Some t => VStr t
        | None => meta_prop meta k_title
        end
    ∧ (∀ name, name ≠ k_count → name ≠ k_title →
         meta_prop meta' name = meta_prop meta name)
    ∧ (meta' = meta → r.2 = app)
    ∧ (meta' ≠ meta →
       r.2 = LibraryManager_save (set_library (VArr (<[i := meta']> items)) app))
    ∧ loadBook toLowerCase defaultLibrary (Some text) bookId r.2 = r.
Proof.
  intros Hlib Hfind Hi Hlocal Hcsv. cbv zeta.
  rewrite (loadBook_csv_unfold app bookId text items i meta) by done. cbv zeta.
  set (result := parse toLowerCase text).
  set (n := Z.of_nat (length (parsed_words result))).
  set (meta1 := if count_differs meta n then set_prop k_count (VNum n) meta else meta).
  set (changes := match title (metadata result) with
                  | Some t => truthy (VStr t) && title_differs meta1 t
                  | None => false
                  end).
  set (meta2 := match title (metadata result) with
                | Some t => if truthy (VStr t) && title_differs meta1 t
                            then set_prop k_title (VStr t) meta1 else meta1
                | None => meta1
                end).
  assert (Hid : meta_prop meta k_id = VStr bookId).
  { apply find_by_id_Some in Hfind as (k & b & -> & Hk & Hb & _). cbn in Hi.
    congruence. }
  pose proof (meta_prop_id_object _ _ Hid) as Hobj.
  assert (Hobj1 : is_object meta1).
  { unfold meta1. destruct (count_differs meta n); [by apply is_object_set_prop|done]. }
  assert (Hcount1 : meta_prop meta1 k_count = VNum n).
  { unfold meta1. destruct (count_differs meta n) eqn:Hc.
    - by apply meta_prop_set_prop_eq.
    - by apply count_differs_false. }
  assert (Hother1 : ∀ name, name ≠ k_count → meta_prop meta1 name = meta_prop meta name).
  { intros name Hne. unfold meta1.
    destruct (count_differs meta n); [by apply meta_prop_set_prop_ne|done]. }
  assert (Htitle_ne : ∀ t, title (metadata result) = Some t → truthy (VStr t) = true).
  { intros t Ht. destruct (parse_unfold toLowerCase text) as [_ Htitle].
    fold result in Htitle. rewrite Ht in Htitle.
    destruct (filter _ _) as [|row rows]; [done|].
    case_bool_decide as Hne; [done|]. destruct (not_header _ _); [|done].
    injection Htitle as ->. cbn. by rewrite bool_decide_eq_false_2. }
  assert (Hcount2 : meta_prop meta2 k_count = VNum n).
  { unfold meta2. destruct (title (metadata result)) as [t|]; [|done].
    destruct (_ && _); [|done]. by rewrite meta_prop_set_prop_ne. }
  assert (Htitle2 : meta_prop meta2 k_title
                    = match title (metadata result) with
                      | Some t => VStr t
                      | None => meta_prop meta k_title
                      end).
  { unfold meta2. destruct (title (metadata result)) as [t|] eqn:Ht.
    - rewrite (Htitle_ne t eq_refl). cbn [andb].
      destruct (title_differs meta1 t) eqn:Hd.
      + by apply meta_prop_set_prop_eq.
      + by apply title_differs_false.
    - by apply Hother1. }
  assert (Hother2 : ∀ name, name ≠ k_count → name ≠ k_title →
                      meta_prop meta2 name = meta_prop meta name).
  { intros name Hc Ht. rewrite <- (Hother1 name Hc). unfold meta2.
    destruct (title (metadata result)) as [t|]; [|done].
    destruct (_ && _); [|done]. by rewrite meta_prop_set_prop_ne. }
  assert (Hsame : count_differs meta n || changes = false → meta2 = meta).
  { intros [Hc Hch]%orb_false_iff. unfold changes in Hch. unfold meta2.
    assert (meta1 = meta) as Hm1 by (unfold meta1; by rewrite Hc).
    rewrite Hm1 in *. destruct (title (metadata result)) as [t|]; [|done].
    by rewrite Hch. }
  assert (Hdiff : count_differs meta n || changes = true → meta2 ≠ meta).
  { intros [Hc|Hch]%orb_true_iff Heq.
    - assert (count_differs meta n = false) as Hc'
        by (apply count_differs_false; by rewrite <- Heq).
      congruence.
    - unfold changes in Hch. destruct (title (metadata result)) as [t|] eqn:Ht; [|done].
      apply andb_true_iff in Hch as [_ Hd].
      assert (title_differs meta1 t = false) as Hd'; [|congruence].
      apply title_differs_false. rewrite Hother1 by done. by rewrite <- Heq, Htitle2. }
  exists meta2. cbn [fst snd]. split_and!.
  - by eexists.
  - by destruct (_ || _).
  - done.
  - done.
  - done.
  - intros Heq. destruct (count_differs meta n || changes) eqn:Hsave.
    + by destruct (Hdiff eq_refl).
    + rewrite Heq, list_insert_id by done. rewrite <- Hlib. apply set_library_id.
  - intros Hne. destruct (count_differs meta n || changes) eqn:Hsave; [done|].
    exfalso. by apply Hne, Hsame.
  - set (app2 := if count_differs meta n || changes
                 then LibraryManager_save (set_library (VArr (<[i := meta2]> items)) app)
                 else set_library (VArr (<[i := meta2]> items)) app).
    assert (Hlib2 : library app2 = VArr (<[i := meta2]> items))
      by (unfold app2; by destruct (_ || _)).
    rewrite (loadBook_csv_unfold app2 bookId text (<[i := meta2]> items) i meta2).
    + cbv zeta. fold result. fold n.
      rewrite (proj2 (count_differs_false meta2 n) Hcount2). cbn [orb].
      assert (match title (metadata result) with
              | Some t => truthy (VStr t) && title_differs meta2 t
              | None => false
              end = false) as Hno.
      { destruct (title (metadata result)) as [t|]; [|done].
        by rewrite (proj2 (title_differs_false meta2 t) Htitle2), andb_false_r. }
      rewrite Hno.
      assert (match title (metadata result) with
              | Some t => if truthy (VStr t) && title_differs meta2 t
                          then set_prop k_title (VStr t) meta2 else meta2
              | None => meta2
              end = meta2) as ->.
      { destruct (title (metadata result)) as [t|]; [|done].
        by rewrite (proj2 (title_differs_false meta2 t) Htitle2), andb_false_r. }
      rewrite list_insert_insert_eq, <- Hlib2, set_library_id. done.
    + done.
    + replace i with (0 + i)%nat by lia. eapply find_by_id_insert; [done..|].
      by rewrite Hother2.
    + apply list_lookup_insert_eq. by eapply lookup_lt_Some.
    + done.
    + by rewrite Hother2.
Qed.

End LoadBook.

(** ** Opening a book *)

Section OpenBook.
Context `{JSON}.
Variable toLowerCase : jsstring → jsstring.
Variable defaultLibrary : list DefaultBook.

Lemma updateWelcomeUI_absent bookId st book :
  activeBook st = Some book →
  loadProgress (localStorage st) bookId = Ok VNull →
  updateWelcomeUI bookId st
  = (Ok tt, set_dom (set_resumeBtnShown false)
              (set_dom (set_selection_ui 0) (set_selectedIndices [] st))).
Proof.
  intros Hbook Hload. destruct st as [ab sel g ls d al]. cbn in Hbook, Hload. subst ab.
  unfold updateWelcomeUI, bind, get, lift, ret, modify. cbn. rewrite Hload. reflexivity.
Qed.

Lemma updateWelcomeUI_record bookId st book pl c sel t :
  activeBook st = Some book →
  loadProgress (localStorage st) bookId = Ok (progress_record pl c sel t) →
  updateWelcomeUI bookId st
  = (Ok tt, set_dom (set_resumeBtnShown true)
              (set_dom (set_selection_ui (Z.of_nat (length (foldl set_add [] sel))))
                 (set_selectedIndices (foldl set_add [] sel) st))).
Proof.
  intros Hbook Hload. destruct st as [ab sel0 g ls d al]. cbn in Hbook, Hload. subst ab.
  unfold updateWelcomeUI, bind, get, lift, ret, modify. cbn. rewrite Hload.
  rewrite truthy_progress_record, get_prop_record_originalIndices. reflexivity.
Qed.

(** X26. Opening a book. When [loadBook] answers no book, [openBook]
    changes nothing beyond what [loadBook] did. When it answers a book,
    [openBook] makes it the open book, with the view on the board, and
    shows the welcome screen in the state of the stored progress:
    without valid progress for the book the selection is empty, the
    start button disabled and the resume button hidden; with a stored
    session the selection is the one of that session, the counter shows
    its size and the resume button is shown. The game and the storage
    are not touched. *)
Theorem openBook_opens response bookId app app1 :
  (loadBook toLowerCase defaultLibrary response bookId app = (Ok None, app1) →
   openBook toLowerCase defaultLibrary response bookId app = (Ok tt, app1))
  ∧ ∀ book,
      loadBook toLowerCase defaultLibrary response bookId app = (Ok (Some book), app1) →
      let r := openBook toLowerCase defaultLibrary response bookId app in
      let st1 := session app1 in
      (loadProgress (localStorage st1) bookId = Ok VNull →
       r.1 = Ok tt
       ∧ r.2 = set_session
                 (fun _ => set_dom (set_screen WelcomeScreen)
                             (set_dom (set_resumeBtnShown false)
                                (set_dom (set_selection_ui 0)
                                   (set_selectedIndices []
                                      (set_activeBook (Some book) st1)))))
                 (set_viewMode board app1))
      ∧ (∀ now pl c idxs ls,
           localStorage st1 = saveProgress now bookId pl c (VNum <$> idxs) ls →
           NoDup idxs →
           r.1 = Ok tt
           ∧ r.2 = set_session
                     (fun _ => set_dom (set_screen WelcomeScreen)
                                 (set_dom (set_resumeBtnShown true)
                                    (set_dom (set_selection_ui (Z.of_nat (length idxs)))
                                       (set_selectedIndices (VNum <$> idxs)
                                          (set_activeBook (Some book) st1)))))
                     (set_viewMode board app1)).
Proof.
  split.
  - intros Hload. unfold openBook. by rewrite Hload.
  - intros book Hload. cbv zeta. unfold openBook. rewrite Hload.
    set (st0 := session (set_viewMode board
                           (set_session (set_activeBook (Some book)) app1))).
    split.
    + intros Hnull.
      assert ((run updateWelcomeUI bookId; navigateTo WelcomeScreen) st0
              = (Ok tt, set_dom (set_screen WelcomeScreen)
                          (set_dom (set_resumeBtnShown false)
                             (set_dom (set_selection_ui 0)
                                (set_selectedIndices [] st0))))) as ->.
      { unfold bind.
        by erewrite (updateWelcomeUI_absent bookId st0 book); [|done|exact Hnull]. }
      split; [done|]. by destruct app1.
    + intros now pl c idxs ls Hls Hnd.
      assert ((run updateWelcomeUI bookId; navigateTo WelcomeScreen) st0
              = (Ok tt, set_dom (set_screen WelcomeScreen)
                          (set_dom (set_resumeBtnShown true)
                             (set_dom (set_selection_ui (Z.of_nat (length idxs)))
                                (set_selectedIndices (VNum <$> idxs) st0))))) as ->.
      { unfold bind.
        erewrite (updateWelcomeUI_record bookId st0 book (json_elem <$> pl) c
                    (VNum <$> idxs) now); [|done|].
        - rewrite new_Set_numbers by done. by rewrite length_fmap.
        - change (localStorage st0) with (localStorage (session app1)).
          rewrite Hls, loadProgress_saveProgress, jsonify_progress_record.
          by rewrite json_elem_numbers. }
      split; [done|]. by destruct app1.
Qed.

Lemma LibraryManager_init_storage app :
  let r := LibraryManager_init defaultLibrary app in
  localStorage (session r.2) = localStorage (session app)
  ∨ ∃ s, localStorage (session r.2) = <[k_library := s]> (localStorage (session app)).
Proof.
  cbv zeta. unfold LibraryManager_init.
  destruct (_ !! k_library) as [stored|]; [|right; by eexists].
  destruct (truthy (VStr stored)); [|right; by eexists].
  destruct (JSON_parse stored) as [lib|]; [|by left].
  destruct (merge_defaults defaultLibrary lib) as [[[]|e] lib'];
    [right; by eexists|by left].
Qed.

Lemma loadBook_storage response bookId app :
  let r := loadBook toLowerCase defaultLibrary response bookId app in
  localStorage (session r.2) = localStorage (session app)
  ∨ ∃ s, localStorage (session r.2) = <[k_library := s]> (localStorage (session app)).
Proof.
  cbv zeta. unfold loadBook.
  destruct (library app) as [| | | | |items|]; try by left.
  destruct (find_by_id items bookId 0) as [[i|]|e]; try by left.
  destruct (local_default defaultLibrary bookId) as [[d ws]|]; [by left|].
  destruct (strict_eq_string _ _); [|by left].
  destruct response as [text|]; [|by left].
  cbn [snd]. destruct (_ || _); [right; by eexists|by left].
Qed.

Lemma loadProgress_library_write ls ls' bookId :
  ls' = ls ∨ (∃ s, ls' = <[k_library := s]> ls) →
  loadProgress ls' bookId = loadProgress ls bookId.
Proof.
  intros [->|[s' ->]]; [done|]. apply loadProgress_ext.
  apply lookup_insert_ne, not_eq_sym, getStorageKey_not_library.
Qed.

Lemma storage_frame_other_keys st st' k :
  storage_frame st st' → (∀ bookId, k ≠ getStorageKey bookId) →
  localStorage st' !! k = localStorage st !! k.
Proof.
  intros [_ Hframe] Hk. destruct (activeBook st) as [book|].
  - by apply Hframe.
  - by rewrite Hframe.
Qed.

(** X27. The progress store and the rest of the storage keep out of
    each other's way. Storing the library, starting the library and
    loading a book leave what [loadProgress] answers for every book as
    it was; and the game operations leave the stored theme and the
    stored library as they were. *)
Theorem progress_and_library_apart rand now isResume response app bookId :
  (let after f := loadProgress (localStorage (session f)) bookId
                  = loadProgress (localStorage (session app)) bookId in
   after (LibraryManager_save app)
   ∧ after (LibraryManager_init defaultLibrary app).2
   ∧ after (loadBook toLowerCase defaultLibrary response bookId app).2)
  ∧ (let st := session app in
     let kept st' :=
       localStorage st' !! k_theme = localStorage st !! k_theme
       ∧ localStorage st' !! k_library = localStorage st !! k_library in
     kept (startGame rand now isResume st).2
     ∧ kept (nextQuestion now st).2
     ∧ kept (prevQuestion now st).2
     ∧ kept (exitGame now st).2).
Proof.
  split; cbv zeta.
  - split_and!.
    + apply loadProgress_LibraryManager_save.
    + apply loadProgress_library_write, LibraryManager_init_storage.
    + apply loadProgress_library_write, loadBook_storage.
  - assert (Hkeys : ∀ st', storage_frame (session app) st' →
              localStorage st' !! k_theme = localStorage (session app) !! k_theme
              ∧ localStorage st' !! k_library = localStorage (session app) !! k_library).
    { intros st' Hf. split; (apply storage_frame_other_keys; [done|]).
      - intros id Heq. by apply (getStorageKey_not_theme id).
      - intros id Heq. by apply (getStorageKey_not_library id). }
    refine (conj _ (conj _ (conj _ _))); apply Hkeys.
    + apply startGame_frame.
    + apply nextQuestion_frame.
    + apply prevQuestion_frame.
    + apply exitGame_frame.
Qed.

End OpenBook.

(** * The endless game *)

Arguments Endless.filter_available : simpl nomatch.

Lemma filter_available_words ws t0 idxs (sel : list Word) :
  Forall2 (fun i w => 0 ≤ i ∧ ws !! Z.to_nat i = Some w) idxs sel →
  Endless.filter_available ws (VStr t0) (VNum <$> idxs)
  = Ok (VNum <$> (fst <$> filter (fun p => term p.2 ≠ t0) (zip idxs sel))).
Proof.
  induction 1 as [|i w idxs sel [Hi Hw] _ IH]; [done|].
  rewrite fmap_cons. cbn [Endless.filter_available zip zip_with].
  unfold index_words at 1. rewrite (proj2 (Z.leb_le 0 i) Hi), Hw.
  cbn [fmap option_fmap option_map default from_option]. unfold id.
  change (get_prop (word_value w) k_term) with (Ok (VStr (term w))).
  cbn [res_bind]. rewrite IH. cbn [res_bind same_value_zero].
  rewrite filter_cons. cbn [snd].
  destruct (decide (term w ≠ t0)) as [Hne|Heq].
  - by rewrite bool_decide_eq_false_2.
  - apply dec_stable in Heq. by rewrite bool_decide_eq_true_2.
Qed.

Lemma index_words_zip ws idxs (sel : list Word) i w :
  Forall2 (fun i w => 0 ≤ i ∧ ws !! Z.to_nat i = Some w) idxs sel →
  (i, w) ∈ zip idxs sel → index_words ws (VNum i) = word_value w.
Proof.
  induction 1 as [|i0 w0 idxs sel [Hi Hw] _ IH]; cbn.
  - by intros ?%elem_of_nil.
  - intros [[= -> ->]|Hin]%elem_of_cons; [|by apply IH].
    unfold index_words. by rewrite (proj2 (Z.leb_le 0 i0) Hi), Hw.
Qed.

Lemma array_get_snoc l x : array_get (l ++ [x]) (Z.of_nat (length l)) = x.
Proof.
  unfold array_get. rewrite (proj2 (Z.leb_le 0 _)) by lia.
  by rewrite Nat2Z.id, list_lookup_middle.
Qed.

(** X28. At the end of its history, the endless game does not show the
    same term twice in a row as long as the selection offers another
    one: with more than one topic selected, of which at least one has a
    term other than the one on the card, [nextQuestion] completes,
    appends a selected word with a different term to the history, moves
    the cursor onto it and shows its term. *)
Theorem endless_nextQuestion_no_repeat sample book idxs (sel : list Word) g w0 :
  Z.of_nat (length (Endless.history g)) - 1 ≤ Endless.currentIndex g →
  array_get (Endless.history g) (Endless.currentIndex g) = word_value w0 →
  Forall2 (fun i w => 0 ≤ i ∧ words book !! Z.to_nat i = Some w) idxs sel →
  (1 < length idxs)%nat →
  (∃ w, w ∈ sel ∧ term w ≠ term w0) →
  ∃ w, w ∈ sel ∧ term w ≠ term w0
    ∧ Endless.currentIndex g = Z.of_nat (length (Endless.history g)) - 1
    ∧ Endless.nextQuestion sample book (VNum <$> idxs) g
      = (Ok (VStr (term w)),
         {| Endless.active := Endless.active g;
            Endless.history := Endless.history g ++ [word_value w];
            Endless.currentIndex := Endless.currentIndex g + 1 |}).
Proof.
  intros Hend Hcard Hidx Hmany (w1 & Hw1 & Hne1).
  assert (Hlast : Endless.currentIndex g = Z.of_nat (length (Endless.history g)) - 1).
  { unfold array_get in Hcard.
    destruct (0 <=? Endless.currentIndex g) eqn:Hpos; [|done].
    apply Z.leb_le in Hpos.
    destruct (Endless.history g !! Z.to_nat (Endless.currentIndex g)) eqn:Hlk; [|done].
    apply lookup_lt_Some in Hlk. lia. }
  assert (Hnonempty : (0 <? length (Endless.history g))%nat = true).
  { apply Nat.ltb_lt. unfold array_get in Hcard.
    destruct (0 <=? Endless.currentIndex g) eqn:Hpos; [|done]. apply Z.leb_le in Hpos. lia. }
  set (avail := filter (fun p : Z * Word => term p.2 ≠ term w0) (zip idxs sel)).
  assert (Havail : avail ≠ []).
  { assert (length idxs = length sel) as Hlen by by eapply Forall2_length.
    apply list_elem_of_lookup in Hw1 as [k Hk].
    destruct (lookup_lt_is_Some_2 idxs k) as [i Hik];
      [rewrite Hlen; by eapply lookup_lt_Some|].
    assert ((i, w1) ∈ avail) as Hin.
    { apply list_elem_of_filter. split; [done|].
      apply list_elem_of_lookup. exists k. by apply lookup_zip_with_Some; eauto. }
    intros Heq. rewrite Heq in Hin. by apply elem_of_nil in Hin. }
  destruct (lookup_lt_is_Some_2 avail (sample mod length avail)%nat) as [[i w] Hpick].
  { apply Nat.mod_upper_bound. by destruct avail. }
  assert ((i, w) ∈ avail) as Hin by by eapply list_elem_of_lookup_2.
  apply list_elem_of_filter in Hin as [Hne Hzip]. cbn in Hne.
  exists w. split_and!; [|done|done|].
  { apply elem_of_zip_r in Hzip. done. }
  unfold Endless.nextQuestion. rewrite (proj2 (Z.ltb_ge _ _) Hend).
  unfold Endless.getRandomWord. rewrite Hnonempty, length_fmap.
  rewrite (proj2 (Nat.ltb_lt _ _) Hmany). cbn [andb]. rewrite Hcard.
  change (get_prop (word_value w0) k_term) with (Ok (VStr (term w0))).
  cbn [res_bind]. rewrite (filter_available_words _ _ _ sel Hidx). cbn [res_bind].
  fold avail. rewrite !length_fmap, !list_lookup_fmap, Hpick.
  cbn [fmap option_fmap option_map default from_option fst]. unfold id.
  rewrite (index_words_zip _ _ _ _ _ Hidx Hzip).
  unfold Endless.updateCardUI. cbn [Endless.history Endless.currentIndex].
  rewrite Hlast. replace (Z.of_nat (length (Endless.history g)) - 1 + 1)
    with (Z.of_nat (length (Endless.history g))) by lia.
  by rewrite array_get_snoc.
Qed.

(** X29. The endless game has a dead end: when more than one topic is
    selected and every selected word has the term that is on the card
    (a sheet may repeat a term), nothing is left to draw from. At the
    end of its history [nextQuestion] then appends [undefined] to the
    history, moves the cursor onto it and raises [TypeError] when it
    draws the card. *)
Theorem endless_nextQuestion_dead_end sample book idxs (sel : list Word) g w0 :
  Z.of_nat (length (Endless.history g)) - 1 ≤ Endless.currentIndex g →
  array_get (Endless.history g) (Endless.currentIndex g) = word_value w0 →
  Forall2 (fun i w => 0 ≤ i ∧ words book !! Z.to_nat i = Some w) idxs sel →
  (1 < length idxs)%nat →
  Forall (fun w => term w = term w0) sel →
  Endless.nextQuestion sample book (VNum <$> idxs) g
  = (Throw TypeError,
     {| Endless.active := Endless.active g;
        Endless.history := Endless.history g ++ [VUndefined];
        Endless.currentIndex := Endless.currentIndex g + 1 |}).
Proof.
  intros Hend Hcard Hidx Hmany Hsame.
  assert (Hlast : Endless.currentIndex g = Z.of_nat (length (Endless.history g)) - 1).
  { unfold array_get in Hcard.
    destruct (0 <=? Endless.currentIndex g) eqn:Hpos; [|done].
    apply Z.leb_le in Hpos.
    destruct (Endless.history g !! Z.to_nat (Endless.currentIndex g)) eqn:Hlk; [|done].
    apply lookup_lt_Some in Hlk. lia. }
  assert (Hnonempty : (0 <? length (Endless.history g))%nat = true).
  { apply Nat.ltb_lt. unfold array_get in Hcard.
    destruct (0 <=? Endless.currentIndex g) eqn:Hpos; [|done]. apply Z.leb_le in Hpos. lia. }
  assert (filter (fun p : Z * Word => term p.2 ≠ term w0) (zip idxs sel) = []) as Hnone.
  { apply filter_none. intros [i w] Hin Hne. cbn in Hne. apply Hne.
    apply elem_of_zip_r in Hin. rewrite Forall_forall in Hsame. by apply Hsame. }
  unfold Endless.nextQuestion. rewrite (proj2 (Z.ltb_ge _ _) Hend).
  unfold Endless.getRandomWord. rewrite Hnonempty, length_fmap.
  rewrite (proj2 (Nat.ltb_lt _ _) Hmany). cbn [andb]. rewrite Hcard.
  change (get_prop (word_value w0) k_term) with (Ok (VStr (term w0))).
  cbn [res_bind]. rewrite (filter_available_words _ _ _ sel Hidx). cbn [res_bind].
  rewrite Hnone. cbn [fmap list_fmap length lookup list_lookup default from_option].
  unfold Endless.updateCardUI. cbn [Endless.history Endless.currentIndex].
  rewrite Hlast. replace (Z.of_nat (length (Endless.history g)) - 1 + 1)
    with (Z.of_nat (length (Endless.history g))) by lia.
  change (index_words (words book) VUndefined) with VUndefined.
  by rewrite array_get_snoc.
Qed.

(** ** Syncing several sheets *)

Lemma find_by_id_insert_same_id items id n i m m' :
  items !! i = Some m → get_prop m' k_id = get_prop m k_id →
  find_by_id (<[i := m']> items) id n = find_by_id items id n.
Proof.
  revert n i. induction items as [|x rest IH]; intros n i; [done|].
  destruct i as [|i]; cbn.
  - intros [= ->] Hid. by rewrite Hid.
  - intros Hi Hid. destruct (get_prop x k_id) as [v|e]; [|done].
    destruct (strict_eq_string v id); [done|]. by apply IH.
Qed.

Lemma synced_entry_unchanged result meta :
  (synced_entry result meta).2 = false → (synced_entry result meta).1 = meta.
Proof.
  unfold synced_entry. cbv zeta.
  destruct (title (metadata result)) as [t|]; [destruct (_ && _); [done|]|];
    cbn [fst snd]; by intros ->.
Qed.

Lemma synced_entry_id result meta :
  is_object meta →
  get_prop (synced_entry result meta).1 k_id = get_prop meta k_id
  ∧ meta_prop (synced_entry result meta).1 k_sourceType = meta_prop meta k_sourceType.
Proof.
  intros [fields ->].
  assert (Hkeep : ∀ name v b, is_object b → name ≠ k_id → name ≠ k_sourceType →
            get_prop (set_prop name v b) k_id = get_prop b k_id
            ∧ meta_prop (set_prop name v b) k_sourceType = meta_prop b k_sourceType
            ∧ is_object (set_prop name v b)).
  { intros name v b [fs ->] Hid Hst. split_and!; [| |by eexists].
    - cbn [set_prop]. unfold get_prop. by rewrite field_set_field_ne by done.
    - by apply meta_prop_set_prop_ne. }
  unfold synced_entry. cbv zeta.
  set (n := Z.of_nat (length (parsed_words result))).
  set (meta1 := if count_differs (VObj fields) n
                then set_prop k_count (VNum n) (VObj fields) else VObj fields).
  assert (get_prop meta1 k_id = get_prop (VObj fields) k_id
          ∧ meta_prop meta1 k_sourceType = meta_prop (VObj fields) k_sourceType
          ∧ is_object meta1) as (Hid1 & Hst1 & Hobj1).
  { unfold meta1. destruct (count_differs _ _); [|by split_and!; [| |eexists]].
    apply Hkeep; [by eexists|done|done]. }
  destruct (title (metadata result)) as [t|]; [destruct (_ && _)|]; cbn [fst];
    try done.
  destruct (Hkeep k_title (VStr t) meta1 Hobj1) as (-> & -> & _); done.
Qed.

Section SyncOrder.
Context `{JSON}.
Variable toLowerCase : jsstring → jsstring.
Variable defaultLibrary : list DefaultBook.

Lemma loadBook_csv app bookId text items i meta :
  library app = VArr items →
  find_by_id items bookId 0 = Ok (Some i) →
  items !! i = Some meta →
  local_default defaultLibrary bookId = None →
  meta_prop meta k_sourceType = VStr (lit "csv") →
  let result := parse toLowerCase text in
  let meta' := (synced_entry result meta).1 in
  let app1 := set_library (VArr (<[i := meta']> items)) app in
  loadBook toLowerCase defaultLibrary (Some text) bookId app
  = (Ok (Some {| book_id := bookId;
                 book_title := title_text (meta_prop meta' k_title);
                 words := parsed_words result |}),
     if (synced_entry result meta).2 then LibraryManager_save app1 else app1).
Proof.
  intros Hlib Hfind Hi Hlocal Hcsv. cbv zeta.
  rewrite (loadBook_csv_unfold toLowerCase defaultLibrary app bookId text items i meta)
    by done.
  cbv zeta. unfold synced_entry. cbv zeta.
  destruct (title (metadata (parse toLowerCase text))) as [t|];
    [destruct (_ && _)|]; cbn [fst snd]; by rewrite ?orb_true_r, ?orb_false_r.
Qed.

(** X30. The order in which the fetches of a sync come back does not
    matter. For two different sheets of the library, loading the one and
    then the other leaves the application in the same state (library,
    storage and all) as loading them the other way round, and either
    way each call answers the same book. *)
Theorem loadBook_order_irrelevant app a b ta tb items i j ma mb :
  library app = VArr items →
  a ≠ b →
  find_by_id items a 0 = Ok (Some i) → items !! i = Some ma →
  find_by_id items b 0 = Ok (Some j) → items !! j = Some mb →
  local_default defaultLibrary a = None → local_default defaultLibrary b = None →
  meta_prop ma k_sourceType = VStr (lit "csv") →
  meta_prop mb k_sourceType = VStr (lit "csv") →
  let load := loadBook toLowerCase defaultLibrary in
  (load (Some tb) b (load (Some ta) a app).2).2
  = (load (Some ta) a (load (Some tb) b app).2).2
  ∧ (load (Some ta) a (load (Some tb) b app).2).1 = (load (Some ta) a app).1
  ∧ (load (Some tb) b (load (Some ta) a app).2).1 = (load (Some tb) b app).1.
Proof.
  intros Hlib Hab Hfa Hia Hfb Hib Hla Hlb Hca Hcb. cbv zeta.
  assert (Hida : meta_prop ma k_id = VStr a).
  { apply find_by_id_Some in Hfa as (k & m & -> & Hk & Hm & _). cbn in Hia. congruence. }
  assert (Hidb : meta_prop mb k_id = VStr b).
  { apply find_by_id_Some in Hfb as (k & m & -> & Hk & Hm & _). cbn in Hib. congruence. }
  assert (Hij : i ≠ j) by (intros ->; congruence).
  pose proof (meta_prop_id_object _ _ Hida) as Hoa.
  pose proof (meta_prop_id_object _ _ Hidb) as Hob.
  set (ra := parse toLowerCase ta). set (rb := parse toLowerCase tb).
  destruct (synced_entry_id ra ma Hoa) as [Hsida Hsta].
  destruct (synced_entry_id rb mb Hob) as [Hsidb Hstb].
  pose proof (synced_entry_unchanged ra ma) as Hsame_a.
  pose proof (synced_entry_unchanged rb mb) as Hsame_b.
  rewrite (loadBook_csv app a ta items i ma) by done.
  rewrite (loadBook_csv app b tb items j mb) by done.
  cbv zeta. fold ra rb. cbn [fst snd].
  set (ma' := (synced_entry ra ma).1) in *. set (mb' := (synced_entry rb mb).1) in *.
  set (sa := (synced_entry ra ma).2) in *. set (sb := (synced_entry rb mb).2) in *.
  set (appA := if sa then LibraryManager_save (set_library (VArr (<[i:=ma']> items)) app)
               else set_library (VArr (<[i:=ma']> items)) app).
  set (appB := if sb then LibraryManager_save (set_library (VArr (<[j:=mb']> items)) app)
               else set_library (VArr (<[j:=mb']> items)) app).
  assert (HlibA : library appA = VArr (<[i:=ma']> items)) by (unfold appA; by destruct sa).
  assert (HlibB : library appB = VArr (<[j:=mb']> items)) by (unfold appB; by destruct sb).
  rewrite (loadBook_csv appA b tb (<[i:=ma']> items) j mb);
    [|done|by rewrite (find_by_id_insert_same_id _ _ _ _ ma)
     |by rewrite list_lookup_insert_ne|done|done].
  rewrite (loadBook_csv appB a ta (<[j:=mb']> items) i ma);
    [|done|by rewrite (find_by_id_insert_same_id _ _ _ _ mb)
     |by rewrite list_lookup_insert_ne|done|done].
  cbv zeta. fold ra rb. fold ma' mb' sa sb. cbn [fst snd].
  split; [|done].
  rewrite (list_insert_insert_ne _ j i) by done.
  unfold appA, appB. destruct app as [ss lib vm th dt ti]. cbn in Hlib. subst lib.
  destruct sa eqn:Hsa, sb eqn:Hsb;
    unfold LibraryManager_save, set_library, set_session, set_localStorage; cbn.
  - by rewrite !insert_insert_eq.
  - rewrite (Hsame_b eq_refl). by rewrite !(list_insert_id _ j mb)
      by (by rewrite ?list_lookup_insert_ne).
  - rewrite (Hsame_a eq_refl). by rewrite !(list_insert_id _ i ma)
      by (by rewrite ?list_lookup_insert_ne).
  - done.
Qed.

End SyncOrder.

(** ** The codec reads back what it writes *)

Import RefJSON.

Arguments read_number : simpl never.
Arguments read_uint : simpl never.

Lemma print_array items : print (VArr items) = 91%N :: print_elems true items.
Proof. reflexivity. Qed.

Lemma print_object fields : print (VObj fields) = 123%N :: print_members true fields.
Proof. reflexivity. Qed.

Lemma jsonify_object fields : jsonify (VObj fields) = VObj (jsonify_members fields).
Proof. reflexivity. Qed.

Lemma print_members_defined first k x r :
  x ≠ VUndefined →
  print_members first ((k, x) :: r)
  = comma first ++ 34%N :: escape k ++ 58%N :: print x ++ print_members false r.
Proof. by destruct x. Qed.

Lemma jsonify_members_defined k x r :
  x ≠ VUndefined → jsonify_members ((k, x) :: r) = (k, jsonify x) :: jsonify_members r.
Proof. by destruct x. Qed.

Lemma json_elem_defined x : x ≠ VUndefined → json_elem x = jsonify x.
Proof. by destruct x. Qed.

Lemma read_uint_nil rest : no_digit rest → read_uint rest = (Decimal.Nil, rest).
Proof.
  destruct rest as [|c rest]; [done|]. cbn. unfold read_uint. by intros ->.
Qed.

Lemma read_uint_chars u rest :
  no_digit rest → read_uint (uint_chars u ++ rest) = (u, rest).
Proof.
  intros Hrest. induction u as [|u IH|u IH|u IH|u IH|u IH|u IH|u IH|u IH|u IH|u IH];
    [by apply read_uint_nil|..];
    cbn [uint_chars app]; unfold read_uint; fold read_uint;
    cbn [is_digit N.leb andb]; by rewrite IH.
Qed.

Lemma to_uint_not_nil m : N.to_uint m ≠ Decimal.Nil.
Proof.
  destruct m as [|p]; [done|]. apply DecimalPos.Unsigned.to_uint_nonnil.
Qed.

Lemma read_number_chars m rest negative :
  no_digit rest →
  read_number negative (uint_chars (N.to_uint m) ++ rest)
  = Some (VNum (if negative then - Z.of_N m else Z.of_N m), rest).
Proof.
  intros Hrest. unfold read_number. rewrite read_uint_chars by done.
  pose proof (to_uint_not_nil m) as Hnil.
  rewrite (DecimalN.Unsigned.of_to m).
  by destruct (N.to_uint m).
Qed.

Lemma read_string_escape s rest : read_string (escape s ++ rest) = Some (s, rest).
Proof.
  induction s as [|c s IH]; [done|].
  cbn [escape]. destruct (N.eqb_spec c 34) as [->|H34].
  - cbn. by rewrite IH.
  - destruct (N.eqb_spec c 92) as [->|H92].
    + cbn. by rewrite IH.
    + cbn. rewrite (proj2 (N.eqb_neq c 34) H34), (proj2 (N.eqb_neq c 92) H92).
      by rewrite IH.
Qed.

Lemma undefined_or_not (x : Value) : x = VUndefined ∨ x ≠ VUndefined.
Proof. destruct x; auto. Qed.

Lemma no_digit_elems items rest : no_digit (print_elems false items ++ rest).
Proof. by destruct items. Qed.

Lemma no_digit_members fields rest : no_digit (print_members false fields ++ rest).
Proof.
  induction fields as [|[k x] fields IH]; [done|].
  destruct (undefined_or_not x) as [->|Hx]; [done|].
  by rewrite print_members_defined.
Qed.

Lemma read_elems_print items :
  Forall reads items →
  ∀ fuel rest,
    (length (print_elems false items ++ rest) ≤ fuel)%nat →
    read_elems fuel (print_elems false items ++ rest) = Some (json_elem <$> items, rest).
Proof.
  induction 1 as [|x items Hx _ IH]; intros fuel rest Hlen.
  - destruct fuel as [|fuel]; [cbn in Hlen; lia|]. reflexivity.
  - change (print_elems false (x :: items))
      with (44%N :: print x ++ print_elems false items) in *.
    destruct fuel as [|fuel]; [cbn in Hlen; lia|].
    cbn [app read_elems N.eqb Pos.eqb]. rewrite <- app_assoc.
    cbn in Hlen. rewrite <- app_assoc in Hlen.
    rewrite Hx; [|apply no_digit_elems|lia].
    rewrite IH; [done|]. rewrite length_app in Hlen. lia.
Qed.

Lemma app_member (a b c rest : jsstring) :
  (a ++ 58%N :: b ++ c) ++ rest = a ++ 58%N :: b ++ c ++ rest.
Proof. by rewrite <- app_assoc, <- app_comm_cons, <- app_assoc. Qed.

Lemma read_member_print fuel k x rest :
  reads x → no_digit rest →
  (length (escape k ++ 58%N :: print x ++ rest) ≤ fuel)%nat →
  read_member (read_value fuel) (escape k ++ 58%N :: print x ++ rest)
  = Some ((k, json_elem x), rest).
Proof.
  intros Hx Hrest Hlen. unfold read_member.
  rewrite read_string_escape. cbn [N.eqb Pos.eqb].
  rewrite Hx; [done|done|]. rewrite length_app in Hlen. cbn in Hlen. lia.
Qed.

Lemma read_members_print fields :
  Forall (fun kv => reads kv.2) fields →
  ∀ fuel rest,
    (length (print_members false fields ++ rest) ≤ fuel)%nat →
    read_members fuel (print_members false fields ++ rest)
    = Some (jsonify_members fields, rest).
Proof.
  induction 1 as [|[k x] fields Hx _ IH]; intros fuel rest Hlen.
  - destruct fuel as [|fuel]; [cbn in Hlen; lia|]. reflexivity.
  - destruct (undefined_or_not x) as [->|Hdef]; [by apply IH|].
    rewrite print_members_defined, jsonify_members_defined in * by done.
    cbn [comma app] in *.
    destruct fuel as [|fuel]; [cbn in Hlen; lia|].
    cbn [read_members N.eqb Pos.eqb].
    rewrite app_member in *. cbn [length] in Hlen.
    rewrite read_member_print; [|done|apply no_digit_members|lia].
    rewrite IH.
    + by rewrite json_elem_defined.
    + rewrite length_app in Hlen. cbn [length] in Hlen.
      rewrite !length_app in Hlen. rewrite length_app. lia.
Qed.

Lemma read_object_print fields :
  Forall (fun kv => reads kv.2) fields →
  ∀ fuel rest,
    (length (123%N :: print_members true fields ++ rest) ≤ fuel)%nat →
    read_value fuel (123%N :: print_members true fields ++ rest)
    = Some (VObj (jsonify_members fields), rest).
Proof.
  induction 1 as [|[k x] fields Hx Hfields IH]; intros fuel rest Hlen.
  - destruct fuel as [|fuel]; [cbn in Hlen; lia|]. reflexivity.
  - destruct (undefined_or_not x) as [->|Hdef]; [by apply IH|].
    rewrite print_members_defined, jsonify_members_defined in * by done.
    cbn [comma app] in *. rewrite app_member in *.
    destruct fuel as [|fuel]; [cbn in Hlen; lia|].
    cbn [read_value N.eqb Pos.eqb]. cbn [length] in Hlen.
    rewrite read_member_print; [|done|apply no_digit_members|lia].
    rewrite read_members_print; [|done|].
    + by rewrite json_elem_defined.
    + rewrite length_app in Hlen. cbn [length] in Hlen.
      rewrite !length_app in Hlen. rewrite length_app. lia.
Qed.

Lemma read_value_bracket fuel rest : read_value fuel (93%N :: rest) = None.
Proof. by destruct fuel. Qed.

Lemma print_reads v : reads v.
Proof.
  induction v as [| |b|n|s|items IH|fields IH] using Value_ind;
    intros fuel rest Hrest Hlen.
  - destruct fuel as [|fuel]; [vm_compute in Hlen; lia|]. reflexivity.
  - destruct fuel as [|fuel]; [vm_compute in Hlen; lia|]. reflexivity.
  - destruct b; (destruct fuel as [|fuel]; [vm_compute in Hlen; lia|]); reflexivity.
  - cbn [print json_elem jsonify] in *. unfold print_Z in *.
    destruct (Z.ltb_spec n 0) as [Hneg|Hpos].
    + destruct fuel as [|fuel]; [cbn in Hlen; lia|].
      cbn [app read_value N.eqb Pos.eqb]. rewrite read_number_chars by done.
      do 3 f_equal. lia.
    + pose proof (read_number_chars (Z.to_N n) rest false Hrest) as Hnum.
      pose proof (to_uint_not_nil (Z.to_N n)) as Hnil.
      rewrite Z2N.id in Hnum by done.
      destruct (N.to_uint (Z.to_N n)); [done|..];
        (destruct fuel as [|fuel]; [cbn in Hlen; lia|]);
        cbn [uint_chars app] in *; cbn [read_value N.eqb Pos.eqb]; exact Hnum.
  - destruct fuel as [|fuel]; [cbn in Hlen; lia|].
    cbn [print app read_value N.eqb Pos.eqb]. by rewrite read_string_escape.
  - rewrite print_array in *. cbn [app] in *.
    destruct fuel as [|fuel]; [cbn in Hlen; lia|].
    cbn [read_value N.eqb Pos.eqb]. cbn [length] in Hlen.
    destruct IH as [|x items Hx Hitems].
    + cbn [print_elems app]. by rewrite read_value_bracket.
    + change (print_elems true (x :: items)) with (print x ++ print_elems false items) in *.
      rewrite <- app_assoc in *.
      rewrite Hx; [|apply no_digit_elems|lia].
      rewrite read_elems_print; [done|done|].
      rewrite length_app in Hlen. lia.
  - rewrite print_object in *. cbn [app] in *.
    by rewrite read_object_print.
Qed.

Lemma parse_print v : v ≠ VUndefined → parse_text (print v) = Some (jsonify v).
Proof.
  intros Hv. unfold parse_text.
  pose proof (print_reads v (length (print v)) [] I) as Hread.
  rewrite app_nil_r in Hread. rewrite Hread by done.
  by rewrite json_elem_defined.
Qed.

(** The codec has the laws of the platform's JSON object. *)
Definition RefJSON_json : JSON := {|
  JSON_stringify := print;
  JSON_parse := parse_text;
  JSON_parse_stringify := parse_print;
  JSON_parse_empty := eq_refl
|}.

(** * The properties at work on a small book *)

Import Examples.

#[local] Existing Instance RefJSON_json.

Lemma session_ok_playing : session_ok book playing.
Proof.
  split; [reflexivity|split].
  - apply (Forall_is_word_values [word_c; word_a; word_b]).
  - vm_compute. split; [discriminate|reflexivity].
Qed.

(** After a new game on two selected words, and after leaving, advancing
    and retreating in a session on three, the store agrees with the game;
    and it still does after a retreat at the first card of the new game
    and after a start with the selection emptied. *)
Lemma progress_in_sync_after_operations_witness :
  let st1 := (startGame rand0 0 false selected).2 in
  in_sync st1
  ∧ in_sync (exitGame 0 playing).2
  ∧ in_sync (nextQuestion 0 playing).2
  ∧ in_sync (prevQuestion 0 playing).2
  ∧ in_sync (prevQuestion 0 st1).2
  ∧ in_sync (startGame rand0 0 false (set_selectedIndices [] st1)).2.
Proof.
  cbv zeta.
  pose proof (progress_in_sync_after_operations rand0 0 selected book eq_refl)
    as (Hstart & _).
  pose proof (progress_in_sync_after_operations rand0 0 playing book eq_refl)
    as (_ & Hsession).
  destruct (Hsession session_ok_playing) as (Hexit & _ & Hnext & Hprev).
  destruct (Hstart [0; 2] [word_a; word_c]) as [Hnew _]; [reflexivity| |].
  { repeat (constructor; [split; [lia|reflexivity]|]). constructor. }
  destruct Hnew as [Hok1 Hsync1]; [discriminate|].
  set (st1 := (startGame rand0 0 false selected).2) in *.
  pose proof (progress_in_sync_after_operations rand0 0 st1 book (proj1 Hok1))
    as (_ & Hsession1).
  destruct (Hsession1 Hok1) as (_ & Hkeep & _).
  pose proof (progress_in_sync_after_operations rand0 0 (set_selectedIndices [] st1)
                book (proj1 Hok1)) as (Hstart2 & _).
  destruct (Hstart2 [] []) as [_ Hkeep2]; [reflexivity|constructor|].
  split_and!.
  - exact Hsync1.
  - exact Hexit.
  - apply Hnext. vm_compute. reflexivity.
  - apply Hprev. vm_compute. reflexivity.
  - by apply Hkeep.
  - apply Hkeep2. destruct Hsync1 as (b & data & ? & ? & ? & ?). by exists b, data.
Defined.

(** A new game on the first and the last word plays these two words. *)
Lemma startGame_new_playlist_witness :
  let st' := (startGame rand0 0 false selected).2 in
  playlist (game st') ≡ₚ word_value <$> [word_a; word_c]
  ∧ length (playlist (game st')) = 2%nat
  ∧ currentIndex (game st') = 0.
Proof.
  apply (startGame_new_playlist rand0 0 selected book [0; 2] [word_a; word_c]);
    [reflexivity|reflexivity|discriminate|
    |repeat (constructor; [split; [lia|reflexivity]|]); constructor].
  apply NoDup_cons. split; [|apply NoDup_singleton].
  intros Hin. apply list_elem_of_singleton in Hin. discriminate.
Defined.

(** From the middle card, both moves stay inside the playlist. *)
Lemma navigation_stays_in_bounds_witness :
  currentIndex (game (nextQuestion 0 playing).2) ≤ len (nextQuestion 0 playing).2 - 1
  ∧ 0 ≤ currentIndex (game (prevQuestion 0 playing).2).
Proof.
  pose proof (navigation_stays_in_bounds 0 playing) as (Hnext & _ & Hprev & _).
  split; [apply Hnext|apply Hprev]; vm_compute; discriminate.
Defined.

(** With nothing selected, a new game only sets [game.active]. *)
Lemma startGame_new_empty_selection_witness :
  (startGame rand0 0 false opened).2 = set_game (set_active true) opened.
Proof. apply (startGame_new_empty_selection rand0 0 opened). reflexivity. Defined.

(** Resuming from the stored text of [record_bad_selection] raises
    [TypeError]: the playlist and the cursor are installed, the selection
    and the page are as before. *)
Lemma startGame_resume_unchecked_selection_witness :
  startGame rand0 0 true (stored record_bad_selection)
  = (Throw TypeError,
     resumed_state (stored record_bad_selection) [word_value word_a] 0 [] page).
Proof.
  apply (startGame_resume_unchecked_selection rand0 0 (stored record_bad_selection)
           book (RefJSON.print record_bad_selection) fields_bad_selection
           [word_value word_a] 0 (VNum 5));
    reflexivity.
Defined.

(** Resuming from the stored text of [record_out_of_range] leaves the
    cursor at 7 in a playlist of two. *)
Lemma resume_installs_unchecked_cursor_witness :
  let st' := (startGame rand0 0 true (stored record_out_of_range)).2 in
  currentIndex (game st') = 7 ∧ ¬ (0 ≤ currentIndex (game st') < len st').
Proof.
  pose proof (resume_installs_unchecked_cursor rand0 0 (stored record_out_of_range)
                book (RefJSON.print record_out_of_range)
                [word_value word_a; word_value word_b] 7 [VNum 0; VNum 1] 1700
                eq_refl eq_refl eq_refl) as H.
  cbv zeta in H. destruct H as (_ & _ & _ & Hci & Hout).
  - vm_compute. intros [_ Hlt]. discriminate.
  - done.
Defined.

(** The stored text of a record is loaded as that record. *)
Lemma loadProgress_validates_witness :
  loadProgress (localStorage (stored record_out_of_range)) (book_id book)
  = Ok record_out_of_range.
Proof.
  apply (proj2 (loadProgress_validates (localStorage (stored record_out_of_range))
                  (book_id book)) record_out_of_range); [discriminate|].
  exists (RefJSON.print record_out_of_range). split_and!; reflexivity.
Defined.

(** C8, as stated, fails on a first row whose first field is empty: the
    row [,x] is not blank and its first field is no header, yet the sheet
    gets no title. The row is skipped like any row without a first field,
    and the second row gives the one word. *)
Lemma first_row_without_first_field :
  let text := lit ",x" ++ [10%N] ++ lit "cat,mao" in
  filter (fun line => trim line ≠ []) (split_lines text) = [lit ",x"; lit "cat,mao"]
  ∧ first_field (lit ",x") = []
  ∧ not_header ascii_lower (first_field (lit ",x")) = true
  ∧ title (metadata (parse ascii_lower text)) = None
  ∧ title (metadata (parse ascii_lower text)) ≠ Some (first_field (lit ",x"))
  ∧ parsed_words (parse ascii_lower text)
    = [{| term := lit "cat"; zhuyin := lit "mao" |}].
Proof. vm_compute. split_and!; (reflexivity || discriminate). Qed.

(** The sheet gives the title [Animals] and the words [cat] and [dog]. *)
Lemma parse_rows_witness :
  parsed_words (parse ascii_lower sheet)
  = [{| term := lit "cat"; zhuyin := lit "mao" |};
     {| term := lit "dog"; zhuyin := [] |}]
  ∧ title (metadata (parse ascii_lower sheet)) = Some (lit "Animals").
Proof.
  pose proof (parse_rows ascii_lower sheet) as (Hwords & Htitle & _).
  rewrite Hwords, Htitle. split; reflexivity.
Defined.

Import LibraryExamples.

(** * The further properties at work *)

Ltac distinct := apply (bool_decide_unpack _); vm_compute; exact I.

(** A saved session of one word reads back as it was saved. *)
Lemma saveProgress_then_loadProgress_witness :
  loadProgress (saveProgress 5 (lit "b1") [word_value word_a] 0 [VNum 0] ∅) (lit "b1")
  = Ok (progress_record [word_value word_a] 0 [VNum 0] 5).
Proof.
  apply (saveProgress_then_loadProgress 5 (lit "b1") [word_value word_a] 0 [VNum 0] ∅).
  - apply (Forall_is_word_values [word_a]).
  - by exists [0].
Defined.

(** Clearing an empty storage leaves it empty. *)
Lemma clearProgress_then_loadProgress_witness : clearProgress ∅ (lit "b1") = ∅.
Proof.
  apply (clearProgress_then_loadProgress 0 (lit "b1") [] 0 [] ∅). apply lookup_empty.
Defined.

(** A save for the book [b2] leaves the record of [b1]. *)
Lemma progress_of_other_books_kept_witness :
  loadProgress
    (saveProgress 5 (lit "b2") [] 0 [] (localStorage (stored record_out_of_range)))
    (lit "b1")
  = loadProgress (localStorage (stored record_out_of_range)) (lit "b1").
Proof.
  apply (progress_of_other_books_kept 5 (lit "b2") (lit "b1")). discriminate.
Defined.
(** Resuming from a saved session of two words at its second card. *)
Lemma resume_restores_saved_session_witness :
  let pl := word_value <$> [word_c; word_a] in
  let st := set_localStorage
              (fun _ => saveProgress 5 (book_id book) pl 1 (VNum <$> [0; 2]) ∅)
              opened in
  ∃ w d, array_get pl 1 = word_value w
    ∧ startGame rand0 9 true st = (Ok tt, resumed_state st pl 1 (VNum <$> [0; 2]) d)
    ∧ screen d = GameScreen
    ∧ wordDisplay d = VStr (term w)
    ∧ curIndexEl d = 1 + 1
    ∧ totalCountEl d = Z.of_nat (length pl).
Proof.
  cbv zeta.
  apply (resume_restores_saved_session rand0 5 9 _ book
           (word_value <$> [word_c; word_a]) 1 [0; 2] ∅).
  - reflexivity.
  - reflexivity.
  - apply (Forall_is_word_values [word_c; word_a]).
  - vm_compute. split; [discriminate|reflexivity].
  - distinct.
Defined.

(** Leaving the session on three words and resuming it. *)
Lemma exitGame_then_resume_witness :
  let st1 := (exitGame 5 playing).2 in
  let r := startGame rand0 9 true st1 in
  r.1 = Ok tt
  ∧ game r.2 = game playing
  ∧ selectedIndices r.2 = selectedIndices playing
  ∧ screen (dom r.2) = GameScreen.
Proof.
  pose proof (exitGame_then_resume rand0 5 9 playing book [0; 2]
                session_ok_playing eq_refl) as Hround.
  cbv zeta in Hround |- *.
  destruct Hround as (_ & _ & _ & Hok & Hgame & Hsel & Hscreen & _); [distinct|].
  by split_and!.
Defined.

(** Resuming on the freshly opened book shows the notice and stops at
    the guard of the new game. *)
Lemma resume_without_progress_witness :
  startGame rand0 0 true opened
  = (Ok tt, add_alert resume_notice (set_game (set_active true) opened)).
Proof.
  apply (resume_without_progress rand0 0 opened book eq_refl eq_refl). reflexivity.
Defined.

(** From the middle card, forward and back again. *)
Lemma nextQuestion_prevQuestion_inverse_witness :
  game (prevQuestion 6 (nextQuestion 5 playing).2).2 = game playing
  ∧ in_sync (prevQuestion 6 (nextQuestion 5 playing).2).2.
Proof.
  pose proof (nextQuestion_prevQuestion_inverse 5 6 playing book session_ok_playing)
    as [Hnext _].
  cbv zeta in Hnext. destruct Hnext as (_ & _ & Hgame & _ & Hsync).
  - vm_compute. reflexivity.
  - by split.
Defined.

(** A step forward onto a card that is [null]. *)
Lemma move_to_unreadable_card_witness :
  nextQuestion 5 broken = (Throw TypeError, set_game (set_currentIndex 1) broken).
Proof.
  apply (move_to_unreadable_card 5 broken TypeError).
  - vm_compute. reflexivity.
  - reflexivity.
Defined.

(** Three steps forward and one back from the middle card of three. *)
Lemma fire_timeouts_keeps_session_witness :
  let r := fire_timeouts
             [(1, NextQuestion); (2, NextQuestion); (3, NextQuestion); (4, PrevQuestion)]
             playing in
  Forall (fun x => x = Ok tt) r.1 ∧ session_ok book r.2.
Proof.
  pose proof (fire_timeouts_keeps_session
                [(1, NextQuestion); (2, NextQuestion); (3, NextQuestion); (4, PrevQuestion)]
                playing book session_ok_playing) as (Hok & Hsession & _).
  by split.
Defined.
(** A click on the middle topic adds it to the two selected ones. *)
Lemma toggleSelection_flips_witness :
  ∃ idxs',
    (toggleSelection 1 selected).1 = Ok tt
    ∧ selectedIndices (toggleSelection 1 selected).2 = VNum <$> idxs'
    ∧ NoDup idxs'
    ∧ (1 ∈ idxs' ↔ 1 ∉ [0; 2])
    ∧ (∀ j, j ≠ 1 → j ∈ idxs' ↔ j ∈ [0; 2])
    ∧ selectedCountEl (dom (toggleSelection 1 selected).2) = Z.of_nat (length idxs')
    ∧ startBtnDisabled (dom (toggleSelection 1 selected).2) = bool_decide (idxs' = [])
    ∧ game (toggleSelection 1 selected).2 = game selected
    ∧ localStorage (toggleSelection 1 selected).2 = localStorage selected.
Proof.
  apply (toggleSelection_flips 1 selected book [0; 2]); [reflexivity|reflexivity|distinct].
Defined.

(** Two clicks on the first topic: it is selected again, after the last. *)
Lemma toggleSelection_twice_witness :
  ∃ idxs2,
    selectedIndices (toggleSelection 0 (toggleSelection 0 selected).2).2 = VNum <$> idxs2
    ∧ idxs2 ≡ₚ [0; 2]
    ∧ (0 ∉ [0; 2] → idxs2 = [0; 2])
    ∧ selectedCountEl (dom (toggleSelection 0 (toggleSelection 0 selected).2).2)
      = Z.of_nat (length [0; 2])
    ∧ startBtnDisabled (dom (toggleSelection 0 (toggleSelection 0 selected).2).2)
      = bool_decide ([0; 2] = @nil Z).
Proof.
  apply (toggleSelection_twice 0 selected book [0; 2]); [reflexivity|reflexivity|distinct].
Defined.

(** With two of three topics selected, the button selects all three, and
    a second click none. *)
Lemma selectAll_click_toggles_witness :
  ∃ idxs',
    selectedIndices (selectAll_click selected).2 = VNum <$> idxs'
    ∧ [0; 2] `prefix_of` idxs'
    ∧ idxs' ≡ₚ seqZ 0 3
    ∧ selectedCountEl (dom (selectAll_click selected).2) = 3
    ∧ startBtnDisabled (dom (selectAll_click selected).2) = false
    ∧ selectedIndices (selectAll_click (selectAll_click selected).2).2 = [].
Proof.
  pose proof (selectAll_click_toggles selected book [0; 2] eq_refl eq_refl) as Hall.
  cbv zeta in Hall. destruct Hall as (_ & _ & _ & _ & Hpartial).
  apply Hpartial; [discriminate|distinct|].
  repeat (constructor; [vm_compute; split; [discriminate|reflexivity]|]). constructor.
Defined.

(** A drag of 190 to the right in the session on three words. *)
Lemma gesture_decision_witness :
  gesture (game playing) 10 [50; 200] {| startX := 0; currentX := 0; isDragging := false |}
  = onEnd (game playing) {| startX := 10; currentX := 200; isDragging := true |}.
Proof.
  apply (gesture_decision (game playing) 10 [50; 200]
           {| startX := 0; currentX := 0; isDragging := false |} eq_refl).
  reflexivity.
Defined.

(** That drag moves the session from the middle card to the last. *)
Lemma swipe_moves_one_card_witness :
  (gesture (game playing) 10 [50; 200]
     {| startX := 0; currentX := 0; isDragging := false |}).2
  = AnimateSwipeAndAction ToRight NextQuestion
  ∧ animateSwipeAndAction_timeout 5 NextQuestion playing
    = (Ok tt, moved_state 5 book playing (1 + 1))
  ∧ in_sync (moved_state 5 book playing (1 + 1)).
Proof.
  apply (swipe_moves_one_card 5 playing book 10 [50; 200] 200
           {| startX := 0; currentX := 0; isDragging := false |}
           session_ok_playing eq_refl eq_refl eq_refl).
  - vm_compute. reflexivity.
  - vm_compute. reflexivity.
Defined.

(** Two lines without a carriage return join to the text. *)
Lemma split_lines_join_witness :
  join_with 10 (split_lines (lit "ab" ++ [10%N] ++ lit "c")) = lit "ab" ++ [10%N] ++ lit "c".
Proof.
  apply (split_lines_join (lit "ab" ++ [10%N] ++ lit "c")).
  apply (bool_decide_unpack _). vm_compute. exact I.
Defined.

(** The title of the sheet is a trimmed, non-empty text that is no
    header. *)
Lemma parse_words_clean_witness :
  lit "Animals" ≠ [] ∧ trim (lit "Animals") = lit "Animals"
  ∧ not_header ascii_lower (lit "Animals") = true.
Proof.
  apply (parse_words_clean ascii_lower sheet). vm_compute. reflexivity.
Defined.
(** The first start of the page with the books of data.js. *)
Lemma LibraryManager_init_first_run_witness :
  (LibraryManager_init data_defaultLibrary fresh).1 = Ok tt
  ∧ library (LibraryManager_init data_defaultLibrary fresh).2
    = VArr (extractMeta <$> data_defaultLibrary).
Proof.
  pose proof (LibraryManager_init_first_run data_defaultLibrary fresh) as Hfirst.
  cbv zeta in Hfirst. destruct Hfirst as (Hok & Hlib & _); [by left|by split].
Defined.

(** A later start over the stored entry of the first sheet. *)
Lemma LibraryManager_init_merges_witness :
  ∃ items',
    LibraryManager_init data_defaultLibrary returning
    = (Ok tt, LibraryManager_save (set_library (VArr items') returning))
    ∧ merged data_defaultLibrary [old_meta] items'.
Proof.
  apply (LibraryManager_init_merges data_defaultLibrary returning
           (RefJSON.print (VArr [old_meta])) [old_meta]).
  - reflexivity.
  - vm_compute. reflexivity.
  - constructor; [by eexists|constructor].
  - distinct.
Defined.

(** A stored library that is not JSON. *)
Lemma LibraryManager_init_damaged_witness :
  let app := set_session (set_localStorage (fun ls => <[k_library := lit "{"]> ls)) fresh in
  LibraryManager_init data_defaultLibrary app = (Throw SyntaxError, app).
Proof.
  cbv zeta.
  apply (LibraryManager_init_damaged data_defaultLibrary _ (lit "{")).
  - reflexivity.
  - discriminate.
  - vm_compute. reflexivity.
Defined.

(** Without a response, the first sheet of data.js gives the notice and
    no book, and a local book is answered with its words. *)
Lemma loadBook_offline_witness :
  loadBook ascii_lower data_defaultLibrary None (lit "default-sheet-1") started
  = (Ok None, set_session (add_alert csv_notice) started)
  ∧ (let app := set_library (VArr [extractMeta builtin]) fresh in
     loadBook ascii_lower [builtin] None (lit "builtin") app
     = (Ok (Some {| book_id := lit "builtin"; book_title := lit "Built in";
                    words := [word_a; word_b] |}), app)).
Proof.
  split.
  - pose proof (loadBook_offline ascii_lower data_defaultLibrary started
                  (lit "default-sheet-1")) as Hoff.
    cbv zeta in Hoff. destruct Hoff as (_ & _ & _ & _ & _ & Hentry).
    destruct (Hentry (extractMeta <$> data_defaultLibrary) 0%nat
                (default VUndefined ((extractMeta <$> data_defaultLibrary) !! 0%nat)))
      as (_ & Hsheet & _); [reflexivity|vm_compute; reflexivity|reflexivity|].
    apply Hsheet; vm_compute; reflexivity.
  - cbv zeta.
    pose proof (loadBook_offline ascii_lower [builtin]
                  (set_library (VArr [extractMeta builtin]) fresh) (lit "builtin"))
      as Hoff.
    cbv zeta in Hoff. destruct Hoff as (_ & _ & _ & _ & _ & Hentry).
    destruct (Hentry [extractMeta builtin] 0%nat (extractMeta builtin))
      as (Hlocal & _); [reflexivity|vm_compute; reflexivity|reflexivity|].
    apply (Hlocal builtin [word_a; word_b]). vm_compute. reflexivity.
Defined.

(** The first sheet is loaded from the text of [sheet]. *)
Lemma loadBook_syncs_witness :
  let r := loadBook ascii_lower data_defaultLibrary (Some sheet)
             (lit "default-sheet-1") started in
  ∃ meta',
    library r.2 = VArr (<[0%nat := meta']> (extractMeta <$> data_defaultLibrary))
    ∧ meta_prop meta' k_count = VNum 2
    ∧ meta_prop meta' k_title = VStr (lit "Animals")
    ∧ loadBook ascii_lower data_defaultLibrary (Some sheet) (lit "default-sheet-1") r.2 = r.
Proof.
  cbv zeta.
  destruct (loadBook_syncs ascii_lower data_defaultLibrary started
              (lit "default-sheet-1") sheet (extractMeta <$> data_defaultLibrary) 0
              (extractMeta {| d_id := lit "default-sheet-1";
                              d_title := [38642; 31471; 38988; 24235]%N
                                         ++ lit " (Google Sheets)";
                              d_source := Csv (lit "https://docs.google.com/spreadsheets/d/e/2PACX-1vTHO-VI300eSUKXThQYR9x5siY5XPPrMGJBIGYqDaF_6jR1dverW_UIHxiU93sUjpqW8DolsHmj0Dpc/pub?output=csv") |}))
    as (meta' & _ & Hlib & Hcount & Htitle & _ & _ & _ & Hagain);
    [reflexivity|vm_compute; reflexivity|reflexivity|vm_compute; reflexivity
    |vm_compute; reflexivity|].
  exists meta'. split_and!; [exact Hlib|exact Hcount|exact Htitle|exact Hagain].
Defined.

(** The first sheet is opened on a page without stored progress. *)
Lemma openBook_opens_witness :
  let r := openBook ascii_lower data_defaultLibrary (Some sheet)
             (lit "default-sheet-1") started in
  r.1 = Ok tt
  ∧ activeBook (session r.2)
    = Some {| book_id := lit "default-sheet-1"; book_title := lit "Animals";
              words := [{| term := lit "cat"; zhuyin := lit "mao" |};
                        {| term := lit "dog"; zhuyin := [] |}] |}
  ∧ screen (dom (session r.2)) = WelcomeScreen
  ∧ startBtnDisabled (dom (session r.2)) = true
  ∧ resumeBtnShown (dom (session r.2)) = false.
Proof.
  cbv zeta.
  pose proof (openBook_opens ascii_lower data_defaultLibrary (Some sheet)
                (lit "default-sheet-1") started
                (loadBook ascii_lower data_defaultLibrary (Some sheet)
                   (lit "default-sheet-1") started).2) as [_ Hopen].
  specialize (Hopen {| book_id := lit "default-sheet-1"; book_title := lit "Animals";
                       words := [{| term := lit "cat"; zhuyin := lit "mao" |};
                                 {| term := lit "dog"; zhuyin := [] |}] |}).
  cbv zeta in Hopen. destruct Hopen as [Hfresh _]; [vm_compute; reflexivity|].
  destruct Hfresh as [-> ->]; [vm_compute; reflexivity|].
  by split_and!.
Defined.

Import EndlessExamples.

Ltac in_range := repeat (constructor; [split; [lia|reflexivity]|]); constructor.

(** After [a], with [a] and [c] selected, the next card is [c]. *)
Lemma endless_nextQuestion_no_repeat_witness :
  ∃ w, w ∈ [word_a; word_c] ∧ term w ≠ term word_a
    ∧ Endless.currentIndex first_card
      = Z.of_nat (length (Endless.history first_card)) - 1
    ∧ Endless.nextQuestion 0 book (VNum <$> [0; 2]) first_card
      = (Ok (VStr (term w)),
         {| Endless.active := Endless.active first_card;
            Endless.history := Endless.history first_card ++ [word_value w];
            Endless.currentIndex := Endless.currentIndex first_card + 1 |}).
Proof.
  apply (endless_nextQuestion_no_repeat 0 book [0; 2] [word_a; word_c] first_card word_a).
  - vm_compute. discriminate.
  - reflexivity.
  - in_range.
  - cbn. lia.
  - exists word_c. split; [right; left|discriminate].
Defined.

(** After [a], with the two words of term [a] selected, the next step
    fails. *)
Lemma endless_nextQuestion_dead_end_witness :
  Endless.nextQuestion 0 twins (VNum <$> [0; 1]) first_card
  = (Throw TypeError,
     {| Endless.active := true;
        Endless.history := [word_value word_a; VUndefined];
        Endless.currentIndex := 1 |}).
Proof.
  apply (endless_nextQuestion_dead_end 0 twins [0; 1] [word_a; word_a'] first_card word_a).
  - vm_compute. discriminate.
  - reflexivity.
  - in_range.
  - cbn. lia.
  - repeat constructor.
Defined.

(** The two sheets of data.js, synced in either order. *)
Lemma loadBook_order_irrelevant_witness :
  let load := loadBook ascii_lower data_defaultLibrary in
  let plants := lit "Plants" ++ [10%N] ++ lit "oak" in
  (load (Some plants) (lit "default-sheet-2")
     (load (Some sheet) (lit "default-sheet-1") started).2).2
  = (load (Some sheet) (lit "default-sheet-1")
       (load (Some plants) (lit "default-sheet-2") started).2).2.
Proof.
  cbv zeta.
  apply (loadBook_order_irrelevant ascii_lower data_defaultLibrary started
           (lit "default-sheet-1") (lit "default-sheet-2")
           sheet (lit "Plants" ++ [10%N] ++ lit "oak")
           (extractMeta <$> data_defaultLibrary) 0 1
           (default VUndefined ((extractMeta <$> data_defaultLibrary) !! 0%nat))
           (default VUndefined ((extractMeta <$> data_defaultLibrary) !! 1%nat)));
    try reflexivity; try (vm_compute; reflexivity).
  discriminate.
Defined.
